(** * ferryd: the job processor ([src/ferryd/jobs/processor.go])

    A shallow embedding of the [Processor] of ferryd's [jobs] package: the
    live job table, the two lanes, job identity allocation, job submission
    and job execution, together with the properties of the design document
    that concern them. *)

From stdpp Require Import gmap strings list fin_maps pretty.
From Stdlib Require Import ZArith Lia.

Local Open Scope Z_scope.

(** ** Machine integers, time, formatting *)

(** Go's [int] on the 64-bit targets ferryd is built for. [counter++] in
    [initMetadata] is an [int] increment and wraps around silently. *)
Definition int_min : Z := - 2 ^ 63.
Definition int_max : Z := 2 ^ 63 - 1.
Definition int_wrap (z : Z) : Z := (z + 2 ^ 63) `mod` 2 ^ 64 - 2 ^ 63.

(** A [time.Time] is kept as the number of nanoseconds since the Unix epoch;
    [Unix] is [Time.Unix()], the number of whole seconds. *)
Abbreviation Time := Z (only parsing).
Definition Unix (t : Time) : Z := t `div` 1000000000.

(** [fmt.Sprintf("%s-%d-%d", nom, unix, counter)]; [%d] prints the decimal
    digits with a leading minus sign for negative numbers. *)
Definition Sprintf_id (nom : string) (unix counter : Z) : string :=
  nom +:+ "-" +:+ pretty unix +:+ "-" +:+ pretty counter.

(** Go's [error] interface: [None] is the nil error. *)
Abbreviation error := (option string) (only parsing).

(** Jobs are handled through [*Job] pointers: an address in the job heap. *)
Abbreviation ptr := nat (only parsing).

(** ** Data model *)

Section Processor.

(** [core.Manager], the execution context handed to every task; the
    processor only threads it through. [NumCPU] is [runtime.NumCPU()]. *)
Context {Manager : Type}.
Variable NumCPU : Z.

(** The [Runnable] interface, for a task that is a pointer. [kind] is the
    name that [reflect.TypeOf(task).Elem().Name()] yields. [Perform] may change the
    manager and returns an error or nil. The [Init] hook is caller code: its
    invocation is recorded in the trace ([EvInit]); what it does to the
    processor it does through the processor's own operations. *)
Record Runnable := {
  kind : string;
  IsSequential : bool;
  Perform : Manager → Manager * error;
}.

Inductive JobStatus := StatusPending | StatusRunning | StatusSuccess | StatusFailed.

Global Instance JobStatus_eq_dec : EqDecision JobStatus.
Proof. solve_decision. Defined.

Definition terminal (s : JobStatus) : bool :=
  match s with
  | StatusSuccess | StatusFailed => true
  | StatusPending | StatusRunning => false
  end.

(** [job.timing]; [None] is the zero [time.Time]. *)
Record Timing := {
  Created : option Time;
  Started : option Time;
  Completed : option Time;
}.

(** A [Job]. The fields [id], [task], [status] and [timing] are the ones the
    processor reads and writes; [job_parents] and [job_deps] are the
    dependency bookkeeping of the Job entity. *)
Record Job := {
  job_id : string;
  job_task : Runnable;
  job_status : JobStatus;
  job_timing : Timing;
  job_parents : list ptr;
  job_deps : nat;
}.

Definition set_id (s : string) (j : Job) : Job :=
  {| job_id := s; job_task := job_task j; job_status := job_status j;
     job_timing := job_timing j; job_parents := job_parents j; job_deps := job_deps j |}.
Definition set_status (s : JobStatus) (j : Job) : Job :=
  {| job_id := job_id j; job_task := job_task j; job_status := s;
     job_timing := job_timing j; job_parents := job_parents j; job_deps := job_deps j |}.
Definition set_timing (t : Timing) (j : Job) : Job :=
  {| job_id := job_id j; job_task := job_task j; job_status := job_status j;
     job_timing := t; job_parents := job_parents j; job_deps := job_deps j |}.
Definition set_deps (n : nat) (j : Job) : Job :=
  {| job_id := job_id j; job_task := job_task j; job_status := job_status j;
     job_timing := job_timing j; job_parents := job_parents j; job_deps := n |}.
Definition set_parents (ps : list ptr) (j : Job) : Job :=
  {| job_id := job_id j; job_task := job_task j; job_status := job_status j;
     job_timing := job_timing j; job_parents := ps; job_deps := job_deps j |}.

Definition set_Created (t : Time) (tm : Timing) : Timing :=
  {| Created := Some t; Started := Started tm; Completed := Completed tm |}.
Definition set_Started (t : Time) (tm : Timing) : Timing :=
  {| Created := Created tm; Started := Some t; Completed := Completed tm |}.
Definition set_Completed (t : Time) (tm : Timing) : Timing :=
  {| Created := Created tm; Started := Started tm; Completed := Some t |}.

(** An unbuffered [chan *Job]: the jobs whose send is waiting for a
    receiver, oldest first, and whether the channel has been closed. *)
Record Chan := {
  sendq : list ptr;
  chan_closed : bool;
}.

Definition make_chan : Chan := {| sendq := []; chan_closed := false |}.
Definition chan_send (p : ptr) (c : Chan) : Chan :=
  {| sendq := sendq c ++ [p]; chan_closed := chan_closed c |}.
Definition chan_close (c : Chan) : Chan :=
  {| sendq := sendq c; chan_closed := true |}.

(** The [Processor] struct. [quit] counts the tokens buffered in the quit
    channel, [wg] is the WaitGroup counter; [mut] is not a field of the
    model: each operation below that runs under the lock is one atomic
    step. *)
Record Processor := {
  manager : Manager;
  sequentialjobs : Chan;
  backgroundJobs : Chan;
  quit : nat;
  wg : Z;
  closed : bool;
  njobs : Z;
  jobTable : gmap string ptr;
}.

(** Goroutines started with a [go] statement. *)
Inductive Goroutine :=
| GoSequentialQueue
| GoBackgroundQueue
| GoBackgroundWorker
| GoStartJob (p : ptr).

Global Instance Goroutine_eq_dec : EqDecision Goroutine.
Proof. solve_decision. Defined.

(** What an execution does, in the order it does it: the writes to a job's
    timing and status, the calls of task hooks, the log records and the
    [go] statements. *)
Inductive Event :=
| EvCreated (p : ptr) (t : Time)
| EvStarted (p : ptr) (t : Time)
| EvCompleted (p : ptr) (t : Time)
| EvStatus (p : ptr) (s : JobStatus)
| EvInit (p : ptr)
| EvPerform (p : ptr) (e : error)
| EvLog (id : string) (type : string) (e : string)
| EvGo (g : Goroutine).

Global Instance Event_eq_dec : EqDecision Event.
Proof. solve_decision. Defined.

(** The processor, the job objects it points to, and the trace so far. *)
Record World := {
  proc : Processor;
  heap : list Job;
  trace : list Event;
}.

Definition set_proc (f : Processor → Processor) (w : World) : World :=
  {| proc := f (proc w); heap := heap w; trace := trace w |}.
Definition set_heap (f : list Job → list Job) (w : World) : World :=
  {| proc := proc w; heap := f (heap w); trace := trace w |}.
Definition emit (e : Event) (w : World) : World :=
  {| proc := proc w; heap := heap w; trace := trace w ++ [e] |}.

Definition set_manager (m : Manager) (P : Processor) : Processor :=
  {| manager := m; sequentialjobs := sequentialjobs P; backgroundJobs := backgroundJobs P;
     quit := quit P; wg := wg P; closed := closed P; njobs := njobs P;
     jobTable := jobTable P |}.
Definition set_sequentialjobs (c : Chan) (P : Processor) : Processor :=
  {| manager := manager P; sequentialjobs := c; backgroundJobs := backgroundJobs P;
     quit := quit P; wg := wg P; closed := closed P; njobs := njobs P;
     jobTable := jobTable P |}.
Definition set_backgroundJobs (c : Chan) (P : Processor) : Processor :=
  {| manager := manager P; sequentialjobs := sequentialjobs P; backgroundJobs := c;
     quit := quit P; wg := wg P; closed := closed P; njobs := njobs P;
     jobTable := jobTable P |}.
Definition set_quit (n : nat) (P : Processor) : Processor :=
  {| manager := manager P; sequentialjobs := sequentialjobs P; backgroundJobs := backgroundJobs P;
     quit := n; wg := wg P; closed := closed P; njobs := njobs P;
     jobTable := jobTable P |}.
Definition set_wg (n : Z) (P : Processor) : Processor :=
  {| manager := manager P; sequentialjobs := sequentialjobs P; backgroundJobs := backgroundJobs P;
     quit := quit P; wg := n; closed := closed P; njobs := njobs P;
     jobTable := jobTable P |}.
Definition set_closed (b : bool) (P : Processor) : Processor :=
  {| manager := manager P; sequentialjobs := sequentialjobs P; backgroundJobs := backgroundJobs P;
     quit := quit P; wg := wg P; closed := b; njobs := njobs P;
     jobTable := jobTable P |}.
Definition set_jobTable (t : gmap string ptr) (P : Processor) : Processor :=
  {| manager := manager P; sequentialjobs := sequentialjobs P; backgroundJobs := backgroundJobs P;
     quit := quit P; wg := wg P; closed := closed P; njobs := njobs P;
     jobTable := t |}.

(** ** A state monad with panics

    An operation either returns a value and a new world, panics (the Go
    runtime aborts the goroutine and, unrecovered, the process), or spins
    forever. *)
Inductive Result (A : Type) :=
| Ok (a : A) (w : World)
| Panic (msg : string)
| Spin.
Global Arguments Ok {A} a w.
Global Arguments Panic {A} msg.
Global Arguments Spin {A}.

Definition M (A : Type) : Type := World → Result A.

Global Instance M_ret : MRet M := λ A a w, Ok a w.
Global Instance M_bind : MBind M := λ A B k m w,
  match m w with
  | Ok a w' => k a w'
  | Panic msg => Panic msg
  | Spin => Spin
  end.

Definition panic {A} (msg : string) : M A := λ _, Panic msg.
Definition spin {A} : M A := λ _, Spin.
Definition get : M World := λ w, Ok w w.
Definition modify (f : World → World) : M unit := λ w, Ok tt (f w).

(** Dereferencing a [*Job]; a pointer that is not in the heap is a nil
    dereference, on which the Go runtime panics. *)
Definition load (p : ptr) : M Job := λ w,
  match heap w !! p with
  | Some j => Ok j w
  | None => Panic "invalid memory address or nil pointer dereference"
  end.
Definition store (p : ptr) (f : Job → Job) : M unit :=
  j ← load p; modify (set_heap (λ h, <[p:=f j]> h)).

Definition write_status (p : ptr) (s : JobStatus) : M unit :=
  store p (set_status s);; modify (emit (EvStatus p s)).

(** A [go] statement. *)
Definition go (g : Goroutine) : M unit := modify (emit (EvGo g)).

(** [for _, x := range xs { f(x) }] *)
Fixpoint for_range {A} (f : A → M unit) (xs : list A) : M unit :=
  match xs with
  | [] => mret tt
  | x :: xs' => f x;; for_range f xs'
  end.

(** ** The Job entity *)

(** [&Job{task: task}]: every other field has its zero value. The zero
    status is never read: [initMetadata] overwrites it before the job is
    handed to anyone. *)
Definition new_Job (t : Runnable) : Job :=
  {| job_id := ""; job_task := t; job_status := StatusPending;
     job_timing := {| Created := None; Started := None; Completed := None |};
     job_parents := []; job_deps := 0 |}.

(** Modelled from the spec: [job.init()], defined in the Job entity's file,
    which is not among the sources. It sets up the dependency bookkeeping of
    a new job: no parent waits on it and it waits on no child. *)
Definition Job_init (j : Job) : Job := set_deps 0 (set_parents [] j).

(** Modelled from the spec: [job.NotifyDone()], defined in the Job entity's
    file, which is not among the sources. The finished job notifies each of
    its parents; a parent becomes eligible once all the children it depends
    on have notified it, and the result is the list of the parents that just
    became eligible. [job_deps] counts the children that have not notified
    yet. *)
Fixpoint notify_parents (ps : list ptr) (h : list Job) : list ptr * list Job :=
  match ps with
  | [] => ([], h)
  | q :: ps' =>
      match h !! q with
      | None => notify_parents ps' h
      | Some pj =>
          let n := Nat.pred (job_deps pj) in
          let '(r, h') := notify_parents ps' (<[q:=set_deps n pj]> h) in
          (if decide (n = 0%nat) then q :: r else r, h')
      end
  end.

Definition NotifyDone (job : ptr) : M (list ptr) :=
  j ← load job;
  w ← get;
  let '(r, h') := notify_parents (job_parents j) (heap w) in
  modify (set_heap (λ _, h'));;
  mret r.

(** ** The processor's operations *)

(** [NewProcessor(m, njobs)] *)
Definition NewProcessor (m : Manager) (n : Z) : Processor :=
  let n := if decide (n < 0) then NumCPU else n in
  {| manager := m; sequentialjobs := make_chan; backgroundJobs := make_chan;
     quit := 0; wg := 0; closed := false; njobs := n; jobTable := ∅ |}.

(** [Close()]: what it does to the processor. The loop sends [njobs+1]
    tokens into the buffered quit channel. The write lock it takes first is
    granted once no [StartJob] waits in its send, and the final [wg.Wait()]
    only waits for the other goroutines: the call returns once the
    WaitGroup counter is zero. *)
Definition Close : M unit :=
  w ← get;
  if closed (proc w) then mret tt
  else
    modify (set_proc (set_closed true));;
    modify (set_proc (λ P, set_sequentialjobs (chan_close (sequentialjobs P)) P));;
    modify (set_proc (λ P, set_backgroundJobs (chan_close (backgroundJobs P)) P));;
    modify (set_proc (λ P, set_quit (quit P + Z.to_nat (njobs P + 1)) P)).

(** [Begin()] *)
Definition Begin : M unit :=
  w ← get;
  if closed (proc w) then mret tt
  else
    modify (set_proc (λ P, set_wg (wg P + 2) P));;
    go GoSequentialQueue;;
    go GoBackgroundQueue.

(** [reportError(job, e)] *)
Definition reportError (job : ptr) (e : string) : M unit :=
  write_status job StatusFailed;;
  j ← load job;
  modify (emit (EvLog (job_id j) (kind (job_task j)) e)).

(** [popJob(job)]: what it does to the job table. The write lock it takes
    first is granted once no [StartJob] waits in its send; until then the
    caller waits. *)
Definition popJob (job : ptr) : M unit :=
  j ← load job;
  modify (set_proc (λ P, set_jobTable (delete (job_id j) (jobTable P)) P)).

(** [StartJob(job)]: what it does to the lanes. The lanes are unbuffered:
    the send is recorded as waiting on the lane, and the goroutine that
    sends stays in the call, holding the read lock, until a pump or a
    worker receives the job. *)
Definition StartJob (job : ptr) : M unit :=
  w ← get;
  if closed (proc w) then mret tt
  else
    j ← load job;
    if IsSequential (job_task j)
    then modify (set_proc (λ P, set_sequentialjobs (chan_send job (sequentialjobs P)) P))
    else modify (set_proc (λ P, set_backgroundJobs (chan_send job (backgroundJobs P)) P)).

(** [executeJob(job)]; [started] and [completed] are what the two calls of
    [time.Now()] return. *)
Definition executeJob (started completed : Time) (job : ptr) : M unit :=
  store job (λ j, set_timing (set_Started started (job_timing j)) j);;
  modify (emit (EvStarted job started));;
  write_status job StatusRunning;;
  j ← load job;
  w ← get;
  let '(m, err) := Perform (job_task j) (manager (proc w)) in
  modify (set_proc (set_manager m));;
  modify (emit (EvPerform job err));;
  store job (λ j, set_timing (set_Completed completed (job_timing j)) j);;
  modify (emit (EvCompleted job completed));;
  parents ← NotifyDone job;
  for_range (λ p, go (GoStartJob p)) parents;;
  popJob job;;
  match err with
  | Some e => reportError job e
  | None => write_status job StatusSuccess
  end.

(** The loop of [initMetadata]: try [counter], [counter+1], ... until the
    candidate ID is not a key of the job table. The table cannot change
    while the loop runs (it runs under the read lock), so a loop that has
    found [S (size tbl)] candidates taken goes on forever; the fuel the loop
    is given in [initMetadata] is that number. *)
Fixpoint initMetadata_loop (fuel : nat) (tbl : gmap string ptr)
    (nom : string) (unix counter : Z) : option Z :=
  match fuel with
  | O => None
  | S fuel' =>
      match tbl !! Sprintf_id nom unix counter with
      | None => Some counter
      | Some _ => initMetadata_loop fuel' tbl nom unix (int_wrap (counter + 1))
      end
  end.

(** [initMetadata(job)]; [now] is what [time.Now()] returns. *)
Definition initMetadata (now : Time) (job : ptr) : M unit :=
  store job (λ j, set_timing (set_Created now (job_timing j)) j);;
  modify (emit (EvCreated job now));;
  write_status job StatusPending;;
  j ← load job;
  w ← get;
  let nom := kind (job_task j) in
  let unix := Unix now in
  let tbl := jobTable (proc w) in
  match initMetadata_loop (S (size tbl)) tbl nom unix 0 with
  | Some counter => store job (set_id (Sprintf_id nom unix counter))
  | None => spin
  end.

(** [&Job{...}]: a new object at a fresh address. *)
Definition alloc (j : Job) : M ptr :=
  w ← get;
  modify (set_heap (λ h, h ++ [j]));;
  mret (length (heap w)).

(** [pushJobInternal(task)]; a nil [task] is [None], any other is a pointer
    to a task. The [Init] hook is taken to leave the processor alone, and
    the write lock to be free; [Submit.pushJobInternal] below has both
    written out. *)
Definition pushJobInternal (now : Time) (task : option Runnable) : M ptr :=
  match task with
  | None => panic "passed nil job!"
  | Some t =>
      job ← alloc (Job_init (new_Job t));
      initMetadata now job;;
      modify (emit (EvInit job));;
      w ← get;
      if closed (proc w) then mret job
      else
        j ← load job;
        modify (set_proc (λ P, set_jobTable (<[job_id j:=job]> (jobTable P)) P));;
        mret job
  end.

(** [PushJobLater(task)] *)
Definition PushJobLater (now : Time) (task : option Runnable) : M ptr :=
  pushJobInternal now task.

(** [PushJob(task)] *)
Definition PushJob (now : Time) (task : option Runnable) : M ptr :=
  job ← pushJobInternal now task;
  StartJob job;;
  mret job.

(** ** Goroutines as interleaved atomic steps

    Submitters, the sequential pump and the background workers run
    concurrently. A goroutine that is inside [pushJobInternal], [StartJob]
    or [executeJob] is a program counter [Pc]; one step runs the statements
    up to the next point where another goroutine can interfere. *)
Inductive Pc :=
| PcPush (start : bool) (task : option Runnable)
    (* entering pushJobInternal; [start] tells PushJob from PushJobLater *)
| PcPushInit (start : bool) (job : ptr)         (* at [job.task.Init(j)] *)
| PcPushInsert (start : bool) (job : ptr)       (* at [j.mut.Lock()] *)
| PcStart (job : ptr)                           (* entering StartJob *)
| PcExec (job : ptr)                            (* entering executeJob *)
| PcExecRunning (job : ptr)                     (* at [job.status = StatusRunning] *)
| PcExecPerform (job : ptr)                     (* at [job.task.Perform] *)
| PcExecCompleted (job : ptr) (err : error)     (* at [job.timing.Completed = ...] *)
| PcExecNotify (job : ptr) (err : error)        (* at [job.NotifyDone()] *)
| PcExecGo (job : ptr) (err : error) (parents : list ptr)  (* at the [go] loop *)
| PcExecPop (job : ptr) (err : error)           (* at [j.popJob(job)] *)
| PcExecReport (job : ptr) (err : error)        (* at [if err != nil] *)
| PcDone.

(** One step of a goroutine: the next program counter and the goroutines
    it starts. [now] is what [time.Now()] returns if the step calls it. *)
Definition step_pc (now : Time) (pc : Pc) : M (Pc * list Pc) :=
  match pc with
  | PcPush start task =>
      match task with
      | None => panic "passed nil job!"
      | Some t =>
          job ← alloc (Job_init (new_Job t));
          initMetadata now job;;
          mret (PcPushInit start job, [])
      end
  | PcPushInit start job =>
      modify (emit (EvInit job));;
      mret (PcPushInsert start job, [])
  | PcPushInsert start job =>
      w ← get;
      (if closed (proc w) then mret tt
       else
         j ← load job;
         modify (set_proc (λ P, set_jobTable (<[job_id j:=job]> (jobTable P)) P)));;
      mret (if start then PcStart job else PcDone, [])
  | PcStart job =>
      StartJob job;;
      mret (PcDone, [])
  | PcExec job =>
      store job (λ j, set_timing (set_Started now (job_timing j)) j);;
      modify (emit (EvStarted job now));;
      mret (PcExecRunning job, [])
  | PcExecRunning job =>
      write_status job StatusRunning;;
      mret (PcExecPerform job, [])
  | PcExecPerform job =>
      j ← load job;
      w ← get;
      let '(m, err) := Perform (job_task j) (manager (proc w)) in
      modify (set_proc (set_manager m));;
      modify (emit (EvPerform job err));;
      mret (PcExecCompleted job err, [])
  | PcExecCompleted job err =>
      store job (λ j, set_timing (set_Completed now (job_timing j)) j);;
      modify (emit (EvCompleted job now));;
      mret (PcExecNotify job err, [])
  | PcExecNotify job err =>
      parents ← NotifyDone job;
      mret (PcExecGo job err parents, [])
  | PcExecGo job err parents =>
      for_range (λ p, go (GoStartJob p)) parents;;
      mret (PcExecPop job err, PcStart <$> parents)
  | PcExecPop job err =>
      popJob job;;
      mret (PcExecReport job err, [])
  | PcExecReport job err =>
      match err with
      | Some e => reportError job e
      | None => write_status job StatusSuccess
      end;;
      mret (PcDone, [])
  | PcDone => mret (PcDone, [])
  end.

(** Running a goroutine on its own for [n] steps; [nows] are the clock
    readings of the steps. *)
Fixpoint run_pc (n : nat) (nows : nat → Time) (pc : Pc) : M (Pc * list Pc) :=
  match n with
  | O => mret (pc, [])
  | S n' =>
      '(pc', gs) ← step_pc (nows 0%nat) pc;
      '(pc'', gs') ← run_pc n' (λ i, nows (S i)) pc';
      mret (pc'', gs ++ gs')
  end.

(** A receive on a lane: the oldest waiting send, if the channel is open. *)
Definition chan_recv (c : Chan) : option (ptr * Chan) :=
  if chan_closed c then None
  else
    match sendq c with
    | [] => None
    | p :: q => Some (p, {| sendq := q; chan_closed := chan_closed c |})
    end.

(** Modelled from the spec: making [parent] wait on [child]. The operation
    belongs to the Job entity's file, which is not among the sources; the
    spec's data model has a job carry the parents that are blocked on it,
    and a parent start once all the children it depends on are done. *)
Definition add_dependency (child parent : ptr) : M unit :=
  store child (λ j, set_parents (job_parents j ++ [parent]) j);;
  store parent (λ j, set_deps (S (job_deps j)) j).

(** The whole system: the world, the goroutines inside an operation, and
    the jobs that [PushJob] or [PushJobLater] has returned to a caller. *)
Record System := {
  world : World;
  threads : list Pc;
  released : gset ptr;
}.

Definition init_system (m : Manager) (n : Z) : System :=
  {| world := {| proc := NewProcessor m n; heap := []; trace := [] |};
     threads := []; released := ∅ |}.

(** The job a step hands back to the caller of [pushJobInternal]. *)
Definition returned (pc : Pc) : gset ptr :=
  match pc with
  | PcPushInsert _ job => {[job]}
  | _ => ∅
  end.

(** The scheduler. Any goroutine may take the next step; callers may enter
    [PushJob], [PushJobLater], [Begin], [Close] at any time, and [StartJob]
    and [add_dependency] on jobs they were given; a pump or a worker may
    take the next job of its lane and execute it. *)
Inductive step : System → System → Prop :=
| step_thread s i pc now pc' gs w' :
    threads s !! i = Some pc →
    step_pc now pc (world s) = Ok (pc', gs) w' →
    step s {| world := w'; threads := <[i:=pc']> (threads s) ++ gs;
              released := released s ∪ returned pc |}
| step_call_push s start task :
    step s {| world := world s; threads := threads s ++ [PcPush start task];
              released := released s |}
| step_call_start s job :
    job ∈ released s →
    step s {| world := world s; threads := threads s ++ [PcStart job];
              released := released s |}
| step_call_begin s w' :
    Begin (world s) = Ok tt w' →
    step s {| world := w'; threads := threads s; released := released s |}
| step_call_close s w' :
    Close (world s) = Ok tt w' →
    step s {| world := w'; threads := threads s; released := released s |}
| step_call_depend s child parent w' :
    child ∈ released s → parent ∈ released s →
    add_dependency child parent (world s) = Ok tt w' →
    step s {| world := w'; threads := threads s; released := released s |}
| step_recv_sequential s job c :
    chan_recv (sequentialjobs (proc (world s))) = Some (job, c) →
    step s {| world := set_proc (set_sequentialjobs c) (world s);
              threads := threads s ++ [PcExec job]; released := released s |}
| step_recv_background s job c :
    chan_recv (backgroundJobs (proc (world s))) = Some (job, c) →
    step s {| world := set_proc (set_backgroundJobs c) (world s);
              threads := threads s ++ [PcExec job]; released := released s |}.

Definition reachable (s0 s : System) : Prop := rtc step s0 s.

(** A run of the scheduler, as the choices it makes. *)
Inductive Choice :=
| RunThread (i : nat) (now : Time)
| CallPush (start : bool) (task : option Runnable)
| CallStart (job : ptr)
| CallBegin
| CallClose
| CallDepend (child parent : ptr)
| RecvSequential
| RecvBackground.

Definition with_world (w : World) (s : System) : System :=
  {| world := w; threads := threads s; released := released s |}.
Definition spawn (pc : Pc) (s : System) : System :=
  {| world := world s; threads := threads s ++ [pc]; released := released s |}.

Definition schedule1 (c : Choice) (s : System) : option System :=
  match c with
  | RunThread i now =>
      match threads s !! i with
      | Some pc =>
          match step_pc now pc (world s) with
          | Ok (pc', gs) w' =>
              Some {| world := w'; threads := <[i:=pc']> (threads s) ++ gs;
                      released := released s ∪ returned pc |}
          | Panic _ | Spin => None
          end
      | None => None
      end
  | CallPush start task => Some (spawn (PcPush start task) s)
  | CallStart job =>
      if decide (job ∈ released s) then Some (spawn (PcStart job) s) else None
  | CallBegin =>
      match Begin (world s) with
      | Ok _ w' => Some (with_world w' s)
      | Panic _ | Spin => None
      end
  | CallClose =>
      match Close (world s) with
      | Ok _ w' => Some (with_world w' s)
      | Panic _ | Spin => None
      end
  | CallDepend child parent =>
      if decide (child ∈ released s ∧ parent ∈ released s) then
        match add_dependency child parent (world s) with
        | Ok _ w' => Some (with_world w' s)
        | Panic _ | Spin => None
        end
      else None
  | RecvSequential =>
      match chan_recv (sequentialjobs (proc (world s))) with
      | Some (job, c) =>
          Some (spawn (PcExec job) (with_world (set_proc (set_sequentialjobs c) (world s)) s))
      | None => None
      end
  | RecvBackground =>
      match chan_recv (backgroundJobs (proc (world s))) with
      | Some (job, c) =>
          Some (spawn (PcExec job) (with_world (set_proc (set_backgroundJobs c) (world s)) s))
      | None => None
      end
  end.

Fixpoint schedule (cs : list Choice) (s : System) : option System :=
  match cs with
  | [] => Some s
  | c :: cs' =>
      match schedule1 c s with
      | Some s' => schedule cs' s'
      | None => None
      end
  end.

(** ** Properties of worlds and systems *)

(** [p] is a value of the live job table. *)
Definition in_table (w : World) (p : ptr) : Prop :=
  ∃ k, jobTable (proc w) !! k = Some p.

(** Every job of the live job table is stored under its own ID and is
    Pending or Running. *)
Definition table_ok (w : World) : Prop :=
  ∀ k p, jobTable (proc w) !! k = Some p →
    ∃ j, heap w !! p = Some j ∧ job_id j = k ∧ terminal (job_status j) = false.

(** The job a goroutine has created and not yet returned. *)
Definition pc_private (pc : Pc) : option ptr :=
  match pc with
  | PcPushInit _ job | PcPushInsert _ job => Some job
  | _ => None
  end.

(** The jobs a goroutine got from someone else. *)
Definition pc_public (pc : Pc) : list ptr :=
  match pc with
  | PcStart job | PcExec job | PcExecRunning job | PcExecPerform job
  | PcExecCompleted job _ | PcExecNotify job _ | PcExecPop job _
  | PcExecReport job _ => [job]
  | PcExecGo job _ parents => job :: parents
  | PcPush _ _ | PcPushInit _ _ | PcPushInsert _ _ | PcDone => []
  end.

Definition pc_ok (w : World) (rel : gset ptr) (pc : Pc) : Prop :=
  (∀ p, pc_private pc = Some p →
     (p ∉ rel) ∧ (∃ j, heap w !! p = Some j ∧ job_status j = StatusPending)) ∧
  (∀ p, p ∈ pc_public pc → p ∈ rel) ∧
  (∀ p err, pc = PcExecReport p err → ¬ in_table w p).

(** No two goroutines are about to return the same new job. *)
Definition private_distinct (ths : list Pc) : Prop :=
  ∀ i i' pc pc' p,
    ths !! i = Some pc → ths !! i' = Some pc' →
    pc_private pc = Some p → pc_private pc' = Some p → i = i'.

(** The invariant of the scheduler: the job table is in order; every
    goroutine is; the jobs that callers hold exist; the lanes and the
    parents of every job hold jobs that were returned to a caller. *)
Definition world_ok (w : World) (rel : gset ptr) : Prop :=
  table_ok w ∧
  (∀ p, p ∈ rel → (p < length (heap w))%nat) ∧
  (∀ p, p ∈ sendq (sequentialjobs (proc w)) → p ∈ rel) ∧
  (∀ p, p ∈ sendq (backgroundJobs (proc w)) → p ∈ rel) ∧
  (∀ q j p, heap w !! q = Some j → p ∈ job_parents j → p ∈ rel).

Definition Inv (s : System) : Prop :=
  world_ok (world s) (released s) ∧
  Forall (pc_ok (world s) (released s)) (threads s) ∧
  private_distinct (threads s).

(** What a step that inserts nothing into the job table may do to the
    world: rows may go; job objects keep their ID; a status changes only on
    a job that callers hold, and to a terminal status only on a job that is
    not in the table; parents and lane entries that are added are jobs that
    callers hold. *)
Definition frame (rel : gset ptr) (w w' : World) : Prop :=
  jobTable (proc w') ⊆ jobTable (proc w) ∧
  (length (heap w) ≤ length (heap w'))%nat ∧
  (∀ p j, heap w !! p = Some j →
     ∃ j', heap w' !! p = Some j' ∧ job_id j' = job_id j ∧
           (job_status j' = job_status j ∨
            (p ∈ rel ∧ (terminal (job_status j') = false ∨ ¬ in_table w p)))) ∧
  (∀ p j' q, heap w' !! p = Some j' → q ∈ job_parents j' →
     q ∈ rel ∨ ∃ j, heap w !! p = Some j ∧ q ∈ job_parents j) ∧
  (∀ p, p ∈ sendq (sequentialjobs (proc w')) →
     p ∈ rel ∨ p ∈ sendq (sequentialjobs (proc w))) ∧
  (∀ p, p ∈ sendq (backgroundJobs (proc w')) →
     p ∈ rel ∨ p ∈ sendq (backgroundJobs (proc w))).

(** Two job objects with the same ID and status, the second with no other
    parents than the first or jobs that callers hold. *)
Definition quiet (rel : gset ptr) (j j' : Job) : Prop :=
  job_id j' = job_id j ∧ job_status j' = job_status j ∧
  ∀ q, q ∈ job_parents j' → q ∈ rel ∨ q ∈ job_parents j.

(** ** What an execution leaves behind *)

(** The status [executeJob] ends with. *)
Definition final_status (err : error) : JobStatus :=
  match err with
  | Some _ => StatusFailed
  | None => StatusSuccess
  end.

(** The job object at the time [executeJob] calls [NotifyDone]. *)
Definition completed_job (started completed : Time) (j : Job) : Job :=
  {| job_id := job_id j; job_task := job_task j; job_status := StatusRunning;
     job_timing := {| Created := Created (job_timing j); Started := Some started;
                      Completed := Some completed |};
     job_parents := job_parents j; job_deps := job_deps j |}.

(** Two job objects that differ at most in the count of children they
    wait for. *)
Definition same_but_deps (a b : Job) : Prop :=
  job_id a = job_id b ∧ job_task a = job_task b ∧ job_status a = job_status b ∧
  job_timing a = job_timing b ∧ job_parents a = job_parents b.

(** The parents that the completion of [j] unblocks in heap [h]. *)
Definition unblocked (j : Job) (h : list Job) : list ptr :=
  (notify_parents (job_parents j) h).1.

(** The [go] statements among some events. *)
Definition spawned (evs : list Event) : list Goroutine :=
  omap (λ e, match e with EvGo g => Some g | _ => None end) evs.

(** Whether the task of the job at [p] asks for the sequential lane. *)
Definition wants_sequential (h : list Job) (p : ptr) : bool :=
  match h !! p with
  | Some j => IsSequential (job_task j)
  | None => false
  end.

(** ** Operations as the design document words them *)

(** "[PushJobLater] immediately followed by [StartJob]". *)
Definition PushJobLater_then_StartJob (now : Time) (task : option Runnable) : M ptr :=
  job ← PushJobLater now task;
  StartJob job;;
  mret job.

(** Submissions one after the other, with nothing in between: each request
    says whether it is a [PushJob] or a [PushJobLater], what the clock
    shows, and the task. *)
Fixpoint submit_all (reqs : list (bool * Time * Runnable)) : M (list ptr) :=
  match reqs with
  | [] => mret []
  | (start, now, t) :: reqs' =>
      job ← (if start : bool then PushJob now (Some t) else PushJobLater now (Some t));
      jobs ← submit_all reqs';
      mret (job :: jobs)
  end.

(** No two job objects of the heap carry the same ID: the IDs are unique
    over the lifetime of the processor. *)
Definition ids_unique (w : World) : Prop :=
  ∀ p q j j', heap w !! p = Some j → heap w !! q = Some j' → p ≠ q →
    job_id j ≠ job_id j'.

(** The world an operation ends in; the world it started in if it does not
    return. *)
Definition exec {A} (m : M A) (w : World) : World :=
  match m w with
  | Ok _ w' => w'
  | Panic _ | Spin => w
  end.

(** ** What a submission leaves behind *)

(** The job object after [pushJobInternal], when the ID loop ended at
    [counter]. *)
Definition created_job (now : Time) (t : Runnable) (counter : Z) : Job :=
  {| job_id := Sprintf_id (kind t) (Unix now) counter; job_task := t;
     job_status := StatusPending;
     job_timing := {| Created := Some now; Started := None; Completed := None |};
     job_parents := []; job_deps := 0 |}.

(** The world after [pushJobInternal]: the new object at the fresh address,
    its row in the job table unless the processor is closed, and the
    events of the call. *)
Definition pushed (now : Time) (t : Runnable) (counter : Z) (w : World) : World :=
  let job := length (heap w) in
  {| proc :=
       if closed (proc w) then proc w
       else set_jobTable (<[Sprintf_id (kind t) (Unix now) counter:=job]> (jobTable (proc w)))
                         (proc w);
     heap := heap w ++ [created_job now t counter];
     trace := trace w ++ [EvCreated job now; EvStatus job StatusPending; EvInit job] |}.

(** The lane [StartJob] puts a job on. *)
Definition enqueued (job : ptr) (t : Runnable) (P : Processor) : Processor :=
  if IsSequential t
  then set_sequentialjobs (chan_send job (sequentialjobs P)) P
  else set_backgroundJobs (chan_send job (backgroundJobs P)) P.

End Processor.

(** ** Submission with the caller's side written out

    [pushJobInternal] once more, with what the caller brings made explicit:
    the task as it is passed, the body of the [Init] hook of the task, and
    the write lock that guards the job table. With a task that is a
    pointer, a hook that does nothing and no send waiting on a lane, this
    is [pushJobInternal] above. *)

Module Submit.
Section Submit.
Context {Manager : Type}.

(** A task as it is passed to the processor: the nil interface, a value
    whose dynamic type has no element type (a struct passed by value, on
    which [reflect.TypeOf(job.task).Elem()] panics), or a pointer to a
    task. *)
Inductive Task :=
| TaskNil
| TaskValue
| TaskPointer (t : @Runnable Manager).

(** [j.mut.Lock()]. A [StartJob] that waits in its send holds the read
    lock, so the write lock is granted when no send waits on either lane;
    until then the caller waits, and on its own it waits forever. *)
Definition Lock : @M Manager unit := λ w,
  match sendq (sequentialjobs (proc w)), sendq (backgroundJobs (proc w)) with
  | [], [] => Ok tt w
  | _, _ => Spin
  end.

(** [pushJobInternal(task)] for a task whose [Init] hook runs [hook]. The
    hook is the caller's code and is handed the processor: it may do
    anything to the world. *)
Definition pushJobInternal (hook : @M Manager unit) (now : Time) (task : Task) : M ptr :=
  match task with
  | TaskNil => panic "passed nil job!"
  | TaskValue => panic "reflect: Elem of invalid type"
  | TaskPointer t =>
      job ← alloc (Job_init (new_Job t));
      initMetadata now job;;
      modify (emit (EvInit job));;
      hook;;
      Lock;;
      w ← get;
      if closed (proc w) then mret job
      else
        j ← load job;
        modify (set_proc (λ P, set_jobTable (<[job_id j:=job]> (jobTable P)) P));;
        mret job
  end.

(** [PushJobLater(task)] *)
Definition PushJobLater (hook : @M Manager unit) (now : Time) (task : Task) : M ptr :=
  pushJobInternal hook now task.

(** [PushJob(task)] *)
Definition PushJob (hook : @M Manager unit) (now : Time) (task : Task) : M ptr :=
  job ← pushJobInternal hook now task;
  StartJob job;;
  mret job.

(** A hook that returns and leaves the jobs, the job table, the lanes and
    the closed flag as they are. *)
Definition leaves_alone (hook : @M Manager unit) : Prop :=
  ∀ w, ∃ w',
    hook w = Ok tt w' ∧ heap w' = heap w ∧
    jobTable (proc w') = jobTable (proc w) ∧
    sequentialjobs (proc w') = sequentialjobs (proc w) ∧
    backgroundJobs (proc w') = backgroundJobs (proc w) ∧
    closed (proc w') = closed (proc w).

End Submit.
End Submit.

(** ** The pump and the workers

    [Begin] starts [processSequentialQueue] and [processBackgroundQueue];
    the latter starts [njobs] goroutines that run [backgroundWorker]. *)

Section Daemon.
Context {Manager : Type}.
Variable NumCPU : Z.

(** A pump or worker goroutine: [processSequentialQueue] and
    [backgroundWorker] are either in their select or inside the
    [executeJob] of the job they received, at some program counter;
    [processBackgroundQueue] is before its [wg.Add] or at the test of its
    loop, with the loop counter [i]. *)
Inductive Worker :=
| WSequentialQueue (busy : option (@Pc Manager))
| WBackgroundQueue (i : option Z)
| WBackgroundWorker (busy : option (@Pc Manager))
| WExited.

(** [defer j.wg.Done()] *)
Definition wg_Done : @M Manager unit := modify (set_proc (λ P, set_wg (wg P - 1) P)).

(** [executeJob] has returned when its goroutine reaches [PcDone]. *)
Definition after_exec (pc : @Pc Manager) : option Pc :=
  match pc with
  | PcDone => None
  | _ => Some pc
  end.

(** One step of a pump or worker: its next state, the [StartJob]
    goroutines and the workers it starts. In a select the step is the case
    that receives from the lane: a closed lane yields nil and the goroutine
    returns; the case that receives from [quit] is [dstep_quit] below. *)
Definition worker_step (now : Time) (wk : Worker) : M (Worker * list Pc * list Worker) :=
  match wk with
  | WSequentialQueue None =>
      w ← get;
      if chan_closed (sequentialjobs (proc w)) then wg_Done;; mret (WExited, [], [])
      else
        match chan_recv (sequentialjobs (proc w)) with
        | Some (job, c) =>
            modify (set_proc (set_sequentialjobs c));;
            mret (WSequentialQueue (Some (PcExec job)), [], [])
        | None => mret (wk, [], [])
        end
  | WSequentialQueue (Some pc) =>
      '(pc', gs) ← step_pc now pc;
      mret (WSequentialQueue (after_exec pc'), gs, [])
  | WBackgroundQueue None =>
      modify (set_proc (λ P, set_wg (wg P + njobs P) P));;
      mret (WBackgroundQueue (Some 0), [], [])
  | WBackgroundQueue (Some i) =>
      w ← get;
      if decide (i < njobs (proc w)) then
        go GoBackgroundWorker;;
        mret (WBackgroundQueue (Some (int_wrap (i + 1))), [], [WBackgroundWorker None])
      else wg_Done;; mret (WExited, [], [])
  | WBackgroundWorker None =>
      w ← get;
      if chan_closed (backgroundJobs (proc w)) then wg_Done;; mret (WExited, [], [])
      else
        match chan_recv (backgroundJobs (proc w)) with
        | Some (job, c) =>
            modify (set_proc (set_backgroundJobs c));;
            mret (WBackgroundWorker (Some (PcExec job)), [], [])
        | None => mret (wk, [], [])
        end
  | WBackgroundWorker (Some pc) =>
      '(pc', gs) ← step_pc now pc;
      mret (WBackgroundWorker (after_exec pc'), gs, [])
  | WExited => mret (WExited, [], [])
  end.

(** In its select. *)
Definition idle (wk : Worker) : bool :=
  match wk with
  | WSequentialQueue None | WBackgroundWorker None => true
  | _ => false
  end.

(** Started and not returned. *)
Definition live (wk : Worker) : bool :=
  match wk with
  | WExited => false
  | _ => true
  end.

Definition is_sequential_pump (wk : Worker) : bool :=
  match wk with WSequentialQueue _ => true | _ => false end.
Definition is_background_starter (wk : Worker) : bool :=
  match wk with WBackgroundQueue _ => true | _ => false end.
Definition is_background_worker (wk : Worker) : bool :=
  match wk with WBackgroundWorker _ => true | _ => false end.

(** Inside [executeJob], on the one lane or the other. *)
Definition executing_sequential (wk : Worker) : bool :=
  match wk with WSequentialQueue (Some _) => true | _ => false end.
Definition executing_background (wk : Worker) : bool :=
  match wk with WBackgroundWorker (Some _) => true | _ => false end.

(** How many elements of a list pass a test. *)
Fixpoint count {A} (f : A → bool) (l : list A) : nat :=
  match l with
  | [] => 0
  | x :: l' => (if f x then 1 else 0) + count f l'
  end.

(** The sum of a measure over a list. *)
Fixpoint total {A} (f : A → Z) (l : list A) : Z :=
  match l with
  | [] => 0
  | x :: l' => f x + total f l'
  end.

(** The workers a [processBackgroundQueue] with [n] workers to start has
    announced to the WaitGroup and not started yet, and the workers it has
    yet to start. *)
Definition owed (n : Z) (wk : Worker) : Z :=
  match wk with
  | WBackgroundQueue (Some i) => n - i
  | _ => 0
  end.
Definition unstarted (n : Z) (wk : Worker) : Z :=
  match wk with
  | WBackgroundQueue None => n
  | WBackgroundQueue (Some i) => n - i
  | _ => 0
  end.
Definition loop_ok (n : Z) (wk : Worker) : Prop :=
  match wk with
  | WBackgroundQueue (Some i) => 0 ≤ i ≤ n
  | _ => True
  end.

(** How many times [Begin] has started the pump and the workers. *)
Definition begun (w : @World Manager) : nat :=
  count (λ e, match e with EvGo GoSequentialQueue => true | _ => false end) (trace w).

(** The daemon: the world, the goroutines of callers and of [go StartJob],
    and the pump and worker goroutines. *)
Record Daemon := {
  dworld : @World Manager;
  callers : list (@Pc Manager);
  workers : list Worker;
}.

Definition init_daemon (m : Manager) (n : Z) : Daemon :=
  {| dworld := {| proc := NewProcessor NumCPU m n; heap := []; trace := [] |};
     callers := []; workers := [] |}.

(** The goroutines [Begin] starts. *)
Definition Begin_workers (w : @World Manager) : list Worker :=
  if closed (proc w) then [] else [WSequentialQueue None; WBackgroundQueue None].

(** [case <-j.quit: return], with the deferred [wg.Done()]. *)
Definition recv_quit (n : nat) (P : @Processor Manager) : Processor :=
  set_wg (wg P - 1) (set_quit n P).

(** The scheduler of the daemon. Callers may enter [PushJob],
    [PushJobLater], [StartJob], [Begin] and [Close] at any time and may
    make one job wait on another; every goroutine may take its next step;
    a pump or worker in its select may take a quit token. As in [step] the
    lock is not modelled, which only adds runs. *)
Inductive dstep : Daemon → Daemon → Prop :=
| dstep_caller d i pc now pc' gs w' :
    callers d !! i = Some pc →
    step_pc now pc (dworld d) = Ok (pc', gs) w' →
    dstep d {| dworld := w'; callers := <[i:=pc']> (callers d) ++ gs;
               workers := workers d |}
| dstep_worker d i wk now wk' gs ws w' :
    workers d !! i = Some wk →
    worker_step now wk (dworld d) = Ok (wk', gs, ws) w' →
    dstep d {| dworld := w'; callers := callers d ++ gs;
               workers := <[i:=wk']> (workers d) ++ ws |}
| dstep_quit d i wk n :
    workers d !! i = Some wk → idle wk = true →
    quit (proc (dworld d)) = S n →
    dstep d {| dworld := set_proc (recv_quit n) (dworld d); callers := callers d;
               workers := <[i:=WExited]> (workers d) |}
| dstep_push d start task :
    dstep d {| dworld := dworld d; callers := callers d ++ [PcPush start task];
               workers := workers d |}
| dstep_start d job :
    dstep d {| dworld := dworld d; callers := callers d ++ [PcStart job];
               workers := workers d |}
| dstep_begin d w' :
    Begin (dworld d) = Ok tt w' →
    dstep d {| dworld := w'; callers := callers d;
               workers := workers d ++ Begin_workers (dworld d) |}
| dstep_close d w' :
    Close (dworld d) = Ok tt w' →
    dstep d {| dworld := w'; callers := callers d; workers := workers d |}
| dstep_depend d child parent w' :
    add_dependency child parent (dworld d) = Ok tt w' →
    dstep d {| dworld := w'; callers := callers d; workers := workers d |}.

Definition dreachable (d0 d : Daemon) : Prop := rtc dstep d0 d.

(** A run of the daemon, as the choices its scheduler makes. *)
Inductive DChoice :=
| DCaller (i : nat) (now : Time)
| DWorker (i : nat) (now : Time)
| DQuit (i : nat)
| DPush (start : bool) (task : option (@Runnable Manager))
| DStart (job : ptr)
| DBegin
| DClose
| DDepend (child parent : ptr).

Definition drun1 (c : DChoice) (d : Daemon) : option Daemon :=
  match c with
  | DCaller i now =>
      match callers d !! i with
      | Some pc =>
          match step_pc now pc (dworld d) with
          | Ok (pc', gs) w' =>
              Some {| dworld := w'; callers := <[i:=pc']> (callers d) ++ gs;
                      workers := workers d |}
          | Panic _ | Spin => None
          end
      | None => None
      end
  | DWorker i now =>
      match workers d !! i with
      | Some wk =>
          match worker_step now wk (dworld d) with
          | Ok (wk', gs, ws) w' =>
              Some {| dworld := w'; callers := callers d ++ gs;
                      workers := <[i:=wk']> (workers d) ++ ws |}
          | Panic _ | Spin => None
          end
      | None => None
      end
  | DQuit i =>
      match workers d !! i, quit (proc (dworld d)) with
      | Some wk, S n =>
          if idle wk then
            Some {| dworld := set_proc (recv_quit n) (dworld d); callers := callers d;
                    workers := <[i:=WExited]> (workers d) |}
          else None
      | _, _ => None
      end
  | DPush start task =>
      Some {| dworld := dworld d; callers := callers d ++ [PcPush start task];
              workers := workers d |}
  | DStart job =>
      Some {| dworld := dworld d; callers := callers d ++ [PcStart job];
              workers := workers d |}
  | DBegin =>
      match Begin (dworld d) with
      | Ok _ w' =>
          Some {| dworld := w'; callers := callers d;
                  workers := workers d ++ Begin_workers (dworld d) |}
      | Panic _ | Spin => None
      end
  | DClose =>
      match Close (dworld d) with
      | Ok _ w' => Some {| dworld := w'; callers := callers d; workers := workers d |}
      | Panic _ | Spin => None
      end
  | DDepend child parent =>
      match add_dependency child parent (dworld d) with
      | Ok _ w' => Some {| dworld := w'; callers := callers d; workers := workers d |}
      | Panic _ | Spin => None
      end
  end.

Fixpoint drun (cs : list DChoice) (d : Daemon) : option Daemon :=
  match cs with
  | [] => Some d
  | c :: cs' =>
      match drun1 c d with
      | Some d' => drun cs' d'
      | None => None
      end
  end.

(** The steps a goroutine inside [executeJob] has left. *)
Definition exec_left (pc : @Pc Manager) : nat :=
  match pc with
  | PcExec _ => 8
  | PcExecRunning _ => 7
  | PcExecPerform _ => 6
  | PcExecCompleted _ _ => 5
  | PcExecNotify _ _ => 4
  | PcExecGo _ _ _ => 3
  | PcExecPop _ _ => 2
  | PcExecReport _ _ => 1
  | _ => 0
  end.

(** The scheduler lets the goroutine [i] of the pumps and workers take
    [n] steps in a row; [nows] are the clock readings. *)
Definition worker_turns (i n : nat) (nows : nat → Time) : list DChoice :=
  (λ k, DWorker i (nows k)) <$> seq 0 n.

(** What the lifecycle operations read and write, and nothing else does:
    the WaitGroup, the quit tokens, the closed flag, the number of
    workers, whether the lanes are closed, and how often [Begin] started
    the pump. *)
Definition obs (w : @World Manager) : Z * nat * bool * Z * bool * bool * nat :=
  (wg (proc w), quit (proc w), closed (proc w), njobs (proc w),
   chan_closed (sequentialjobs (proc w)), chan_closed (backgroundJobs (proc w)),
   begun w).

(** An operation that leaves all of that alone. *)
Definition keeps {A} (m : @M Manager A) : Prop :=
  ∀ w a w', m w = Ok a w' → obs w' = obs w.

(** The invariant of the daemon: the WaitGroup counts the pump and worker
    goroutines that have not returned and the workers that are announced
    and not started; the lanes are closed and quit tokens are around only
    once the processor is closed; every pump and worker goes back to a
    [Begin]. *)
Definition DInv (d : Daemon) : Prop :=
  let P := proc (dworld d) in
  0 ≤ njobs P ≤ int_max ∧
  wg P = Z.of_nat (count live (workers d)) + total (owed (njobs P)) (workers d) ∧
  Forall (loop_ok (njobs P)) (workers d) ∧
  (if closed P
   then chan_closed (sequentialjobs P) = true ∧ chan_closed (backgroundJobs P) = true ∧
        (quit P ≤ Z.to_nat (njobs P + 1))%nat
   else chan_closed (sequentialjobs P) = false ∧ chan_closed (backgroundJobs P) = false ∧
        quit P = 0%nat) ∧
  (count is_sequential_pump (workers d) ≤ begun (dworld d))%nat ∧
  Z.of_nat (count is_background_worker (workers d)) + total (unstarted (njobs P)) (workers d)
    ≤ njobs P * Z.of_nat (begun (dworld d)).

End Daemon.

(** * The package manager: adding packages to a repository *)

Module manager.
Section Manager.

(** [Env] is what the collaborators of the manager act on: the file system,
    the pool and the table of repositories. [Repository] and [Package] are
    [*Repository] and [*libeopkg.Package], nil included. *)
Context {Env Repository Package : Type}.

(** The code the manager calls and that is not its own: [m.GetRepo],
    [repo.GetDirectory], [libeopkg.Open], [pkg.ReadMetadata], [pkg.Close],
    [m.pool.RefPackage], [filepath.Join] and [os.MkdirAll]; [rootDir] is
    [m.rootDir]. Each call is taken to return. *)
Record Collaborators := {
  rootDir : string;
  GetRepo : string → Env → (Repository * error) * Env;
  GetDirectory : Repository → Env → string * Env;
  libeopkg_Open : string → Env → (Package * error) * Env;
  ReadMetadata : Package → Env → error * Env;
  Package_Close : Package → Env → error * Env;
  RefPackage : Package → Env → error * Env;
  filepath_Join : string → string → string;
  os_MkdirAll : string → Z → Env → error * Env;
}.

(** The calls made, in order. *)
Inductive Call :=
| CGetRepo (name : string)
| CGetDirectory (repo : Repository)
| COpen (path : string)
| CReadMetadata (pkg : Package)
| CRefPackage (pkg : Package)
| CMkdirAll (dir : string) (perm : Z)
| CClose (pkg : Package).

Definition is_CClose (c : Call) : bool :=
  match c with CClose _ => true | _ => false end.

Record State := {
  env : Env;
  calls : list Call;
}.

Definition Op (A : Type) : Type := State → A * State.

Global Instance Op_ret : MRet Op := λ A a s, (a, s).
Global Instance Op_bind : MBind Op := λ A B k m s, k (m s).1 (m s).2.

Definition call {A} (c : Call) (f : Env → A * Env) : Op A := λ s,
  ((f (env s)).1, {| env := (f (env s)).2; calls := calls s ++ [c] |}).

Variable C : Collaborators.

(** [addPackageToRepo(repo, pkg)]; [00755] is octal. *)
Definition addPackageToRepo (repo : Repository) (pkg : Package) : Op error :=
  dir ← call (CGetDirectory repo) (GetDirectory C repo);
  let repoDir := filepath_Join C (rootDir C) dir in
  err ← call (CMkdirAll repoDir 493) (os_MkdirAll C repoDir 493);
  match err with
  | Some e => mret (Some e)
  | None => mret None
  end.

(** [AddPackage(reponame, pkgPath)]. The deferred [pkg.Close()] runs when
    the function returns, after the result has been fixed; what it returns
    is dropped. *)
Definition AddPackage (reponame pkgPath : string) : Op error :=
  got ← call (CGetRepo reponame) (GetRepo C reponame);
  match got.2 with
  | Some e => mret (Some e)
  | None =>
      opened ← call (COpen pkgPath) (libeopkg_Open C pkgPath);
      match opened.2 with
      | Some e => mret (Some e)
      | None =>
          let pkg := opened.1 in
          result ←
            (err ← call (CReadMetadata pkg) (ReadMetadata C pkg);
             match err with
             | Some e => mret (Some e)
             | None =>
                 err ← call (CRefPackage pkg) (RefPackage C pkg);
                 match err with
                 | Some e => mret (Some e)
                 | None =>
                     err ← addPackageToRepo got.1 pkg;
                     match err with
                     | Some e => mret (Some e)
                     | None => mret None
                     end
                 end
             end);
          call (CClose pkg) (Package_Close C pkg);;
          mret result
      end
  end.

(** [AddPackages(repoName, pkgs)] *)
Fixpoint AddPackages (repoName : string) (pkgs : list string) : Op error :=
  match pkgs with
  | [] => mret None
  | pkgPath :: pkgs' =>
      err ← AddPackage repoName pkgPath;
      match err with
      | Some e => mret (Some e)
      | None => AddPackages repoName pkgs'
      end
  end.

End Manager.
End manager.

(** * The server on the unix socket *)

Module server.

(** [UnixSocketPath] *)
Definition UnixSocketPath : string := "./ferryd.sock".

(** [http.ErrServerClosed] *)
Definition ErrServerClosed : string := "http: Server closed".

Section Server.

(** [Env] is what the operating system and the HTTP server keep; a
    [Listener] is a [net.Listener]. *)
Context {Env Listener : Type}.

(** The code the server calls and that is not its own. [http_Serve] is
    [s.srv.Serve(l)], which blocks until the HTTP server stops. Each call
    is taken to return; [http_Shutdown], which is [s.srv.Shutdown(nil)],
    does so when every connection is idle. *)
Record Platform := {
  net_Listen : string → string → Env → (Listener * error) * Env;
  os_Geteuid : Env → Z;
  os_Getegid : Env → Z;
  os_Chown : string → Z → Z → Env → error * Env;
  os_Chmod : string → Z → Env → error * Env;
  http_Serve : Listener → Env → error * Env;
  http_Shutdown : Env → error * Env;
  os_Remove : string → Env → error * Env;
}.

(** The calls made, in order. [CkillHandler] is the call of
    [s.killHandler()], which registers for the interrupt signal and starts
    the goroutine that waits for it; [CWarning] and [CError] are the two
    messages written to standard error. *)
Inductive Syscall :=
| CListen (network address : string)
| CChown (name : string) (uid gid : Z)
| CWarning (e : string)
| CChmod (name : string) (mode : Z)
| CkillHandler
| CServe (l : Listener)
| CShutdown
| CRemove (name : string)
| CError (e : string).

Definition is_teardown (c : Syscall) : bool :=
  match c with CShutdown | CRemove _ => true | _ => false end.

(** The [Server] struct, of which only [running] is state, with the
    environment and the calls made. *)
Record Server := {
  os : Env;
  running : bool;
  syscalls : list Syscall;
}.

Definition SOp (A : Type) : Type := Server → A * Server.

Global Instance SOp_ret : MRet SOp := λ A a s, (a, s).
Global Instance SOp_bind : MBind SOp := λ A B k m s, k (m s).1 (m s).2.

Definition self : SOp Server := λ s, (s, s).
Definition syscall {A} (c : Syscall) (f : Env → A * Env) : SOp A := λ s,
  ((f (os s)).1,
   {| os := (f (os s)).2; running := running s; syscalls := syscalls s ++ [c] |}).
Definition note (c : Syscall) : SOp unit := λ s,
  (tt, {| os := os s; running := running s; syscalls := syscalls s ++ [c] |}).
Definition set_running (b : bool) : SOp unit := λ s,
  (tt, {| os := os s; running := b; syscalls := syscalls s |}).

Variable C : Platform.

(** [New()]: a server that is not bound and not running. *)
Definition New (e : Env) : Server := {| os := e; running := false; syscalls := [] |}.

(** [Serve()]; [0600] is octal. The deferred function clears [running]
    when [Serve] returns, after the result has been fixed. *)
Definition Serve : SOp error :=
  got ← syscall (CListen "unix" UnixSocketPath) (net_Listen C "unix" UnixSocketPath);
  match got.2 with
  | Some e => mret (Some e)
  | None =>
      let l := got.1 in
      s ← self;
      let uid := os_Geteuid C (os s) in
      let gid := os_Getegid C (os s) in
      e ← syscall (CChown UnixSocketPath uid gid) (os_Chown C UnixSocketPath uid gid);
      match e with
      | Some e' => note (CWarning e')
      | None => mret tt
      end;;
      e ← syscall (CChmod UnixSocketPath 384) (os_Chmod C UnixSocketPath 384);
      match e with
      | Some e' => mret (Some e')
      | None =>
          set_running true;;
          note CkillHandler;;
          result ←
            (e ← syscall (CServe l) (http_Serve C l);
             if decide (e ≠ Some ErrServerClosed) then mret e else mret None);
          set_running false;;
          mret result
      end
  end.

(** [Close()] *)
Definition Close : SOp unit :=
  s ← self;
  if negb (running s) then mret tt
  else
    set_running false;;
    syscall CShutdown (http_Shutdown C);;
    syscall (CRemove UnixSocketPath) (os_Remove C UnixSocketPath);;
    mret tt.

(** [mainLoop()], from the state [server.New()] leaves, in a run in which
    no interrupt arrives; the deferred [server.Close()] runs last. *)
Definition mainLoop : SOp unit :=
  e ← Serve;
  match e with
  | Some e' => note (CError e')
  | None => mret tt
  end;;
  Close.

End Server.
End server.

(** ** Sample tasks and worlds *)

(** A sequential task that succeeds and a background task that fails, over
    a manager that holds nothing. *)
Definition ImportTask : @Runnable unit :=
  {| kind := "ImportTask"; IsSequential := true; Perform := λ m, (m, None) |}.
Definition DeltaTask : @Runnable unit :=
  {| kind := "DeltaTask"; IsSequential := false;
     Perform := λ m, (m, Some "delta failed") |}.

(** A processor with two background workers on a four-core machine, as
    [NewProcessor] returns it, and the same processor after [Close]. *)
Definition fresh_world : @World unit :=
  {| proc := NewProcessor 4 tt 2; heap := []; trace := [] |}.
Definition closed_world : @World unit := exec Close fresh_world.

(** A clock reading: 2017-07-14 02:40:00 UTC. *)
Definition T0 : Z := 1500000000000000000.

(** One failing background job, submitted and queued. *)
Definition one_job_world : @World unit := exec (PushJob T0 (Some DeltaTask)) fresh_world.

(** A parent (job 0) that waits on one failing child (job 1). *)
Definition family_world : @World unit :=
  exec (parent ← PushJobLater T0 (Some ImportTask);
        child ← PushJob T0 (Some DeltaTask);
        add_dependency child parent) fresh_world.

(** The same family once a background worker has received the child: no
    send waits on either lane. *)
Definition family_at_work : @World unit :=
  set_proc (set_backgroundJobs make_chan) family_world.

(** An [Init] hook that writes a log record and does nothing else. *)
Definition logging_hook : @M unit unit :=
  modify (emit (EvLog "ImportTask" "Init" "nothing to prepare")).

(** A job is submitted, runs to completion, and a job of the same kind is
    submitted within the same second. *)
Definition reuse_world : @World unit :=
  exec (PushJob T0 (Some ImportTask);;
        executeJob (T0 + 1) (T0 + 2) 0%nat;;
        PushJob (T0 + 3) (Some ImportTask)) fresh_world.

(** A thousand submissions of one kind at one clock reading. *)
Definition thousand_imports : list (bool * Z * @Runnable unit) :=
  replicate 1000 (true, T0, ImportTask).

(** A run of the scheduler: an import is submitted with [PushJob], the
    sequential pump takes it and executes it up to the point where it is
    about to get its terminal status; meanwhile a delta job is submitted
    with [PushJobLater]. *)
Definition sample_choices : list (@Choice unit) :=
  [CallBegin; CallPush true (Some ImportTask);
   RunThread 0 T0; RunThread 0 T0; RunThread 0 T0; RunThread 0 T0;
   RecvSequential;
   CallPush false (Some DeltaTask);
   RunThread 2 (T0 + 10); RunThread 2 T0; RunThread 2 T0;
   RunThread 1 (T0 + 20); RunThread 1 T0; RunThread 1 T0; RunThread 1 (T0 + 30);
   RunThread 1 T0; RunThread 1 T0; RunThread 1 T0].

Definition sample_system : @System unit :=
  default (init_system 4 tt 2) (schedule sample_choices (init_system 4 tt 2)).

(** A run of the daemon: [Begin]; the starter of the background workers
    announces its two workers and starts them; an import and a delta job
    are submitted with [PushJob], the sequential pump and a background
    worker receive them and enter [executeJob]; then [Close]. *)
Definition daemon_choices : list (@DChoice unit) :=
  [DBegin; DWorker 1 T0; DWorker 1 T0; DWorker 1 T0;
   DPush true (Some ImportTask); DCaller 0 T0; DCaller 0 T0; DCaller 0 T0; DCaller 0 T0;
   DWorker 0 T0; DWorker 0 (T0 + 1);
   DPush true (Some DeltaTask); DCaller 1 T0; DCaller 1 T0; DCaller 1 T0; DCaller 1 T0;
   DWorker 2 T0; DWorker 2 (T0 + 2);
   DClose].

Definition sample_daemon : @Daemon unit :=
  default (init_daemon 4 tt 2) (drun daemon_choices (init_daemon 4 tt 2)).

(** The idle background worker takes a quit token; then the starter
    returns and the pump goes on with its job. *)
Definition sample_daemon_quit : @Daemon unit :=
  default sample_daemon (drun1 (DQuit 3) sample_daemon).
Definition sample_daemon_later : @Daemon unit :=
  default sample_daemon (drun [DQuit 3; DWorker 1 T0; DWorker 0 T0] sample_daemon).

(** A manager over a pool that is the list of the packages it holds a
    reference to: the one repository is [unstable], a package file exists
    unless its name ends in [.missing], and the repository directories can
    be made. *)
Definition sample_collaborators : @manager.Collaborators (list string) string string :=
  {| manager.rootDir := "/srv/ferryd";
     manager.GetRepo := λ name e,
       if String.eqb name "unstable" then ((name, None), e)
       else ((name, Some "no such repository"), e);
     manager.GetDirectory := λ repo e, (repo, e);
     manager.libeopkg_Open := λ path e,
       if String.eqb (String.substring (String.length path - 8) 8 path) ".missing"
       then ((path, Some "no such file"), e)
       else ((path, None), e);
     manager.ReadMetadata := λ pkg e, (None, e);
     manager.Package_Close := λ pkg e, (None, e);
     manager.RefPackage := λ pkg e, (None, e ++ [pkg]);
     manager.filepath_Join := λ a b, a +:+ "/" +:+ b;
     manager.os_MkdirAll := λ dir perm e, (None, e) |}.

Definition sample_manager_state : @manager.State (list string) string string :=
  {| manager.env := []; manager.calls := [] |}.

(** The daemon after [Begin] and the [PushJob] of an import: the pump is
    in its select and the import waits on the sequential lane. *)
Definition sample_daemon_queued : @Daemon unit :=
  default (init_daemon 4 tt 2)
    (drun [DBegin; DPush true (Some ImportTask);
           DCaller 0 T0; DCaller 0 T0; DCaller 0 T0; DCaller 0 T0]
          (init_daemon 4 tt 2)).

(** * Properties *)

Section Identity.

(** ** Identity allocation *)

Lemma int_wrap_id (z : Z) : int_min ≤ z ≤ int_max → int_wrap z = z.
Proof.
  unfold int_min, int_max, int_wrap. intros H.
  rewrite Z.mod_small by lia. lia.
Qed.

Lemma Sprintf_id_inj (nom : string) (unix c1 c2 : Z) :
  Sprintf_id nom unix c1 = Sprintf_id nom unix c2 → c1 = c2.
Proof.
  unfold Sprintf_id. intros H.
  do 4 apply (inj (String.app _)) in H.
  by apply (inj pretty) in H.
Qed.

(** Pigeonhole: a run of [n] consecutive counters whose IDs are all taken
    needs a table of at least [n] entries. *)
Lemma taken_le_size (n : nat) (tbl : gmap string ptr) (nom : string) (unix c : Z) :
  (∀ i : nat, (i < n)%nat → is_Some (tbl !! Sprintf_id nom unix (c + Z.of_nat i))) →
  (n ≤ size tbl)%nat.
Proof.
  revert tbl c. induction n as [|n IH]; intros tbl c Htaken; [lia|].
  destruct (Htaken 0%nat) as [v Hv]; [lia|].
  rewrite Z.add_0_r in Hv.
  assert (n ≤ size (delete (Sprintf_id nom unix c) tbl))%nat as Hn.
  { apply (IH _ (c + 1)). intros i Hi.
    rewrite lookup_delete_ne.
    - replace (c + 1 + Z.of_nat i) with (c + Z.of_nat (S i)) by lia. apply Htaken. lia.
    - intros Heq. apply Sprintf_id_inj in Heq. lia. }
  rewrite map_size_delete, Hv in Hn.
  assert (size tbl ≠ 0%nat); [|lia].
  apply map_size_ne_0_lookup_2 with (Sprintf_id nom unix c). by eexists.
Qed.

Lemma initMetadata_loop_spec (fuel : nat) (tbl : gmap string ptr)
    (nom : string) (unix c : Z) :
  0 ≤ c → c + Z.of_nat fuel ≤ 2 ^ 63 →
  match initMetadata_loop fuel tbl nom unix c with
  | Some c' =>
      c ≤ c' < c + Z.of_nat fuel ∧ tbl !! Sprintf_id nom unix c' = None ∧
      ∀ k, c ≤ k < c' → is_Some (tbl !! Sprintf_id nom unix k)
  | None => ∀ k, c ≤ k < c + Z.of_nat fuel → is_Some (tbl !! Sprintf_id nom unix k)
  end.
Proof.
  revert c. induction fuel as [|fuel IH]; intros c Hc Hfuel; cbn [initMetadata_loop].
  { intros k Hk. lia. }
  destruct (tbl !! Sprintf_id nom unix c) as [v|] eqn:Hlook.
  - destruct fuel as [|fuel'].
    { cbn [initMetadata_loop]. intros k Hk. assert (k = c) as -> by lia. by eexists. }
    rewrite int_wrap_id by (unfold int_min, int_max; lia).
    specialize (IH (c + 1) ltac:(lia) ltac:(lia)).
    destruct (initMetadata_loop (S fuel') tbl nom unix (c + 1)) as [c'|].
    + destruct IH as (Hr & Hfree & Hmin). split_and!; [lia..|done|].
      intros k Hk. destruct (decide (k = c)) as [->|]; [by eexists|].
      apply Hmin. lia.
    + intros k Hk. destruct (decide (k = c)) as [->|]; [by eexists|].
      apply IH. lia.
  - split_and!; [lia..|done|]. intros k Hk. lia.
Qed.

(** With a table of fewer than [2^63] entries (what a Go map can hold: its
    length is an [int]) the loop ends, without the counter wrapping
    around, at the least counter whose ID is free. *)
Lemma initMetadata_loop_total (tbl : gmap string ptr) (nom : string) (unix : Z) :
  Z.of_nat (size tbl) < 2 ^ 63 →
  ∃ c, initMetadata_loop (S (size tbl)) tbl nom unix 0 = Some c ∧
       0 ≤ c ≤ Z.of_nat (size tbl) ∧
       tbl !! Sprintf_id nom unix c = None ∧
       ∀ k, 0 ≤ k < c → is_Some (tbl !! Sprintf_id nom unix k).
Proof.
  intros Hsize.
  pose proof (initMetadata_loop_spec (S (size tbl)) tbl nom unix 0) as Hspec.
  destruct (initMetadata_loop (S (size tbl)) tbl nom unix 0) as [c|].
  - destruct Hspec as (Hr & Hfree & Hmin); [lia..|].
    exists c. split_and!; [done|lia..|done|done].
  - exfalso.
    assert (S (size tbl) ≤ size tbl)%nat; [|lia].
    apply (taken_le_size _ _ nom unix 0). intros i Hi.
    apply Hspec; lia.
Qed.

End Identity.

Section Submission.
Context {Manager : Type}.
Implicit Types (w : @World Manager) (j : @Job Manager) (t : @Runnable Manager).

(** ** Running the monad *)

Lemma bind_Ok {A B} (m : M A) (k : A → M B) w a w' :
  m w = Ok a w' → (m ≫= k) w = k a w'.
Proof. unfold mbind, M_bind. by intros ->. Qed.

Lemma bind_assoc {A B C} (m : M A) (k1 : A → M B) (k2 : B → M C) w :
  ((m ≫= k1) ≫= k2) w = (m ≫= (λ a, k1 a ≫= k2)) w.
Proof. unfold mbind, M_bind. by destruct (m w). Qed.

Lemma load_Ok p j w : heap w !! p = Some j → load p w = Ok j w.
Proof. unfold load. by intros ->. Qed.

Lemma store_Ok p f j w :
  heap w !! p = Some j → store p f w = Ok tt (set_heap (λ h, <[p:=f j]> h) w).
Proof. unfold store. intros H. by rewrite (bind_Ok _ _ _ _ _ (load_Ok _ _ _ H)). Qed.

Lemma lookup_insert_Some' (l : list (@Job Manager)) p j x :
  l !! p = Some j → <[p:=x]> l !! p = Some x.
Proof. intros H. apply list_lookup_insert_eq. by eapply lookup_lt_Some. Qed.

Lemma insert_snoc (l : list (@Job Manager)) x y :
  <[length l:=y]> (l ++ [x]) = l ++ [y].
Proof.
  replace (length l) with (length l + 0)%nat at 1 by lia.
  by rewrite insert_app_r.
Qed.

End Submission.

Ltac wsimpl :=
  unfold emit, set_heap, set_proc;
  cbn [heap proc trace world threads released
       job_id job_task job_status job_timing job_parents job_deps
       set_id set_status set_timing set_deps set_parents
       Created Started Completed set_Created set_Started set_Completed].

(** One statement of a monadic program, run on a world in which the jobs it
    dereferences are known. *)
Ltac mstep :=
  wsimpl;
  lazymatch goal with
  | |- ((_ ≫= _) ≫= _) _ = _ => etrans; [apply bind_assoc|]; cbv beta
  | |- (_ ≫= _) _ = _ =>
      etrans;
      [apply bind_Ok;
       first [ reflexivity
             | first [ apply store_Ok | apply load_Ok ]; wsimpl;
               solve [eauto using lookup_insert_Some', list_lookup_middle] ]|];
      cbv beta
  end.

Section Submission2.
Context {Manager : Type}.
Implicit Types (w : @World Manager) (j : @Job Manager) (t : @Runnable Manager).

Lemma initMetadata_Ok now p j c w :
  heap w !! p = Some j →
  initMetadata_loop (S (size (jobTable (proc w)))) (jobTable (proc w))
    (kind (job_task j)) (Unix now) 0 = Some c →
  initMetadata now p w =
    Ok tt {| proc := proc w;
             heap := <[p:=set_id (Sprintf_id (kind (job_task j)) (Unix now) c)
                            (set_status StatusPending
                               (set_timing (set_Created now (job_timing j)) j))]> (heap w);
             trace := trace w ++ [EvCreated p now; EvStatus p StatusPending] |}.
Proof.
  intros Hj Hc. unfold initMetadata, write_status.
  repeat mstep. wsimpl. rewrite Hc.
  erewrite store_Ok by (wsimpl; eauto using lookup_insert_Some').
  wsimpl. by rewrite !list_insert_insert_eq, <-!(assoc_L (++)).
Qed.

Lemma pushJobInternal_Ok now t c w :
  initMetadata_loop (S (size (jobTable (proc w)))) (jobTable (proc w))
    (kind t) (Unix now) 0 = Some c →
  pushJobInternal now (Some t) w = Ok (length (heap w)) (pushed now t c w).
Proof.
  intros Hc. unfold pushJobInternal, alloc.
  repeat mstep.
  etrans; [apply bind_Ok; apply initMetadata_Ok with (j := Job_init (new_Job t)) (c := c);
           [apply list_lookup_middle; done|done]|]; cbv beta.
  repeat mstep. unfold pushed. wsimpl.
  destruct (closed (proc w)); [by rewrite insert_snoc, <-(assoc_L (++))|].
  repeat mstep. wsimpl. by rewrite insert_snoc, <-(assoc_L (++)).
Qed.

End Submission2.

Section SubmissionClaims.
Context {Manager : Type}.
Implicit Types (w : @World Manager) (j : @Job Manager) (t : @Runnable Manager).

Lemma pushJobInternal_total now t w :
  Z.of_nat (size (jobTable (proc w))) < 2 ^ 63 →
  ∃ c, pushJobInternal now (Some t) w = Ok (length (heap w)) (pushed now t c w) ∧
       0 ≤ c ≤ Z.of_nat (size (jobTable (proc w))) ∧
       jobTable (proc w) !! Sprintf_id (kind t) (Unix now) c = None ∧
       ∀ k, 0 ≤ k < c → is_Some (jobTable (proc w) !! Sprintf_id (kind t) (Unix now) k).
Proof.
  intros Hsize.
  destruct (initMetadata_loop_total (jobTable (proc w)) (kind t) (Unix now) Hsize)
    as (c & Hc & Hr & Hfree & Hmin).
  exists c. split_and!; [by apply pushJobInternal_Ok|lia..|done|done].
Qed.

Lemma StartJob_Ok job j w :
  heap w !! job = Some j →
  StartJob job w =
    Ok tt (if closed (proc w) then w else set_proc (enqueued job (job_task j)) w).
Proof.
  intros Hj. unfold StartJob. mstep.
  destruct (closed (proc w)); [done|].
  mstep. unfold enqueued. by destruct (IsSequential (job_task j)).
Qed.

Lemma StartJob_closed job w : closed (proc w) = true → StartJob job w = Ok tt w.
Proof. intros Hc. unfold StartJob. mstep. by rewrite Hc. Qed.

Lemma heap_pushed now t c w :
  heap (pushed now t c w) !! length (heap w) = Some (created_job now t c).
Proof. unfold pushed. wsimpl. by apply list_lookup_middle. Qed.

Lemma closed_pushed now t c w : closed (proc (pushed now t c w)) = closed (proc w).
Proof. unfold pushed. wsimpl. by destruct (closed (proc w)) eqn:H. Qed.

Lemma PushJob_Ok now t c w :
  initMetadata_loop (S (size (jobTable (proc w)))) (jobTable (proc w))
    (kind t) (Unix now) 0 = Some c →
  PushJob now (Some t) w =
    Ok (length (heap w))
       (if closed (proc w) then pushed now t c w
        else set_proc (enqueued (length (heap w)) t) (pushed now t c w)).
Proof.
  intros Hc. unfold PushJob.
  etrans; [apply bind_Ok; by apply pushJobInternal_Ok|]; cbv beta.
  etrans; [apply bind_Ok; apply StartJob_Ok, heap_pushed|]; cbv beta.
  rewrite closed_pushed. by destruct (closed (proc w)).
Qed.

(** C7: a nil task makes [PushJob] and [PushJobLater] panic with
    "passed nil job!", whatever the state of the processor: no job is
    returned and no world either. *)
Theorem push_nil_panics now w :
  PushJob now None w = Panic "passed nil job!" ∧
  PushJobLater now None w = Panic "passed nil job!".
Proof. split; reflexivity. Qed.

(** C6: [PushJob] is [PushJobLater] immediately followed by [StartJob] on
    the job it returned: on every task (nil or not) and in every world the
    two give the same outcome, that is the same job, the same job table and
    heap, the same lanes and the same trace. *)
Theorem PushJob_is_PushJobLater_then_StartJob now (task : option (@Runnable Manager)) w :
  PushJob now task w = PushJobLater_then_StartJob now task w.
Proof. reflexivity. Qed.

(** C8: the ID given to a new job is [<kind>-<unix seconds>-<counter>],
    where [counter] is the least natural number whose ID is not a key of the
    live job table when the ID is generated. *)
Theorem job_id_least_free_counter now t w :
  Z.of_nat (size (jobTable (proc w))) < 2 ^ 63 →
  ∃ job w' j counter,
    pushJobInternal now (Some t) w = Ok job w' ∧
    heap w' !! job = Some j ∧
    job_id j = kind t +:+ "-" +:+ pretty (Unix now) +:+ "-" +:+ pretty counter ∧
    0 ≤ counter ∧
    jobTable (proc w) !! job_id j = None ∧
    ∀ k, 0 ≤ k < counter →
      is_Some (jobTable (proc w) !! Sprintf_id (kind t) (Unix now) k).
Proof.
  intros Hsize.
  destruct (pushJobInternal_total now t w Hsize) as (c & Hpush & Hr & Hfree & Hmin).
  exists (length (heap w)), (pushed now t c w), (created_job now t c), c.
  split_and!; [done|apply heap_pushed|reflexivity|lia|exact Hfree|exact Hmin].
Qed.

(** With a hook that does nothing and no send waiting, the submission with
    the caller's side written out is [pushJobInternal]. *)
Lemma Submit_pushJobInternal_plain now t w :
  sendq (sequentialjobs (proc w)) = [] →
  sendq (backgroundJobs (proc w)) = [] →
  Z.of_nat (size (jobTable (proc w))) < 2 ^ 63 →
  Submit.pushJobInternal (mret tt) now (Submit.TaskPointer t) w
  = pushJobInternal now (Some t) w.
Proof.
  intros Hs Hb Hsize.
  destruct (initMetadata_loop_total (jobTable (proc w)) (kind t) (Unix now) Hsize)
    as (c' & Hc' & _).
  rewrite (pushJobInternal_Ok now t c' w Hc').
  unfold Submit.pushJobInternal, alloc. repeat mstep.
  etrans; [apply bind_Ok;
           apply initMetadata_Ok with (j := Job_init (new_Job t)) (c := c');
           [apply list_lookup_middle; done|done]|]; cbv beta.
  repeat mstep.
  etrans; [apply bind_Ok|]; cbv beta.
  { unfold Submit.Lock. wsimpl. by rewrite Hs, Hb. }
  mstep. unfold pushed. wsimpl.
  destruct (closed (proc w)); [by rewrite insert_snoc, <-(assoc_L (++))|].
  repeat mstep. wsimpl. by rewrite insert_snoc, <-(assoc_L (++)).
Qed.

(** The submission with the caller's side written out, on a processor that
    is not closed, when the write lock is free and the hook is a quiet
    one. *)
Lemma Submit_pushJobInternal_Ok hook now t c w w3 :
  closed (proc w) = false →
  sendq (sequentialjobs (proc w)) = [] →
  sendq (backgroundJobs (proc w)) = [] →
  initMetadata_loop (S (size (jobTable (proc w)))) (jobTable (proc w))
    (kind t) (Unix now) 0 = Some c →
  hook {| proc := proc w; heap := heap w ++ [created_job now t c];
          trace := trace w ++ [EvCreated (length (heap w)) now;
                               EvStatus (length (heap w)) StatusPending;
                               EvInit (length (heap w))] |} = Ok tt w3 →
  heap w3 = heap w ++ [created_job now t c] →
  sequentialjobs (proc w3) = sequentialjobs (proc w) →
  backgroundJobs (proc w3) = backgroundJobs (proc w) →
  closed (proc w3) = closed (proc w) →
  Submit.pushJobInternal hook now (Submit.TaskPointer t) w =
    Ok (length (heap w))
       (set_proc (λ P, set_jobTable (<[job_id (created_job now t c):=length (heap w)]>
                                       (jobTable P)) P) w3).
Proof.
  intros Hopen Hs Hb Hc Hrun Hheap Hseq Hbg Hcl.
  assert (heap w3 !! length (heap w) = Some (created_job now t c)) as Hjob.
  { rewrite Hheap. by apply list_lookup_middle. }
  unfold Submit.pushJobInternal, alloc. repeat mstep.
  etrans; [apply bind_Ok;
           apply initMetadata_Ok with (j := Job_init (new_Job t)) (c := c);
           [apply list_lookup_middle; done|done]|]; cbv beta.
  mstep. wsimpl. rewrite insert_snoc, <-(assoc_L (++)).
  etrans; [apply bind_Ok; exact Hrun|]; cbv beta.
  etrans; [apply bind_Ok|]; cbv beta.
  { unfold Submit.Lock. wsimpl. by rewrite Hseq, Hbg, Hs, Hb. }
  mstep. rewrite Hcl, Hopen. by repeat mstep.
Qed.

(** C5, amended: on a processor that is not closed and while no send waits
    on a lane, [PushJobLater] of a task that is a pointer, with an [Init]
    hook that leaves the jobs, the job table, the lanes and the closed flag
    alone, makes a new job around the task, gives it an ID that is free in
    the job table, the creation time and the status Pending, stores it in
    the job table under its ID, returns it, and leaves both lanes as they
    were. *)
Theorem PushJobLater_registers hook now t w :
  closed (proc w) = false →
  Z.of_nat (size (jobTable (proc w))) < 2 ^ 63 →
  sendq (sequentialjobs (proc w)) = [] →
  sendq (backgroundJobs (proc w)) = [] →
  Submit.leaves_alone hook →
  ∃ job w' j,
    Submit.PushJobLater hook now (Submit.TaskPointer t) w = Ok job w' ∧
    heap w !! job = None ∧
    heap w' !! job = Some j ∧
    job_task j = t ∧
    (∃ counter, job_id j = Sprintf_id (kind t) (Unix now) counter) ∧
    Created (job_timing j) = Some now ∧
    job_status j = StatusPending ∧
    jobTable (proc w) !! job_id j = None ∧
    jobTable (proc w') = <[job_id j:=job]> (jobTable (proc w)) ∧
    sequentialjobs (proc w') = sequentialjobs (proc w) ∧
    backgroundJobs (proc w') = backgroundJobs (proc w).
Proof.
  intros Hopen Hsize Hs Hb Hhook.
  destruct (initMetadata_loop_total (jobTable (proc w)) (kind t) (Unix now) Hsize)
    as (c & Hc & _ & Hfree & _).
  destruct (Hhook {| proc := proc w; heap := heap w ++ [created_job now t c];
                     trace := trace w ++ [EvCreated (length (heap w)) now;
                                          EvStatus (length (heap w)) StatusPending;
                                          EvInit (length (heap w))] |})
    as (w3 & Hrun & Hheap & Htbl & Hseq & Hbg & Hcl).
  cbn [proc heap] in Hheap, Htbl, Hseq, Hbg, Hcl.
  eexists _, _, (created_job now t c).
  split; [by apply (Submit_pushJobInternal_Ok hook now t c w w3)|].
  wsimpl. cbn. rewrite Hheap, Htbl.
  split_and!; try done.
  - by apply lookup_ge_None_2.
  - by apply list_lookup_middle.
  - by exists c.
Qed.

(** C10: on a closed processor, [PushJob] and [PushJobLater] of a task
    still make the job, call the task's [Init] hook once and return the job
    with its ID, its creation time and the status Pending; the processor,
    hence the job table and both lanes, is left as it was. *)
Theorem push_on_closed now t w :
  closed (proc w) = true →
  Z.of_nat (size (jobTable (proc w))) < 2 ^ 63 →
  ∃ job w' j,
    PushJobLater now (Some t) w = Ok job w' ∧
    PushJob now (Some t) w = Ok job w' ∧
    trace w' = trace w ++ [EvCreated job now; EvStatus job StatusPending; EvInit job] ∧
    heap w' = heap w ++ [j] ∧
    heap w' !! job = Some j ∧
    job_task j = t ∧
    (∃ counter, job_id j = Sprintf_id (kind t) (Unix now) counter) ∧
    Created (job_timing j) = Some now ∧
    job_status j = StatusPending ∧
    jobTable (proc w') = jobTable (proc w) ∧
    sequentialjobs (proc w') = sequentialjobs (proc w) ∧
    backgroundJobs (proc w') = backgroundJobs (proc w).
Proof.
  intros Hclosed Hsize.
  destruct (initMetadata_loop_total (jobTable (proc w)) (kind t) (Unix now) Hsize)
    as (c & Hc & _).
  exists (length (heap w)), (pushed now t c w), (created_job now t c).
  split_and!; try done.
  - by apply pushJobInternal_Ok.
  - rewrite (PushJob_Ok now t c w Hc). by rewrite Hclosed.
  - apply heap_pushed.
  - by exists c.
  - unfold pushed. wsimpl. by rewrite Hclosed.
  - unfold pushed. wsimpl. by rewrite Hclosed.
  - unfold pushed. wsimpl. by rewrite Hclosed.
Qed.

End SubmissionClaims.

Section Execution.
Context {Manager : Type}.
Implicit Types (w : @World Manager) (j : @Job Manager) (t : @Runnable Manager)
  (h : list (@Job Manager)).

(** ** Notification *)

Global Instance same_but_deps_refl : Reflexive (@same_but_deps Manager).
Proof. by intros j. Qed.
Global Instance same_but_deps_trans : Transitive (@same_but_deps Manager).
Proof. intros a b c (?&?&?&?&?) (?&?&?&?&?). repeat split; congruence. Qed.

Lemma same_but_deps_set_deps n j : same_but_deps j (set_deps n j).
Proof. by repeat split. Qed.

Lemma notify_parents_same ps h :
  Forall2 same_but_deps h (notify_parents ps h).2.
Proof.
  revert h. induction ps as [|q ps IH]; intros h; cbn [notify_parents]; [done|].
  destruct (h !! q) as [pj|] eqn:Hq; [|done].
  specialize (IH (<[q:=set_deps (Nat.pred (job_deps pj)) pj]> h)).
  destruct (notify_parents ps _) as [r h'] eqn:Hnp. simpl in *.
  etrans; [|exact IH].
  rewrite <-(list_insert_id h q pj) at 1 by done.
  apply Forall2_insert; [done|apply same_but_deps_set_deps].
Qed.

Lemma notify_parents_lookup ps h p j :
  h !! p = Some j →
  ∃ j', (notify_parents ps h).2 !! p = Some j' ∧ same_but_deps j j'.
Proof.
  intros Hp. pose proof (notify_parents_same ps h) as Hsame.
  destruct (Forall2_lookup_l _ _ _ _ _ Hsame Hp) as (j' & ? & ?). eauto.
Qed.


(** The parents that are unblocked depend on the counts of outstanding
    children only. *)
Lemma notify_parents_deps ps h1 h2 :
  Forall2 (λ a b, job_deps a = job_deps b) h1 h2 →
  (notify_parents ps h1).1 = (notify_parents ps h2).1 ∧
  Forall2 (λ a b, job_deps a = job_deps b) (notify_parents ps h1).2 (notify_parents ps h2).2.
Proof.
  revert h1 h2. induction ps as [|q ps IH]; intros h1 h2 Hh; cbn [notify_parents]; [done|].
  destruct (h1 !! q) as [p1|] eqn:H1.
  - destruct (Forall2_lookup_l _ _ _ _ _ Hh H1) as (p2 & H2 & Hdeps).
    rewrite H2.
    specialize (IH (<[q:=set_deps (Nat.pred (job_deps p1)) p1]> h1)
                   (<[q:=set_deps (Nat.pred (job_deps p2)) p2]> h2)).
    destruct IH as [IH1 IH2]; [by apply Forall2_insert; [|simpl; congruence]|].
    destruct (notify_parents ps (<[q:=_]> h1)) as [r1 h1'].
    destruct (notify_parents ps (<[q:=_]> h2)) as [r2 h2'].
    simpl in *. rewrite Hdeps, IH1. done.
  - assert (h2 !! q = None) as ->; [|by apply IH].
    apply lookup_ge_None. rewrite <-(Forall2_length _ _ _ Hh).
    by apply lookup_ge_None.
Qed.

Lemma NotifyDone_Ok job j w :
  heap w !! job = Some j →
  NotifyDone job w =
    Ok (unblocked j (heap w))
       (set_heap (λ _, (notify_parents (job_parents j) (heap w)).2) w).
Proof.
  intros Hj. unfold NotifyDone, unblocked. do 2 mstep.
  by destruct (notify_parents (job_parents j) (heap w)).
Qed.

Lemma for_range_go ps w :
  for_range (λ p, go (GoStartJob p)) ps w =
    Ok tt {| proc := proc w; heap := heap w;
             trace := trace w ++ (EvGo ∘ GoStartJob <$> ps) |}.
Proof.
  revert w. induction ps as [|p ps IH]; intros w; simpl.
  - unfold mret, M_ret. rewrite app_nil_r. by destruct w.
  - unfold go at 1. mstep. rewrite IH. wsimpl. by rewrite <-(assoc_L (++)).
Qed.

Lemma popJob_Ok job j w :
  heap w !! job = Some j →
  popJob job w =
    Ok tt (set_proc (λ P, set_jobTable (delete (job_id j) (jobTable P)) P) w).
Proof. intros Hj. unfold popJob. by mstep. Qed.

Lemma spawned_app (evs1 evs2 : list Event) :
  spawned (evs1 ++ evs2) = spawned evs1 ++ spawned evs2.
Proof. apply omap_app. Qed.

Lemma spawned_go (ps : list ptr) :
  spawned (EvGo ∘ GoStartJob <$> ps) = GoStartJob <$> ps.
Proof. induction ps as [|p ps IH]; simpl; [done|]. by f_equal. Qed.

End Execution.

Section ExecutionClaims.
Context {Manager : Type}.
Implicit Types (w : @World Manager) (j : @Job Manager) (t : @Runnable Manager)
  (h : list (@Job Manager)).

Lemma executeJob_Ok started completed job j w :
  heap w !! job = Some j →
  let m := (Perform (job_task j) (manager (proc w))).1 in
  let err := (Perform (job_task j) (manager (proc w))).2 in
  let j2 := completed_job started completed j in
  let h2 := <[job:=j2]> (heap w) in
  let h3 := (notify_parents (job_parents j) h2).2 in
  ∃ j3,
    h3 !! job = Some j3 ∧ same_but_deps j2 j3 ∧
    executeJob started completed job w =
      Ok tt
        {| proc := set_jobTable (delete (job_id j) (jobTable (proc w)))
                     (set_manager m (proc w));
           heap := <[job:=set_status (final_status err) j3]> h3;
           trace :=
             trace w ++
             [EvStarted job started; EvStatus job StatusRunning;
              EvPerform job err; EvCompleted job completed] ++
             (EvGo ∘ GoStartJob <$> unblocked j2 h2) ++
             EvStatus job (final_status err) ::
             match err with
             | Some e => [EvLog (job_id j) (kind (job_task j)) e]
             | None => []
             end |}.
Proof.
  intros Hj m err j2 h2 h3.
  destruct (notify_parents_lookup (job_parents j) h2 job j2) as (j3 & Hj3 & Hsame).
  { by eapply lookup_insert_Some'. }
  exists j3. split_and!; [done..|].
  unfold executeJob, write_status. repeat mstep. wsimpl.
  subst m err. destruct (Perform (job_task j) (manager (proc w))) as [m err].
  cbn [fst snd]. repeat mstep. wsimpl.
  rewrite !list_insert_insert_eq.
  change (<[job:=_]> (heap w)) with h2.
  etrans; [apply bind_Ok, NotifyDone_Ok with (j := j2); by eapply lookup_insert_Some'|].
  cbv beta. wsimpl.
  etrans; [apply bind_Ok, for_range_go|]. cbv beta. wsimpl.
  etrans; [apply bind_Ok, popJob_Ok with (j := j3); exact Hj3|]. cbv beta. wsimpl.
  destruct Hsame as (Hid & Htask & _). cbn in Hid, Htask.
  destruct err as [e|]; unfold reportError, write_status; cbn [final_status].
  - repeat mstep. unfold modify. wsimpl.
    by rewrite <-Hid, <-Htask, <-!(assoc_L (++)).
  - repeat mstep. unfold modify. wsimpl.
    by rewrite <-Hid, <-!(assoc_L (++)).
Qed.

(** C1: when [executeJob] returns, the job's status is Failed if [Perform]
    returned an error and Success if it returned nil. Of all the status
    writes of the execution that one is the only terminal one, it is the
    last write to the job, and the [Completed] time is written before it. *)
Theorem executeJob_sets_terminal_status_once started completed job j w :
  heap w !! job = Some j →
  ∃ w' j' evs1 evs2 evs3,
    executeJob started completed job w = Ok tt w' ∧
    heap w' !! job = Some j' ∧
    job_status j' = final_status (Perform (job_task j) (manager (proc w))).2 ∧
    Completed (job_timing j') = Some completed ∧
    trace w' =
      trace w ++ evs1 ++ [EvCompleted job completed] ++ evs2 ++
      [EvStatus job (job_status j')] ++ evs3 ∧
    terminal (job_status j') = true ∧
    (∀ q s, EvStatus q s ∈ evs1 ++ evs2 ++ evs3 → terminal s = false) ∧
    (∀ q tm, EvCompleted q tm ∉ evs1 ++ evs2 ++ evs3).
Proof.
  intros Hj.
  destruct (executeJob_Ok started completed job j w Hj) as (j3 & Hj3 & Hsame & Hexec).
  cbv zeta in Hexec.
  set (err := (Perform (job_task j) (manager (proc w))).2) in *.
  set (j2 := completed_job started completed j) in *.
  set (h2 := <[job:=j2]> (heap w)) in *.
  eexists _, (set_status (final_status err) j3),
    [EvStarted job started; EvStatus job StatusRunning; EvPerform job err],
    (EvGo ∘ GoStartJob <$> unblocked j2 h2),
    (match err with
     | Some e => [EvLog (job_id j) (kind (job_task j)) e]
     | None => []
     end).
  split; [exact Hexec|]. wsimpl.
  destruct Hsame as (_ & _ & _ & Htiming & _).
  split_and!.
  - by eapply lookup_insert_Some'.
  - done.
  - by rewrite <-Htiming.
  - done.
  - by destruct err.
  - intros q s. rewrite !elem_of_app, list_elem_of_fmap.
    intros [Hin|[(p & Heq & _)|Hin]]; [|done|].
    + rewrite !elem_of_cons, elem_of_nil in Hin.
      destruct Hin as [Hin|[Hin|[Hin|[]]]]; inversion Hin; by subst.
    + destruct err; rewrite ?elem_of_cons, elem_of_nil in Hin; [|done].
      destruct Hin as [Hin|[]]; inversion Hin.
  - intros q tm. rewrite !elem_of_app, list_elem_of_fmap.
    intros [Hin|[(p & Heq & _)|Hin]]; [|done|].
    + rewrite !elem_of_cons, elem_of_nil in Hin.
      destruct Hin as [Hin|[Hin|[Hin|[]]]]; inversion Hin; by subst.
    + destruct err; rewrite ?elem_of_cons, elem_of_nil in Hin; [|done].
      destruct Hin as [Hin|[]]; inversion Hin.
Qed.

End ExecutionClaims.

Section Lifecycle.
Context {Manager : Type}.
Implicit Types (w : @World Manager) (j : @Job Manager) (t : @Runnable Manager)
  (h : list (@Job Manager)).

Lemma Begin_Ok w :
  Begin w =
    Ok tt (if closed (proc w) then w
           else {| proc := set_wg (wg (proc w) + 2) (proc w); heap := heap w;
                   trace := trace w ++ [EvGo GoSequentialQueue; EvGo GoBackgroundQueue] |}).
Proof.
  unfold Begin, go. mstep. destruct (closed (proc w)); [done|].
  repeat mstep. unfold modify. wsimpl. by rewrite <-(assoc_L (++)).
Qed.

(** C4, amended: [Begin] on a closed processor does nothing. On a processor
    that is not closed every call of [Begin], the first or a later one, adds
    two to the WaitGroup and starts a sequential pump and a goroutine that
    starts the background workers. *)
Theorem Begin_starts_pumps_unless_closed w :
  ∃ w', Begin w = Ok tt w' ∧
    if closed (proc w) then w' = w
    else
      proc w' = set_wg (wg (proc w) + 2) (proc w) ∧
      heap w' = heap w ∧
      trace w' = trace w ++ [EvGo GoSequentialQueue; EvGo GoBackgroundQueue].
Proof.
  eexists. split; [apply Begin_Ok|]. by destruct (closed (proc w)).
Qed.

(** ** Consecutive submissions *)

Lemma submit_all_spec (reqs : list (bool * Z * @Runnable Manager)) w :
  closed (proc w) = false →
  Z.of_nat (size (jobTable (proc w))) + Z.of_nat (length reqs) ≤ 2 ^ 63 →
  ∃ news w',
    submit_all reqs w = Ok (seq (length (heap w)) (length reqs)) w' ∧
    heap w' = heap w ++ news ∧
    length news = length reqs ∧
    NoDup (job_id <$> news) ∧
    (∀ id, id ∈ job_id <$> news → jobTable (proc w) !! id = None) ∧
    (∀ id, is_Some (jobTable (proc w) !! id) → is_Some (jobTable (proc w') !! id)).
Proof.
  revert w. induction reqs as [|[[start now] t] reqs IH]; intros w Hopen Hsize.
  { exists [], w. rewrite app_nil_r. split_and!; try done.
    - constructor.
    - intros id Hin. by apply elem_of_nil in Hin. }
  cbn [length] in Hsize.
  destruct (initMetadata_loop_total (jobTable (proc w)) (kind t) (Unix now))
    as (c & Hc & _ & Hfree & _); [lia|].
  set (w1 := if start then set_proc (enqueued (length (heap w)) t) (pushed now t c w)
             else pushed now t c w).
  assert ((if start then PushJob now (Some t) else PushJobLater now (Some t)) w
          = Ok (length (heap w)) w1) as Hpush.
  { subst w1. destruct start.
    - rewrite (PushJob_Ok now t c w Hc). by rewrite Hopen.
    - by apply pushJobInternal_Ok. }
  assert (heap w1 = heap w ++ [created_job now t c]) as Hheap1.
  { subst w1. by destruct start. }
  assert (jobTable (proc w1) =
          <[Sprintf_id (kind t) (Unix now) c:=length (heap w)]> (jobTable (proc w)))
    as Htable1.
  { subst w1. unfold pushed, enqueued. destruct start; wsimpl; rewrite Hopen; [|done].
    by destruct (IsSequential t). }
  assert (closed (proc w1) = false) as Hopen1.
  { subst w1. unfold pushed, enqueued. destruct start; wsimpl; rewrite Hopen; [|done].
    by destruct (IsSequential t). }
  destruct (IH w1 Hopen1) as (news & w' & Hsub & Hheap & Hlen & Hnodup & Hfresh & Hmono).
  { rewrite Htable1, map_size_insert_None by done. lia. }
  exists (created_job now t c :: news), w'.
  split_and!.
  - cbn [submit_all length seq].
    etrans; [apply bind_Ok, Hpush|]; cbv beta.
    etrans; [apply bind_Ok; rewrite Hsub, Hheap1, length_app; cbn [length];
             rewrite Nat.add_1_r; reflexivity|].
    done.
  - by rewrite Hheap, Hheap1, <-(assoc_L (++)).
  - cbn [length]. by rewrite Hlen.
  - cbn [fmap list_fmap]. constructor; [|done].
    intros Hin. specialize (Hfresh _ Hin).
    rewrite Htable1 in Hfresh. cbn [job_id created_job] in Hfresh.
    by rewrite lookup_insert_eq in Hfresh.
  - intros id Hin. cbn [fmap list_fmap] in Hin.
    apply elem_of_cons in Hin as [->|Hin]; [done|].
    specialize (Hfresh _ Hin). rewrite Htable1 in Hfresh.
    destruct (decide (Sprintf_id (kind t) (Unix now) c = id)) as [<-|Hne].
    + by rewrite lookup_insert_eq in Hfresh.
    + by rewrite lookup_insert_ne in Hfresh.
  - intros id Hid. apply Hmono. rewrite Htable1.
    destruct (decide (Sprintf_id (kind t) (Unix now) c = id)) as [<-|Hne].
    + rewrite lookup_insert_eq. by eexists.
    + by rewrite lookup_insert_ne.
Qed.

(** C3, amended: jobs submitted one after the other to a processor that is
    not closed, with no job completing in between, get pairwise distinct
    IDs, none of them an ID of the job table they started from; this holds
    for any number of jobs of any kinds and clock readings, a thousand jobs
    of one kind within one second included. *)
Theorem consecutive_submissions_get_distinct_ids
    (reqs : list (bool * Z * @Runnable Manager)) w :
  closed (proc w) = false →
  Z.of_nat (size (jobTable (proc w))) + Z.of_nat (length reqs) ≤ 2 ^ 63 →
  ∃ jobs w',
    submit_all reqs w = Ok jobs w' ∧
    length jobs = length reqs ∧
    (∀ i p, jobs !! i = Some p →
       ∃ j, heap w' !! p = Some j ∧ jobTable (proc w) !! job_id j = None) ∧
    (∀ i i' p p' j j',
       jobs !! i = Some p → jobs !! i' = Some p' → i ≠ i' →
       heap w' !! p = Some j → heap w' !! p' = Some j' →
       p ≠ p' ∧ job_id j ≠ job_id j').
Proof.
  intros Hopen Hsize.
  destruct (submit_all_spec reqs w Hopen Hsize)
    as (news & w' & Hsub & Hheap & Hlen & Hnodup & Hfresh & _).
  exists (seq (length (heap w)) (length reqs)), w'.
  assert (∀ i p, seq (length (heap w)) (length reqs) !! i = Some p →
            p = (length (heap w) + i)%nat ∧ heap w' !! p = news !! i) as Hseq.
  { intros i p Hi. apply lookup_seq in Hi as [-> Hlt]. split; [done|].
    rewrite Hheap, lookup_app_r by lia. f_equal. lia. }
  split_and!.
  - done.
  - by rewrite length_seq.
  - intros i p Hi. destruct (Hseq i p Hi) as [-> Hp].
    apply lookup_seq in Hi as [_ Hlt].
    destruct (lookup_lt_is_Some_2 news i) as [j Hj]; [lia|].
    exists j. split; [by rewrite Hp|].
    apply Hfresh, list_elem_of_fmap. exists j. split; [done|].
    by eapply list_elem_of_lookup_2.
  - intros i i' p p' j j' Hi Hi' Hne Hj Hj'.
    destruct (Hseq i p Hi) as [-> Hp]. destruct (Hseq i' p' Hi') as [-> Hp'].
    split; [lia|]. intros Heq.
    rewrite Hp in Hj. rewrite Hp' in Hj'.
    apply Hne. eapply NoDup_lookup; [exact Hnodup| |].
    + by rewrite list_lookup_fmap, Hj.
    + by rewrite list_lookup_fmap, Hj', Heq.
Qed.

End Lifecycle.

Section Scheduler.
Context {Manager : Type}.
Implicit Types (w : @World Manager) (j : @Job Manager) (t : @Runnable Manager)
  (h : list (@Job Manager)) (s : @System Manager) (pc : @Pc Manager)
  (rel : gset nat).

(** ** Frames *)

Lemma in_table_frame rel w w' p : frame rel w w' → in_table w' p → in_table w p.
Proof. intros (Ft & _) [k Hk]. exists k. by eapply lookup_weaken. Qed.

Lemma world_ok_frame rel w w' : world_ok w rel → frame rel w w' → world_ok w' rel.
Proof.
  intros (Htab & Hval & Hseq & Hbg & Hpar) (Ft & Fl & Fo & Fp & Fs & Fb).
  split_and!.
  - intros k p Hk. eapply lookup_weaken in Hk; [|exact Ft].
    destruct (Htab k p Hk) as (j & Hj & Hid & Hst).
    destruct (Fo p j Hj) as (j' & Hj' & Hid' & Hst').
    exists j'. split_and!; [done|congruence|].
    destruct Hst' as [->|[_ [?|Hnot]]]; [done..|]. destruct Hnot. by exists k.
  - intros p Hp. specialize (Hval p Hp). lia.
  - intros p Hp. destruct (Fs p Hp); auto.
  - intros p Hp. destruct (Fb p Hp); auto.
  - intros q j' p Hq Hp. destruct (Fp q j' p Hq Hp) as [?|(j & Hj & Hin)]; [done|].
    eauto.
Qed.

Lemma pc_ok_frame rel w w' pc : pc_ok w rel pc → frame rel w w' → pc_ok w' rel pc.
Proof.
  intros (Hpriv & Hpub & Hrep) F. split_and!.
  - intros p Hp. destruct (Hpriv p Hp) as (Hnot & j & Hj & Hst). split; [done|].
    destruct F as (_ & _ & Fo & _). destruct (Fo p j Hj) as (j' & Hj' & _ & Hst').
    exists j'. split; [done|]. destruct Hst' as [->|[Hin _]]; done.
  - done.
  - intros p err Heq Hin. eapply Hrep; [done|]. by eapply in_table_frame.
Qed.

Global Instance quiet_refl rel : Reflexive (@quiet Manager rel).
Proof. intros j. split_and!; auto. Qed.

Global Instance quiet_trans rel : Transitive (@quiet Manager rel).
Proof.
  intros a b c (Hid & Hst & Hp) (Hid' & Hst' & Hp'). split_and!; [congruence..|].
  intros q Hq. destruct (Hp' q Hq) as [?|Hq']; auto.
Qed.

(** A step that leaves IDs and statuses alone. *)
Lemma frame_quiet rel w w' :
  Forall2 (quiet rel) (heap w) (heap w') →
  jobTable (proc w') ⊆ jobTable (proc w) →
  (∀ p, p ∈ sendq (sequentialjobs (proc w')) →
     p ∈ rel ∨ p ∈ sendq (sequentialjobs (proc w))) →
  (∀ p, p ∈ sendq (backgroundJobs (proc w')) →
     p ∈ rel ∨ p ∈ sendq (backgroundJobs (proc w))) →
  frame rel w w'.
Proof.
  intros Hh Ht Hs Hb. split_and!; [done| | | |auto..].
  - by rewrite (Forall2_length _ _ _ Hh).
  - intros p j Hj. destruct (Forall2_lookup_l _ _ _ _ _ Hh Hj) as (j' & Hj' & Hid & Hst & _).
    exists j'. auto.
  - intros p j' q Hj' Hq.
    destruct (Forall2_lookup_r _ _ _ _ _ Hh Hj') as (j & Hj & _ & _ & Hp).
    destruct (Hp q Hq); eauto.
Qed.

Lemma quiet_heap_refl rel h : Forall2 (quiet rel) h h.
Proof. by apply Forall_Forall2_diag, Forall_true. Qed.

Lemma quiet_insert rel h p j j' :
  h !! p = Some j → quiet rel j j' → Forall2 (quiet rel) h (<[p:=j']> h).
Proof.
  intros Hp Hq. rewrite <-(list_insert_id h p j) at 1 by done.
  apply Forall2_insert; [|done]. by apply Forall_Forall2_diag, Forall_true.
Qed.

(** A step that writes the status of one job. *)
Lemma frame_status rel w w' p j st :
  heap w !! p = Some j →
  heap w' = <[p:=set_status st j]> (heap w) →
  p ∈ rel → terminal st = false ∨ ¬ in_table w p →
  proc w' = proc w →
  frame rel w w'.
Proof.
  intros Hp Hh Hrel Hst Hproc. unfold frame. rewrite Hproc, Hh.
  split_and!; [done|by rewrite length_insert| | |auto..].
  - intros q j0 Hq. destruct (decide (q = p)) as [->|Hne].
    + exists (set_status st j). rewrite Hp in Hq. injection Hq as <-.
      split_and!; [by eapply lookup_insert_Some'|done|auto].
    + exists j0. rewrite list_lookup_insert_ne by congruence. auto.
  - intros q j' q' Hq Hin. right. destruct (decide (q = p)) as [->|Hne].
    + erewrite lookup_insert_Some' in Hq by done. injection Hq as <-. eauto.
    + rewrite list_lookup_insert_ne in Hq by congruence. eauto.
Qed.

(** A step that makes a new job object. *)
Lemma frame_alloc rel w w' j :
  heap w' = heap w ++ [j] → job_parents j = [] → proc w' = proc w →
  frame rel w w'.
Proof.
  intros Hh Hpar Hproc. unfold frame. rewrite Hproc, Hh.
  split_and!; [done|rewrite length_app; lia| | |auto..].
  - intros p j0 Hp. exists j0. split_and!; [|done|auto].
    rewrite lookup_app_l; [done|]. by eapply lookup_lt_Some.
  - intros p j' q Hp Hq. right.
    apply lookup_app_Some in Hp as [Hp|[_ Hp]]; [eauto|].
    apply list_lookup_singleton_Some in Hp as [_ <-].
    rewrite Hpar in Hq. by apply elem_of_nil in Hq.
Qed.

(** ** The steps of a goroutine *)

Lemma step_PcPush now start t c w :
  initMetadata_loop (S (size (jobTable (proc w)))) (jobTable (proc w))
    (kind t) (Unix now) 0 = Some c →
  step_pc now (PcPush start (Some t)) w =
    Ok (PcPushInit start (length (heap w)), [])
       {| proc := proc w; heap := heap w ++ [created_job now t c];
          trace := trace w ++ [EvCreated (length (heap w)) now;
                               EvStatus (length (heap w)) StatusPending] |}.
Proof.
  intros Hc. cbn [step_pc]. unfold alloc. repeat mstep.
  etrans; [apply bind_Ok; apply initMetadata_Ok with (j := Job_init (new_Job t)) (c := c);
           [apply list_lookup_middle; done|done]|]; cbv beta.
  wsimpl. by rewrite insert_snoc.
Qed.

Lemma step_PcPush_Spin now start t w :
  initMetadata_loop (S (size (jobTable (proc w)))) (jobTable (proc w))
    (kind t) (Unix now) 0 = None →
  step_pc now (PcPush start (Some t)) w = Spin.
Proof.
  intros Hc. cbn [step_pc]. unfold alloc, initMetadata, write_status.
  repeat mstep. wsimpl. cbn [new_Job Job_init job_task set_deps set_parents].
  by rewrite Hc.
Qed.

Lemma step_PcPushInsert now start job j w :
  heap w !! job = Some j →
  step_pc now (PcPushInsert start job) w =
    Ok (if start then PcStart job else PcDone, [])
       (if closed (proc w) then w
        else set_proc (λ P, set_jobTable (<[job_id j:=job]> (jobTable P)) P) w).
Proof.
  intros Hj. cbn [step_pc]. mstep. destruct (closed (proc w)); [done|].
  by repeat mstep.
Qed.

Lemma step_PcExec now job j w :
  heap w !! job = Some j →
  step_pc now (PcExec job) w =
    Ok (PcExecRunning job, [])
       {| proc := proc w;
          heap := <[job:=set_timing (set_Started now (job_timing j)) j]> (heap w);
          trace := trace w ++ [EvStarted job now] |}.
Proof. intros Hj. cbn [step_pc]. by repeat mstep. Qed.

Lemma step_PcExecRunning now job j w :
  heap w !! job = Some j →
  step_pc now (PcExecRunning job) w =
    Ok (PcExecPerform job, [])
       {| proc := proc w; heap := <[job:=set_status StatusRunning j]> (heap w);
          trace := trace w ++ [EvStatus job StatusRunning] |}.
Proof. intros Hj. cbn [step_pc]. unfold write_status. by repeat mstep. Qed.

Lemma step_PcExecPerform now job j w :
  heap w !! job = Some j →
  step_pc now (PcExecPerform job) w =
    Ok (PcExecCompleted job (Perform (job_task j) (manager (proc w))).2, [])
       {| proc := set_manager (Perform (job_task j) (manager (proc w))).1 (proc w);
          heap := heap w;
          trace := trace w ++
                   [EvPerform job (Perform (job_task j) (manager (proc w))).2] |}.
Proof.
  intros Hj. cbn [step_pc]. repeat mstep.
  destruct (Perform (job_task j) (manager (proc w))). by repeat mstep.
Qed.

Lemma step_PcExecCompleted now job err j w :
  heap w !! job = Some j →
  step_pc now (PcExecCompleted job err) w =
    Ok (PcExecNotify job err, [])
       {| proc := proc w;
          heap := <[job:=set_timing (set_Completed now (job_timing j)) j]> (heap w);
          trace := trace w ++ [EvCompleted job now] |}.
Proof. intros Hj. cbn [step_pc]. by repeat mstep. Qed.

Lemma step_PcExecNotify now job err j w :
  heap w !! job = Some j →
  step_pc now (PcExecNotify job err) w =
    Ok (PcExecGo job err (unblocked j (heap w)), [])
       (set_heap (λ _, (notify_parents (job_parents j) (heap w)).2) w).
Proof.
  intros Hj. cbn [step_pc].
  etrans; [apply bind_Ok, NotifyDone_Ok, Hj|]. done.
Qed.

Lemma step_PcExecGo now job err parents w :
  step_pc now (PcExecGo job err parents) w =
    Ok (PcExecPop job err, PcStart <$> parents)
       {| proc := proc w; heap := heap w;
          trace := trace w ++ (EvGo ∘ GoStartJob <$> parents) |}.
Proof. cbn [step_pc]. etrans; [apply bind_Ok, for_range_go|]. done. Qed.

Lemma step_PcExecPop now job err j w :
  heap w !! job = Some j →
  step_pc now (PcExecPop job err) w =
    Ok (PcExecReport job err, [])
       (set_proc (λ P, set_jobTable (delete (job_id j) (jobTable P)) P) w).
Proof.
  intros Hj. cbn [step_pc].
  etrans; [apply bind_Ok, popJob_Ok, Hj|]. done.
Qed.

Lemma step_PcExecReport now job err j w :
  heap w !! job = Some j →
  step_pc now (PcExecReport job err) w =
    Ok (PcDone, [])
       {| proc := proc w;
          heap := <[job:=set_status (final_status err) j]> (heap w);
          trace := trace w ++ EvStatus job (final_status err) ::
                   match err with
                   | Some e => [EvLog (job_id j) (kind (job_task j)) e]
                   | None => []
                   end |}.
Proof.
  intros Hj. cbn [step_pc].
  destruct err as [e|]; unfold reportError, write_status; cbn [final_status];
    repeat mstep; wsimpl; by rewrite <-?(assoc_L (++)).
Qed.

(** ** The invariant *)

Lemma private_distinct_update (ths gs : list (@Pc Manager)) i pc' :
  private_distinct ths →
  (∀ p, pc_private pc' = Some p →
     ∀ i' pc'', i' ≠ i → ths !! i' = Some pc'' → pc_private pc'' ≠ Some p) →
  Forall (λ g, pc_private g = None) gs →
  private_distinct (<[i:=pc']> ths ++ gs).
Proof.
  intros Hd Hnew Hgs i1 i2 pc1 pc2 p H1 H2 P1 P2.
  assert (∀ i0 pc0, (<[i:=pc']> ths ++ gs) !! i0 = Some pc0 →
            pc_private pc0 = Some p →
            (i0 = i ∧ pc0 = pc') ∨ (i0 ≠ i ∧ ths !! i0 = Some pc0)) as Hcases.
  { intros i0 pc0 H0 P0. apply lookup_app_Some in H0 as [H0|[_ H0]].
    - apply list_lookup_insert_Some in H0 as [(-> & -> & _)|[? ?]]; auto.
    - apply list_elem_of_lookup_2 in H0.
      rewrite Forall_forall in Hgs. rewrite (Hgs _ H0) in P0. done. }
  destruct (Hcases _ _ H1 P1) as [[-> ->]|[Hne1 H1']],
           (Hcases _ _ H2 P2) as [[-> ->]|[Hne2 H2']].
  - done.
  - destruct (Hnew p P1 i2 pc2 Hne2 H2' P2).
  - destruct (Hnew p P2 i1 pc1 Hne1 H1' P1).
  - by eapply Hd.
Qed.

Lemma Forall_insert_other {A} (P : A → Prop) (l : list A) i y :
  (∀ i' x, i' ≠ i → l !! i' = Some x → P x) → P y → Forall P (<[i:=y]> l).
Proof.
  intros Hl Hy. apply Forall_lookup. intros i' x Hx.
  apply list_lookup_insert_Some in Hx as [(-> & -> & _)|[? ?]]; eauto.
Qed.

(** A goroutine takes a step that is a frame and returns no job. *)
Lemma Inv_thread_frame s i pc pc' gs w' :
  Inv s → threads s !! i = Some pc →
  frame (released s) (world s) w' →
  pc_ok w' (released s) pc' →
  Forall (pc_ok w' (released s)) gs →
  (∀ p, pc_private pc' = Some p →
     pc_private pc = Some p ∨ (length (heap (world s)) ≤ p)%nat) →
  Forall (λ g, pc_private g = None) gs →
  Inv {| world := w'; threads := <[i:=pc']> (threads s) ++ gs;
         released := released s |}.
Proof.
  intros (Hw & Hths & Hd) Hi F Hpc' Hgs Hpriv Hgspriv. split_and!; cbn.
  - by eapply world_ok_frame.
  - apply Forall_app. split; [|done].
    apply Forall_insert; [|done].
    eapply Forall_impl; [exact Hths|]. intros pc0 H0. by eapply pc_ok_frame.
  - apply private_distinct_update; [done| |done].
    intros p Hp i' pc'' Hne Hi' Hp''.
    destruct (Hpriv p Hp) as [Hold|Hfresh].
    + apply Hne. symmetry. by eapply Hd.
    + rewrite Forall_lookup in Hths.
      destruct (Hths _ _ Hi') as (Hpr & _).
      destruct (Hpr p Hp'') as (_ & j & Hj & _).
      apply lookup_lt_Some in Hj. lia.
Qed.

(** The world changes by a frame and goroutines that return no job are
    added. *)
Lemma Inv_env_frame s w' gs :
  Inv s →
  frame (released s) (world s) w' →
  Forall (pc_ok w' (released s)) gs →
  Forall (λ g, pc_private g = None) gs →
  Inv {| world := w'; threads := threads s ++ gs; released := released s |}.
Proof.
  intros (Hw & Hths & Hd) F Hgs Hgspriv. split_and!; cbn.
  - by eapply world_ok_frame.
  - apply Forall_app. split; [|done].
    eapply Forall_impl; [exact Hths|]. intros pc0 H0. by eapply pc_ok_frame.
  - intros i1 i2 pc1 pc2 p H1 H2 P1 P2.
    apply lookup_app_Some in H1 as [H1|[_ H1]], H2 as [H2|[_ H2]].
    + by eapply Hd.
    + apply list_elem_of_lookup_2 in H2.
      rewrite Forall_forall in Hgspriv. rewrite (Hgspriv _ H2) in P2. done.
    + apply list_elem_of_lookup_2 in H1.
      rewrite Forall_forall in Hgspriv. rewrite (Hgspriv _ H1) in P1. done.
    + apply list_elem_of_lookup_2 in H1.
      rewrite Forall_forall in Hgspriv. rewrite (Hgspriv _ H1) in P1. done.
Qed.

Lemma frame_refl rel w : frame rel w w.
Proof. apply frame_quiet; cbn; [apply quiet_heap_refl|done|auto..]. Qed.

Lemma pc_ok_public w rel pc :
  pc_private pc = None → (∀ p err, pc ≠ PcExecReport p err) →
  Forall (λ p, p ∈ rel) (pc_public pc) → pc_ok w rel pc.
Proof.
  intros Hpriv Hrep Hpub. split_and!.
  - intros p Hp. congruence.
  - by apply Forall_forall.
  - intros p err Heq. by destruct (Hrep p err).
Qed.

Lemma unblocked_parents j h p : p ∈ unblocked j h → p ∈ job_parents j.
Proof.
  unfold unblocked. generalize (job_parents j). intros ps. revert h.
  induction ps as [|q ps IH]; intros h; cbn [notify_parents]; [done|].
  destruct (h !! q) as [pj|].
  - specialize (IH (<[q:=set_deps (Nat.pred (job_deps pj)) pj]> h)).
    destruct (notify_parents ps _) as [r h']. cbn [fst] in *.
    intros Hin. apply elem_of_cons.
    destruct (decide _); [apply elem_of_cons in Hin as [->|Hin]|]; auto.
  - intros Hin. apply elem_of_cons. eauto.
Qed.

Lemma Inv_init NumCPU (m : Manager) n : Inv (init_system NumCPU m n).
Proof.
  split_and!; cbn.
  - split_and!; cbn.
    + intros k p Hk. cbn in Hk. by rewrite lookup_empty in Hk.
    + intros p Hp. by apply not_elem_of_empty in Hp.
    + intros p Hp. cbn in Hp. by apply elem_of_nil in Hp.
    + intros p Hp. cbn in Hp. by apply elem_of_nil in Hp.
    + intros q j p Hq. cbn in Hq. by rewrite lookup_nil in Hq.
  - constructor.
  - intros i i' pc pc' p Hi. by rewrite lookup_nil in Hi.
Qed.

(** [pushJobInternal] returns the job, having stored it in the table unless
    the processor is closed. *)
Lemma Inv_release s i start job j w' :
  Inv s → threads s !! i = Some (PcPushInsert start job) →
  heap (world s) !! job = Some j →
  heap w' = heap (world s) →
  (jobTable (proc w') = jobTable (proc (world s)) ∨
   jobTable (proc w') = <[job_id j:=job]> (jobTable (proc (world s)))) →
  sequentialjobs (proc w') = sequentialjobs (proc (world s)) →
  backgroundJobs (proc w') = backgroundJobs (proc (world s)) →
  Inv {| world := w';
         threads := <[i:=if start then PcStart job else PcDone]> (threads s) ++ [];
         released := released s ∪ {[job]} |}.
Proof.
  intros (Hw & Hths & Hd) Hi Hj Hheap Htable Hseq Hbg.
  destruct Hw as (Htab & Hval & Hs & Hb & Hpar).
  pose proof (Forall_lookup_1 _ _ _ _ Hths Hi) as (Hpriv & _ & _).
  destruct (Hpriv job eq_refl) as (Hnotrel & j0 & Hj0 & Hpending).
  assert (j0 = j) as -> by congruence.
  assert (∀ k p, jobTable (proc w') !! k = Some p →
            (k = job_id j ∧ p = job) ∨ jobTable (proc (world s)) !! k = Some p) as Hsub.
  { intros k p Hk. destruct Htable as [Heq|Heq]; rewrite Heq in Hk; [auto|].
    apply lookup_insert_Some in Hk as [[<- <-]|[_ ?]]; auto. }
  split_and!; cbn.
  - split_and!.
    + intros k p Hk. rewrite Hheap. destruct (Hsub k p Hk) as [[-> ->]|Hold].
      * exists j. split_and!; [done..|]. by rewrite Hpending.
      * by apply Htab.
    + intros p [Hp|Hp]%elem_of_union; rewrite Hheap; [by apply Hval|].
      apply elem_of_singleton in Hp as ->. by eapply lookup_lt_Some.
    + intros p Hp. rewrite Hseq in Hp. apply elem_of_union. auto.
    + intros p Hp. rewrite Hbg in Hp. apply elem_of_union. auto.
    + intros q j' p Hq Hp. rewrite Hheap in Hq. apply elem_of_union. eauto.
  - apply Forall_app. split; [|constructor].
    apply Forall_insert_other.
    + intros i' pc0 Hne Hi'.
      pose proof (Forall_lookup_1 _ _ _ _ Hths Hi') as (Hpriv0 & Hpub0 & Hrep0).
      split_and!.
      * intros p Hp. destruct (Hpriv0 p Hp) as (Hnot & jp & Hjp & Hst).
        split; [|rewrite Hheap; eauto].
        intros [?|Heq%elem_of_singleton]%elem_of_union; [done|]. subst p.
        apply Hne. by eapply Hd.
      * intros p Hp. apply elem_of_union. auto.
      * intros p err -> [k Hk]. destruct (Hsub k p Hk) as [[-> ->]|Hold].
        -- apply Hnotrel, Hpub0. cbn. by apply list_elem_of_singleton.
        -- eapply Hrep0; [done|]. by exists k.
    + destruct start; (apply pc_ok_public; [done..|]); repeat constructor.
      apply elem_of_union. right. by apply elem_of_singleton.
  - apply private_distinct_update; [done| |constructor].
    intros p Hp. by destruct start.
Qed.

Lemma valid_public s pc i p :
  Inv s → threads s !! i = Some pc → p ∈ pc_public pc →
  p ∈ released s ∧ ∃ j, heap (world s) !! p = Some j.
Proof.
  intros ((_ & Hval & _) & Hths & _) Hi Hp.
  pose proof (Forall_lookup_1 _ _ _ _ Hths Hi) as (_ & Hpub & _).
  split; [auto|]. apply lookup_lt_is_Some_2. auto.
Qed.

Lemma Close_Ok w :
  Close w =
    Ok tt (if closed (proc w) then w
           else set_proc (λ P,
                  set_quit (quit P + Z.to_nat (njobs P + 1))
                    (set_backgroundJobs (chan_close (backgroundJobs P))
                       (set_sequentialjobs (chan_close (sequentialjobs P))
                          (set_closed true P)))) w).
Proof.
  unfold Close. mstep. destruct (closed (proc w)); [done|]. by repeat mstep.
Qed.

Lemma add_dependency_Ok child parent jc jp w :
  heap w !! child = Some jc →
  <[child:=set_parents (job_parents jc ++ [parent]) jc]> (heap w) !! parent = Some jp →
  add_dependency child parent w =
    Ok tt (set_heap (λ h,
             <[parent:=set_deps (S (job_deps jp)) jp]>
               (<[child:=set_parents (job_parents jc ++ [parent]) jc]> h)) w).
Proof.
  intros Hc Hp. unfold add_dependency.
  etrans; [apply bind_Ok, store_Ok, Hc|]. cbv beta.
  etrans; [apply store_Ok, Hp|]. done.
Qed.

Lemma step_PcStart now job j w :
  heap w !! job = Some j →
  step_pc now (PcStart job) w =
    Ok (PcDone, [])
       (if closed (proc w) then w else set_proc (enqueued job (job_task j)) w).
Proof.
  intros Hj. cbn [step_pc]. etrans; [apply bind_Ok, StartJob_Ok, Hj|]. done.
Qed.

(** Every step of the scheduler keeps the invariant. *)
Lemma Inv_step s s' : Inv s → step s s' → Inv s'.
Proof.
  intros HI Hstep.
  destruct Hstep as [s i pc now pc' gs w' Hi Hpc|s start task|s job Hjob|s w' Hb
                    |s w' Hc|s child parent w' Hchild Hparent Hdep
                    |s job c Hrecv|s job c Hrecv].
  - pose proof HI as ((Htab & Hval & Hsq & Hbq & Hpar) & Hths & Hd).
    pose proof (Forall_lookup_1 _ _ _ _ Hths Hi) as (Hpriv & Hpub & Hrep).
    destruct pc as [start task|start job|start job|job|job|job|job|job err|job err
                   |job err parents|job err|job err|];
      cbn [returned]; rewrite ?(right_id_L ∅ (∪));
      try (destruct (valid_public s _ i job HI Hi) as (Hrel & j & Hj);
           [cbn; rewrite ?elem_of_cons; auto; by apply list_elem_of_singleton|]).
    + (* pushJobInternal: the new job and its ID *)
      destruct task as [t|]; [|discriminate].
      destruct (initMetadata_loop (S (size (jobTable (proc (world s)))))
                  (jobTable (proc (world s))) (kind t) (Unix now) 0) as [c|] eqn:Hc.
      2:{ by rewrite (step_PcPush_Spin now start t _ Hc) in Hpc. }
      rewrite (step_PcPush now start t c _ Hc) in Hpc. injection Hpc as <- <- <-.
      apply Inv_thread_frame with (pc := PcPush start (Some t));
        [done|done| | |constructor| |constructor].
      * by eapply frame_alloc.
      * split_and!; [|done..]. intros p [= <-]. split.
        -- intros Hin. apply Hval in Hin. lia.
        -- exists (created_job now t c). split; [|done]. by apply list_lookup_middle.
      * intros p [= <-]. by right.
    + (* the Init hook *)
      injection Hpc as <- <- <-.
      apply Inv_thread_frame with (pc := PcPushInit start job);
        [done|done| | |constructor| |constructor].
      * apply frame_quiet; cbn; [apply quiet_heap_refl|done|auto..].
      * split_and!; [|done..]. intros p [= <-]. by apply Hpriv.
      * intros p [= <-]. by left.
    + (* the insertion under the lock, and the return *)
      destruct (Hpriv job eq_refl) as (_ & j & Hj & _).
      rewrite (step_PcPushInsert now start job j _ Hj) in Hpc.
      injection Hpc as <- <- <-.
      apply Inv_release with (j := j); try done;
        destruct (closed (proc (world s))); auto.
    + (* StartJob *)
      rewrite (step_PcStart now job j _ Hj) in Hpc. injection Hpc as <- <- <-.
      apply Inv_thread_frame with (pc := PcStart job);
        [done|done| |by apply pc_ok_public; [..|repeat constructor]|constructor|done|constructor].
      destruct (closed (proc (world s))); [apply frame_refl|].
      unfold enqueued.
      destruct (IsSequential (job_task j));
        (apply frame_quiet; cbn; [apply quiet_heap_refl|done|auto..]);
        intros p [Hp|Hp]%elem_of_app; auto;
        apply list_elem_of_singleton in Hp as ->; auto.
    + (* executeJob: Started *)
      rewrite (step_PcExec now job j _ Hj) in Hpc. injection Hpc as <- <- <-.
      apply Inv_thread_frame with (pc := PcExec job);
        [done|done| |by apply pc_ok_public; [..|repeat constructor]|constructor|done|constructor].
      apply frame_quiet; cbn; [|done|auto..].
      eapply quiet_insert; [done|]. split_and!; auto.
    + (* executeJob: Running *)
      rewrite (step_PcExecRunning now job j _ Hj) in Hpc. injection Hpc as <- <- <-.
      apply Inv_thread_frame with (pc := PcExecRunning job);
        [done|done| |by apply pc_ok_public; [..|repeat constructor]|constructor|done|constructor].
      eapply frame_status; [exact Hj|reflexivity|done|by left|done].
    + (* executeJob: Perform *)
      rewrite (step_PcExecPerform now job j _ Hj) in Hpc. injection Hpc as <- <- <-.
      apply Inv_thread_frame with (pc := PcExecPerform job);
        [done|done| |by apply pc_ok_public; [..|repeat constructor]|constructor|done|constructor].
      apply frame_quiet; cbn; [apply quiet_heap_refl|done|auto..].
    + (* executeJob: Completed *)
      rewrite (step_PcExecCompleted now job err j _ Hj) in Hpc.
      injection Hpc as <- <- <-.
      apply Inv_thread_frame with (pc := PcExecCompleted job err);
        [done|done| |by apply pc_ok_public; [..|repeat constructor]|constructor|done|constructor].
      apply frame_quiet; cbn; [|done|auto..].
      eapply quiet_insert; [done|]. split_and!; auto.
    + (* executeJob: NotifyDone *)
      rewrite (step_PcExecNotify now job err j _ Hj) in Hpc.
      injection Hpc as <- <- <-.
      apply Inv_thread_frame with (pc := PcExecNotify job err);
        [done|done| | |constructor|done|constructor].
      * apply frame_quiet; cbn; [|done|auto..].
        eapply Forall2_impl; [apply notify_parents_same|].
        intros a b (Hid & _ & Hst & _ & Hp). split_and!; [done..|].
        intros q Hq. right. by rewrite Hp.
      * apply pc_ok_public; [done..|]. constructor; [done|].
        apply Forall_forall. intros p Hp.
        eapply Hpar; [exact Hj|]. by eapply unblocked_parents.
    + (* executeJob: the go statements *)
      rewrite (step_PcExecGo now job err parents) in Hpc.
      injection Hpc as <- <- <-.
      apply Inv_thread_frame with (pc := PcExecGo job err parents);
        [done|done| | | |done|].
      * apply frame_quiet; cbn; [apply quiet_heap_refl|done|auto..].
      * by apply pc_ok_public; [..|repeat constructor].
      * apply Forall_fmap, Forall_forall. intros p Hp.
        apply pc_ok_public; [done..|]. repeat constructor.
        apply Hpub. cbn. by right.
      * by apply Forall_fmap, Forall_true.
    + (* executeJob: popJob *)
      rewrite (step_PcExecPop now job err j _ Hj) in Hpc.
      injection Hpc as <- <- <-.
      apply Inv_thread_frame with (pc := PcExecPop job err);
        [done|done| | |constructor|done|constructor].
      * apply frame_quiet; cbn; [apply quiet_heap_refl|apply delete_subseteq|auto..].
      * split_and!; [done..|]. intros p err' [= <- <-] [k Hk]. cbn in Hk.
        apply lookup_delete_Some in Hk as [Hne Hk].
        destruct (Htab k job Hk) as (j0 & Hj0 & Hid & _). congruence.
    + (* executeJob: the terminal status *)
      rewrite (step_PcExecReport now job err j _ Hj) in Hpc.
      injection Hpc as <- <- <-.
      apply Inv_thread_frame with (pc := PcExecReport job err);
        [done|done| |by apply pc_ok_public; [..|repeat constructor]|constructor|done|constructor].
      eapply frame_status; [exact Hj|reflexivity|done|right; by eapply Hrep|done].
    + injection Hpc as <- <- <-.
      apply Inv_thread_frame with (pc := PcDone);
        [done|done|apply frame_refl|by apply pc_ok_public; [..|repeat constructor]|constructor|done|constructor].
  - apply Inv_env_frame; [done|apply frame_refl| |].
    + constructor; [|constructor]. by apply pc_ok_public; [..|constructor].
    + by constructor.
  - apply Inv_env_frame; [done|apply frame_refl| |].
    + constructor; [|constructor]. by apply pc_ok_public; [..|repeat constructor].
    + by constructor.
  - rewrite Begin_Ok in Hb. injection Hb as <-.
    rewrite <-(app_nil_r (threads s)).
    apply Inv_env_frame; [done| |constructor..].
    destruct (closed (proc (world s))); [apply frame_refl|].
    apply frame_quiet; cbn; [apply quiet_heap_refl|done|auto..].
  - rewrite Close_Ok in Hc. injection Hc as <-.
    rewrite <-(app_nil_r (threads s)).
    apply Inv_env_frame; [done| |constructor..].
    destruct (closed (proc (world s))); [apply frame_refl|].
    apply frame_quiet; cbn; [apply quiet_heap_refl|done|auto..].
  - pose proof HI as ((Htab & Hval & Hsq & Hbq & Hpar) & Hths & Hd).
    destruct (lookup_lt_is_Some_2 (heap (world s)) child) as [jc Hjc]; [auto|].
    destruct (lookup_lt_is_Some_2
                (<[child:=set_parents (job_parents jc ++ [parent]) jc]> (heap (world s)))
                parent) as [jp Hjp].
    { rewrite length_insert. auto. }
    rewrite (add_dependency_Ok child parent jc jp _ Hjc Hjp) in Hdep.
    injection Hdep as <-.
    rewrite <-(app_nil_r (threads s)).
    apply Inv_env_frame; [done| |constructor..].
    apply frame_quiet; cbn; [|done|auto..].
    etrans; [eapply (quiet_insert _ _ child jc); [done|]|
             eapply (quiet_insert _ _ parent jp); [done|]].
    + split_and!; [done..|]. intros q [Hq|Hq]%elem_of_app; [auto|].
      apply list_elem_of_singleton in Hq as ->. auto.
    + split_and!; auto.
  - pose proof HI as ((Htab & Hval & Hsq & Hbq & Hpar) & Hths & Hd).
    unfold chan_recv in Hrecv.
    destruct (chan_closed (sequentialjobs (proc (world s)))); [done|].
    destruct (sendq (sequentialjobs (proc (world s)))) as [|p q] eqn:Hq; [done|].
    injection Hrecv as <- <-.
    apply Inv_env_frame; [done| | |].
    + apply frame_quiet; cbn; [apply quiet_heap_refl|done|auto..].
      intros p' Hp'. right. rewrite Hq. by right.
    + constructor; [|constructor]. apply pc_ok_public; [done..|].
      repeat constructor. apply Hsq. rewrite ?Hq. by left.
    + by constructor.
  - pose proof HI as ((Htab & Hval & Hsq & Hbq & Hpar) & Hths & Hd).
    unfold chan_recv in Hrecv.
    destruct (chan_closed (backgroundJobs (proc (world s)))); [done|].
    destruct (sendq (backgroundJobs (proc (world s)))) as [|p q] eqn:Hq; [done|].
    injection Hrecv as <- <-.
    apply Inv_env_frame; [done| | |].
    + apply frame_quiet; cbn; [apply quiet_heap_refl|done|auto..].
      intros p' Hp'. right. rewrite Hq. by right.
    + constructor; [|constructor]. apply pc_ok_public; [done..|].
      repeat constructor. apply Hbq. rewrite ?Hq. by left.
    + by constructor.
Qed.

(** ** The goroutine steps make up the operations

    A goroutine that runs on its own from the entry of an operation to its
    end does what the operation does. *)

Lemma pushJobInternal_Spin now t w :
  initMetadata_loop (S (size (jobTable (proc w)))) (jobTable (proc w))
    (kind t) (Unix now) 0 = None →
  pushJobInternal now (Some t) w = Spin.
Proof.
  intros Hc. unfold pushJobInternal, alloc, initMetadata, write_status.
  repeat mstep. wsimpl. cbn [new_Job Job_init job_task set_deps set_parents].
  by rewrite Hc.
Qed.

Lemma run_pc_S n nows pc w pc' gs w' :
  step_pc (nows 0%nat) pc w = Ok (pc', gs) w' →
  run_pc (S n) nows pc w =
    match run_pc n (λ i, nows (S i)) pc' w' with
    | Ok (pc'', gs') w'' => Ok (pc'', gs ++ gs') w''
    | Panic msg => Panic msg
    | Spin => Spin
    end.
Proof.
  intros Hstep. cbn [run_pc]. unfold mbind, M_bind. rewrite Hstep.
  by destruct (run_pc n _ pc' w') as [[pc'' gs'] w''| |].
Qed.

Lemma run_pc_PushJobLater nows task w :
  match PushJobLater (nows 0%nat) task w with
  | Ok job w' => run_pc 3 nows (PcPush false task) w = Ok (PcDone, []) w'
  | Panic msg => run_pc 3 nows (PcPush false task) w = Panic msg
  | Spin => run_pc 3 nows (PcPush false task) w = Spin
  end.
Proof.
  unfold PushJobLater. destruct task as [t|]; [|done].
  destruct (initMetadata_loop (S (size (jobTable (proc w)))) (jobTable (proc w))
              (kind t) (Unix (nows 0%nat)) 0) as [c|] eqn:Hc.
  - rewrite (pushJobInternal_Ok _ t c w Hc).
    erewrite run_pc_S by (by apply step_PcPush).
    erewrite run_pc_S by reflexivity.
    erewrite run_pc_S
      by (apply step_PcPushInsert; wsimpl; apply list_lookup_middle; done).
    cbn [run_pc]. unfold mret, M_ret, pushed. wsimpl.
    by destruct (closed (proc w)); rewrite <-(assoc_L (++)).
  - rewrite (pushJobInternal_Spin _ t w Hc). cbn [run_pc].
    unfold mbind at 1, M_bind. by rewrite (step_PcPush_Spin _ false t w Hc).
Qed.

Lemma run_pc_PushJob nows task w :
  match PushJob (nows 0%nat) task w with
  | Ok job w' => run_pc 4 nows (PcPush true task) w = Ok (PcDone, []) w'
  | Panic msg => run_pc 4 nows (PcPush true task) w = Panic msg
  | Spin => run_pc 4 nows (PcPush true task) w = Spin
  end.
Proof.
  destruct task as [t|]; [|done].
  destruct (initMetadata_loop (S (size (jobTable (proc w)))) (jobTable (proc w))
              (kind t) (Unix (nows 0%nat)) 0) as [c|] eqn:Hc.
  - rewrite (PushJob_Ok _ t c w Hc).
    erewrite run_pc_S by (by apply step_PcPush).
    erewrite run_pc_S by reflexivity.
    erewrite run_pc_S
      by (apply step_PcPushInsert; wsimpl; apply list_lookup_middle; done).
    assert (∀ w1 : @World Manager,
              heap w1 = heap w ++ [created_job (nows 0%nat) t c] →
              step_pc (nows 3%nat) (PcStart (length (heap w))) w1 =
                Ok (PcDone, [])
                   (if closed (proc w1) then w1
                    else set_proc (enqueued (length (heap w)) t) w1)) as Hstart.
    { intros w1 Hw1. apply (step_PcStart _ _ (created_job (nows 0%nat) t c)).
      rewrite Hw1. by apply list_lookup_middle. }
    erewrite run_pc_S by (apply Hstart; wsimpl; by destruct (closed (proc w))).
    cbn [run_pc]. unfold mret, M_ret, pushed. wsimpl.
    destruct (closed (proc w)) eqn:Hcl; wsimpl; cbn [closed set_jobTable];
      rewrite ?Hcl, <-?(assoc_L (++)); reflexivity.
  - unfold PushJob. unfold mbind at 1, M_bind.
    rewrite (pushJobInternal_Spin _ t w Hc). cbn [run_pc].
    unfold mbind at 1, M_bind. by rewrite (step_PcPush_Spin _ true t w Hc).
Qed.

Lemma unblocked_completed started completed job j h :
  h !! job = Some j →
  unblocked (completed_job started completed j)
            (<[job:=completed_job started completed j]> h)
  = unblocked j h.
Proof.
  intros Hj. unfold unblocked.
  change (job_parents (completed_job started completed j)) with (job_parents j).
  apply notify_parents_deps.
  rewrite <-(list_insert_id h job j) at 2 by done.
  apply Forall2_insert; [|done]. by apply Forall_Forall2_diag, Forall_true.
Qed.

Lemma run_pc_executeJob nows job j w :
  heap w !! job = Some j →
  ∃ w', executeJob (nows 0%nat) (nows 3%nat) job w = Ok tt w' ∧
        run_pc 8 nows (PcExec job) w = Ok (PcDone, PcStart <$> unblocked j (heap w)) w'.
Proof.
  intros Hj.
  destruct (executeJob_Ok (nows 0%nat) (nows 3%nat) job j w Hj)
    as (j3 & Hj3 & Hsame & Hexec).
  cbv zeta in Hexec. eexists. split; [exact Hexec|].
  erewrite run_pc_S by (by apply step_PcExec).
  erewrite run_pc_S
    by (apply step_PcExecRunning; wsimpl; by eapply lookup_insert_Some').
  erewrite run_pc_S
    by (apply step_PcExecPerform; wsimpl; rewrite list_insert_insert_eq;
        by eapply lookup_insert_Some').
  erewrite run_pc_S
    by (apply step_PcExecCompleted; wsimpl; rewrite list_insert_insert_eq;
        by eapply lookup_insert_Some').
  wsimpl. rewrite !list_insert_insert_eq.
  erewrite run_pc_S
    by (apply step_PcExecNotify; wsimpl; by eapply lookup_insert_Some').
  erewrite run_pc_S by apply step_PcExecGo.
  wsimpl.
  change (set_timing _ (set_status StatusRunning _))
    with (completed_job (nows 0%nat) (nows 3%nat) j).
  change (job_parents (completed_job (nows 0%nat) (nows 3%nat) j))
    with (job_parents j).
  erewrite run_pc_S by (apply step_PcExecPop; wsimpl; exact Hj3).
  erewrite run_pc_S
    by (apply step_PcExecReport with (j := j3); wsimpl; exact Hj3).
  cbn [run_pc]. unfold mret, M_ret. wsimpl.
  rewrite (unblocked_completed _ _ _ _ _ Hj), !app_nil_l, !app_nil_r.
  destruct Hsame as (Hid & Htask & _). cbn in Hid, Htask.
  rewrite <-Hid, <-Htask, <-!(assoc_L (++)). done.
Qed.

Lemma Inv_reachable s0 s : Inv s0 → reachable s0 s → Inv s.
Proof.
  intros H0 Hr. induction Hr as [|x y z Hxy Hyz IH]; [done|].
  apply IH. by eapply Inv_step.
Qed.

Lemma schedule1_step c s s' : schedule1 c s = Some s' → step s s'.
Proof.
  destruct c as [i now|start task|job| | |child parent| |]; cbn [schedule1]; intros H.
  - destruct (threads s !! i) as [pc|] eqn:Hi; [|done].
    destruct (step_pc now pc (world s)) as [[pc' gs] w'| |] eqn:Hpc; [|done..].
    injection H as <-. by eapply step_thread.
  - injection H as <-. apply (step_call_push s).
  - destruct (decide _); [|done]. injection H as <-. by apply (step_call_start s).
  - destruct (Begin (world s)) as [[] w'| |] eqn:Hb; [|done..].
    injection H as <-. by apply (step_call_begin s).
  - destruct (Close (world s)) as [[] w'| |] eqn:Hc; [|done..].
    injection H as <-. by apply (step_call_close s).
  - destruct (decide _) as [[? ?]|]; [|done].
    destruct (add_dependency child parent (world s)) as [[] w'| |] eqn:Hd; [|done..].
    injection H as <-. by apply (step_call_depend s child parent).
  - destruct (chan_recv _) as [[job c]|] eqn:Hr; [|done].
    injection H as <-. by apply (step_recv_sequential s job c).
  - destruct (chan_recv _) as [[job c]|] eqn:Hr; [|done].
    injection H as <-. by apply (step_recv_background s job c).
Qed.

Lemma schedule_reachable cs s s' : schedule cs s = Some s' → reachable s s'.
Proof.
  revert s. induction cs as [|c cs IH]; intros s; cbn [schedule].
  - intros [= <-]. apply rtc_refl.
  - destruct (schedule1 c s) as [s1|] eqn:H1; [|done]. intros Hs.
    eapply rtc_l; [exact (schedule1_step c s s1 H1)|by apply IH].
Qed.

(** C9: in every state the scheduler can reach, a job of the live job table
    is stored under its own ID and is Pending or Running; a job is Pending
    when [pushJobInternal] is about to insert it; and a job is no longer in
    the table when [executeJob] is about to give it its terminal status. *)
Theorem live_jobs_are_pending_or_running NumCPU (m : Manager) n s :
  reachable (init_system NumCPU m n) s →
  (∀ k p, jobTable (proc (world s)) !! k = Some p →
     ∃ j, heap (world s) !! p = Some j ∧ job_id j = k ∧
          (job_status j = StatusPending ∨ job_status j = StatusRunning)) ∧
  (∀ i start job, threads s !! i = Some (PcPushInsert start job) →
     ∃ j, heap (world s) !! job = Some j ∧ job_status j = StatusPending) ∧
  (∀ i job err k, threads s !! i = Some (PcExecReport job err) →
     jobTable (proc (world s)) !! k ≠ Some job).
Proof.
  intros Hr.
  destruct (Inv_reachable _ _ (Inv_init NumCPU m n) Hr) as ((Htab & _) & Hths & _).
  split_and!.
  - intros k p Hk. destruct (Htab k p Hk) as (j & Hj & Hid & Hst).
    exists j. split_and!; [done..|]. by destruct (job_status j); auto.
  - intros i start job Hi.
    pose proof (Forall_lookup_1 _ _ _ _ Hths Hi) as (Hpriv & _ & _).
    by destruct (Hpriv job eq_refl) as (_ & Hj).
  - intros i job err k Hi Hk.
    pose proof (Forall_lookup_1 _ _ _ _ Hths Hi) as (_ & _ & Hrep).
    eapply Hrep; [done|]. by exists k.
Qed.

End Scheduler.

Section Resubmission.
Context {Manager : Type}.
Implicit Types (w : @World Manager) (j : @Job Manager) (h : list (@Job Manager)).

(** The parents that are reported as unblocked are jobs of the heap. *)
Lemma unblocked_valid j h p : p ∈ unblocked j h → is_Some (h !! p).
Proof.
  unfold unblocked. generalize (job_parents j). intros ps. revert h.
  induction ps as [|q ps IH]; intros h; cbn [notify_parents].
  { cbn. by intros ?%elem_of_nil. }
  destruct (h !! q) as [pj|] eqn:Hq; [|by apply IH].
  specialize (IH (<[q:=set_deps (Nat.pred (job_deps pj)) pj]> h)).
  destruct (notify_parents ps _) as [r h']. cbn [fst] in *.
  assert (p ∈ r → is_Some (h !! p)) as Hr.
  { intros Hin. apply IH, lookup_lt_is_Some in Hin. rewrite length_insert in Hin.
    by apply lookup_lt_is_Some. }
  destruct (decide _); [|done].
  intros [->|Hin]%elem_of_cons; [by eexists|auto].
Qed.

(** [executeJob] leaves every job its task. *)
Lemma executeJob_tasks started completed job j w w' p pj :
  heap w !! job = Some j →
  executeJob started completed job w = Ok tt w' →
  heap w !! p = Some pj →
  ∃ pj', heap w' !! p = Some pj' ∧ job_task pj' = job_task pj.
Proof.
  intros Hj Hexec Hp.
  destruct (executeJob_Ok started completed job j w Hj) as (j3 & Hj3 & Hsame & Hexec').
  cbv zeta in Hexec'. rewrite Hexec' in Hexec. injection Hexec as <-.
  cbn [heap]. destruct (decide (p = job)) as [->|Hne].
  - eexists. split; [by eapply lookup_insert_Some'|].
    destruct Hsame as (_ & Htask & _). cbn in Htask. cbn. congruence.
  - rewrite list_lookup_insert_ne by done.
    destruct (notify_parents_lookup (job_parents j)
                (<[job:=completed_job started completed j]> (heap w)) p pj)
      as (pj' & Hp' & _ & Htask & _).
    { by rewrite list_lookup_insert_ne. }
    eauto.
Qed.

Lemma wants_sequential_tasks h h' p :
  (∀ pj, h !! p = Some pj → ∃ pj', h' !! p = Some pj' ∧ job_task pj' = job_task pj) →
  is_Some (h !! p) → wants_sequential h' p = wants_sequential h p.
Proof.
  intros Hh [pj Hp]. destruct (Hh pj Hp) as (pj' & Hp' & Htask).
  unfold wants_sequential. by rewrite Hp, Hp', Htask.
Qed.

Lemma filter_ext_in {A} (P1 P2 : A → Prop)
    `{!∀ x, Decision (P1 x), !∀ x, Decision (P2 x)} (l : list A) :
  (∀ x, x ∈ l → P1 x ↔ P2 x) → filter P1 l = filter P2 l.
Proof.
  induction l as [|a l IH]; intros Hext; [done|].
  rewrite !filter_cons, IH by (intros x Hx; apply Hext; by right).
  destruct (Hext a) as [Ha1 Ha2]; [by left|]. repeat case_decide; tauto || done.
Qed.

(** The goroutines that run [StartJob], one after the other. *)
Lemma for_range_StartJob (ps : list nat) w :
  closed (proc w) = false →
  (∀ p, p ∈ ps → is_Some (heap w !! p)) →
  ∃ w', for_range StartJob ps w = Ok tt w' ∧
    heap w' = heap w ∧ closed (proc w') = false ∧
    sendq (sequentialjobs (proc w')) =
      sendq (sequentialjobs (proc w)) ++ filter (λ p, wants_sequential (heap w) p = true) ps ∧
    sendq (backgroundJobs (proc w')) =
      sendq (backgroundJobs (proc w)) ++ filter (λ p, wants_sequential (heap w) p = false) ps.
Proof.
  revert w. induction ps as [|p ps IH]; intros w Hopen Hvalid.
  { exists w. by rewrite !filter_nil, !app_nil_r. }
  destruct (Hvalid p) as [pj Hp]; [by left|].
  cbn [for_range]. unfold mbind at 1, M_bind at 1.
  rewrite (StartJob_Ok p pj w Hp), Hopen.
  destruct (IH (set_proc (enqueued p (job_task pj)) w)) as (w' & Hw' & Hheap & Hcl & Hs & Hb).
  { unfold enqueued. by destruct (IsSequential (job_task pj)). }
  { intros q Hq. cbn. apply Hvalid. by right. }
  exists w'. split; [exact Hw'|]. cbn [heap set_proc] in Hheap, Hs, Hb.
  split; [done|]. split; [done|].
  rewrite Hs, Hb.
  assert (wants_sequential (heap w) p = IsSequential (job_task pj)) as Hwp
    by (unfold wants_sequential; by rewrite Hp).
  unfold enqueued. destruct (IsSequential (job_task pj)); cbn;
    repeat case_decide; try congruence; by rewrite <-app_assoc.
Qed.

(** C2: [executeJob] starts a goroutine that runs [StartJob] for exactly the
    parents that the job's completion notification reports as unblocked.
    These are determined by the dependency bookkeeping alone: what [Perform]
    returned plays no part, so a failed child frees its parents like a
    successful one. Whatever the order in which these goroutines run,
    [StartJob] offers each of these parents on the lane its task asks for,
    unless the processor is closed. *)
Theorem executeJob_resubmits_unblocked_parents started completed job j w :
  heap w !! job = Some j →
  ∃ w' evs,
    executeJob started completed job w = Ok tt w' ∧
    trace w' = trace w ++ evs ∧
    spawned evs = GoStartJob <$> unblocked j (heap w) ∧
    (∀ nows, nows 0%nat = started → nows 3%nat = completed →
       run_pc 8 nows (PcExec job) w =
         Ok (PcDone, PcStart <$> unblocked j (heap w)) w') ∧
    ∀ ps, ps ≡ₚ unblocked j (heap w) →
      ∃ w'', for_range StartJob ps w' = Ok tt w'' ∧
        if closed (proc w) then w'' = w'
        else
          sendq (sequentialjobs (proc w'')) =
            sendq (sequentialjobs (proc w))
            ++ filter (λ p, wants_sequential (heap w) p = true) ps ∧
          sendq (backgroundJobs (proc w'')) =
            sendq (backgroundJobs (proc w))
            ++ filter (λ p, wants_sequential (heap w) p = false) ps.
Proof.
  intros Hj.
  destruct (executeJob_Ok started completed job j w Hj) as (j3 & Hj3 & Hsame & Hexec).
  cbv zeta in Hexec.
  set (err := (Perform (job_task j) (manager (proc w))).2) in *.
  set (j2 := completed_job started completed j) in *.
  set (h2 := <[job:=j2]> (heap w)) in *.
  eexists _, _. split; [exact Hexec|].
  assert (unblocked j2 h2 = unblocked j (heap w)) as Hunb
    by (by apply unblocked_completed).
  split_and!.
  - cbn [trace]. done.
  - rewrite !spawned_app, spawned_go, Hunb.
    destruct err; cbn; by rewrite app_nil_r.
  - intros nows H0 H3.
    destruct (run_pc_executeJob nows job j w Hj) as (w1 & Hexec1 & Hrun).
    rewrite H0, H3, Hexec in Hexec1. injection Hexec1 as <-. exact Hrun.
  - intros ps Hps.
    match type of Hexec with _ = Ok tt ?x => set (w' := x) in * end.
    assert (∀ p, p ∈ ps → is_Some (heap w !! p)) as Hvalid.
    { intros p Hp. apply (unblocked_valid j). by rewrite <-Hps. }
    assert (∀ p pj, heap w !! p = Some pj →
              ∃ pj', heap w' !! p = Some pj' ∧ job_task pj' = job_task pj) as Htasks.
    { intros p pj Hp.
      exact (executeJob_tasks started completed job j w w' p pj Hj Hexec Hp). }
    destruct (closed (proc w)) eqn:Hclosed.
    + exists w'. split; [|done].
      clear Hvalid Hps. induction ps as [|p ps IH]; [done|].
      cbn [for_range]. unfold mbind, M_bind. by rewrite StartJob_closed.
    + destruct (for_range_StartJob ps w') as (w'' & Hw'' & _ & _ & Hs & Hb); [done| |].
      { intros p Hp. destruct (Hvalid p Hp) as [pj Hpj].
        destruct (Htasks p pj Hpj) as (pj' & ? & _). by eexists. }
      exists w''. split; [exact Hw''|]. rewrite Hs, Hb. cbn [w' proc sequentialjobs
        backgroundJobs set_jobTable set_manager].
      split; f_equal; apply filter_ext_in; intros p Hp;
        by rewrite (wants_sequential_tasks (heap w) (heap w') p); auto.
Qed.

End Resubmission.

(** * The properties on the sample worlds *)

Example nil_task_on_fresh_world :
  PushJob T0 None fresh_world = Panic "passed nil job!".
Proof. reflexivity. Qed.

Lemma job_id_least_free_counter_witness :
  Z.of_nat (size (jobTable (proc family_world))) < 2 ^ 63 ∧
  ∃ job w' j counter,
    pushJobInternal T0 (Some DeltaTask) family_world = Ok job w' ∧
    heap w' !! job = Some j ∧
    job_id j = kind DeltaTask +:+ "-" +:+ pretty (Unix T0) +:+ "-" +:+ pretty counter ∧
    0 ≤ counter ∧
    jobTable (proc family_world) !! job_id j = None ∧
    ∀ k, 0 ≤ k < counter →
      is_Some (jobTable (proc family_world) !! Sprintf_id (kind DeltaTask) (Unix T0) k).
Proof.
  assert (Z.of_nat (size (jobTable (proc family_world))) < 2 ^ 63) as H
    by (vm_compute; reflexivity).
  split; [exact H|]. exact (job_id_least_free_counter T0 DeltaTask family_world H).
Defined.

(** In [family_world] the ID with counter 0 is taken by the child, and the
    next delta job of that second gets counter 1. *)
Example second_delta_gets_counter_1 :
  job_id <$> heap (exec (PushJobLater T0 (Some DeltaTask)) family_world) !! 2%nat
  = Some "DeltaTask-1500000000-1".
Proof. vm_compute. reflexivity. Qed.

Lemma PushJobLater_registers_witness :
  closed (proc family_at_work) = false ∧
  Z.of_nat (size (jobTable (proc family_at_work))) < 2 ^ 63 ∧
  sendq (sequentialjobs (proc family_at_work)) = [] ∧
  sendq (backgroundJobs (proc family_at_work)) = [] ∧
  Submit.leaves_alone logging_hook ∧
  ∃ job w' j,
    Submit.PushJobLater logging_hook T0 (Submit.TaskPointer ImportTask) family_at_work
      = Ok job w' ∧
    heap family_at_work !! job = None ∧
    heap w' !! job = Some j ∧
    job_task j = ImportTask ∧
    (∃ counter, job_id j = Sprintf_id (kind ImportTask) (Unix T0) counter) ∧
    Created (job_timing j) = Some T0 ∧
    job_status j = StatusPending ∧
    jobTable (proc family_at_work) !! job_id j = None ∧
    jobTable (proc w') = <[job_id j:=job]> (jobTable (proc family_at_work)) ∧
    sequentialjobs (proc w') = sequentialjobs (proc family_at_work) ∧
    backgroundJobs (proc w') = backgroundJobs (proc family_at_work).
Proof.
  assert (closed (proc family_at_work) = false) as Hopen by (vm_compute; reflexivity).
  assert (Z.of_nat (size (jobTable (proc family_at_work))) < 2 ^ 63) as H
    by (vm_compute; reflexivity).
  assert (sendq (sequentialjobs (proc family_at_work)) = []) as Hs by reflexivity.
  assert (sendq (backgroundJobs (proc family_at_work)) = []) as Hb by reflexivity.
  assert (Submit.leaves_alone logging_hook) as Hhook.
  { intros w. eexists. split_and!; reflexivity. }
  split; [exact Hopen|]. split; [exact H|]. split; [exact Hs|]. split; [exact Hb|].
  split; [exact Hhook|].
  exact (PushJobLater_registers logging_hook T0 ImportTask family_at_work
           Hopen H Hs Hb Hhook).
Defined.

(** The import that is submitted in [family_at_work] gets the counter 1:
    the parent of the family holds the counter 0 of that second. A task
    that is passed by value makes [PushJobLater] panic, and while the send
    of [family_world] waits the write lock is not granted. *)
Example PushJobLater_on_samples :
  (∃ w', Submit.PushJobLater logging_hook T0 (Submit.TaskPointer ImportTask) family_at_work
         = Ok 2%nat w' ∧
         jobTable (proc w') !! "ImportTask-1500000000-1" = Some 2%nat) ∧
  Submit.PushJobLater logging_hook T0 Submit.TaskValue family_at_work
    = Panic "reflect: Elem of invalid type" ∧
  Submit.PushJobLater logging_hook T0 (Submit.TaskPointer ImportTask) family_world = Spin.
Proof.
  split_and!; [eexists; split; vm_compute; reflexivity|reflexivity|vm_compute; reflexivity].
Qed.

(** C5 as stated fails on a closed processor: [PushJobLater] returns a job
    that is not in the job table. *)
Lemma PushJobLater_closed_counterexample :
  ∃ job w',
    PushJobLater T0 (Some ImportTask) closed_world = Ok job w' ∧
    ¬ in_table w' job.
Proof.
  eexists _, _. split; [vm_compute; reflexivity|].
  intros [k Hk]. vm_compute in Hk. discriminate Hk.
Qed.

Lemma push_on_closed_witness :
  closed (proc closed_world) = true ∧
  Z.of_nat (size (jobTable (proc closed_world))) < 2 ^ 63 ∧
  ∃ job w' j,
    PushJobLater T0 (Some ImportTask) closed_world = Ok job w' ∧
    PushJob T0 (Some ImportTask) closed_world = Ok job w' ∧
    trace w' = trace closed_world ++
               [EvCreated job T0; EvStatus job StatusPending; EvInit job] ∧
    heap w' = heap closed_world ++ [j] ∧
    heap w' !! job = Some j ∧
    job_task j = ImportTask ∧
    (∃ counter, job_id j = Sprintf_id (kind ImportTask) (Unix T0) counter) ∧
    Created (job_timing j) = Some T0 ∧
    job_status j = StatusPending ∧
    jobTable (proc w') = jobTable (proc closed_world) ∧
    sequentialjobs (proc w') = sequentialjobs (proc closed_world) ∧
    backgroundJobs (proc w') = backgroundJobs (proc closed_world).
Proof.
  assert (closed (proc closed_world) = true) as Hclosed by (vm_compute; reflexivity).
  assert (Z.of_nat (size (jobTable (proc closed_world))) < 2 ^ 63) as H
    by (vm_compute; reflexivity).
  split; [exact Hclosed|]. split; [exact H|].
  exact (push_on_closed T0 ImportTask closed_world Hclosed H).
Defined.

Lemma executeJob_sets_terminal_status_once_witness :
  heap one_job_world !! 0%nat = Some (created_job T0 DeltaTask 0) ∧
  ∃ w' j' evs1 evs2 evs3,
    executeJob (T0 + 1) (T0 + 2) 0%nat one_job_world = Ok tt w' ∧
    heap w' !! 0%nat = Some j' ∧
    job_status j' =
      final_status (Perform (job_task (created_job T0 DeltaTask 0))
                      (manager (proc one_job_world))).2 ∧
    Completed (job_timing j') = Some (T0 + 2) ∧
    trace w' =
      trace one_job_world ++ evs1 ++ [EvCompleted 0%nat (T0 + 2)] ++ evs2 ++
      [EvStatus 0%nat (job_status j')] ++ evs3 ∧
    terminal (job_status j') = true ∧
    (∀ q s, EvStatus q s ∈ evs1 ++ evs2 ++ evs3 → terminal s = false) ∧
    (∀ q tm, EvCompleted q tm ∉ evs1 ++ evs2 ++ evs3).
Proof.
  assert (heap one_job_world !! 0%nat = Some (created_job T0 DeltaTask 0)) as H
    by reflexivity.
  split; [exact H|].
  exact (executeJob_sets_terminal_status_once (T0 + 1) (T0 + 2) 0%nat _ one_job_world H).
Defined.

(** The failing job of [one_job_world] ends Failed, the failure is logged. *)
Example failing_job_ends_failed :
  let w' := exec (executeJob (T0 + 1) (T0 + 2) 0%nat) one_job_world in
  job_status <$> heap w' !! 0%nat = Some StatusFailed ∧
  last (trace w') = Some (EvLog "DeltaTask-1500000000-0" "DeltaTask" "delta failed").
Proof. vm_compute. split; reflexivity. Qed.

Lemma executeJob_resubmits_unblocked_parents_witness :
  heap family_at_work !! 1%nat
    = Some (set_parents [0%nat] (created_job T0 DeltaTask 0)) ∧
  ∃ w' evs,
    executeJob (T0 + 1) (T0 + 2) 1%nat family_at_work = Ok tt w' ∧
    trace w' = trace family_at_work ++ evs ∧
    spawned evs =
      GoStartJob <$> unblocked (set_parents [0%nat] (created_job T0 DeltaTask 0))
                       (heap family_at_work) ∧
    (∀ nows, nows 0%nat = T0 + 1 → nows 3%nat = T0 + 2 →
       run_pc 8 nows (PcExec 1%nat) family_at_work =
         Ok (PcDone,
             PcStart <$> unblocked (set_parents [0%nat] (created_job T0 DeltaTask 0))
                           (heap family_at_work)) w') ∧
    ∀ ps, ps ≡ₚ unblocked (set_parents [0%nat] (created_job T0 DeltaTask 0))
                  (heap family_at_work) →
      ∃ w'', for_range StartJob ps w' = Ok tt w'' ∧
        if closed (proc family_at_work) then w'' = w'
        else
          sendq (sequentialjobs (proc w'')) =
            sendq (sequentialjobs (proc family_at_work))
            ++ filter (λ p, wants_sequential (heap family_at_work) p = true) ps ∧
          sendq (backgroundJobs (proc w'')) =
            sendq (backgroundJobs (proc family_at_work))
            ++ filter (λ p, wants_sequential (heap family_at_work) p = false) ps.
Proof.
  assert (heap family_at_work !! 1%nat
          = Some (set_parents [0%nat] (created_job T0 DeltaTask 0))) as H
    by reflexivity.
  split; [exact H|].
  exact (executeJob_resubmits_unblocked_parents (T0 + 1) (T0 + 2) 1%nat _ family_at_work H).
Defined.

(** In [family_at_work] the failing child unblocks its parent, the import,
    and the goroutine that is started for it offers it on the sequential
    lane. *)
Example failed_child_offers_parent :
  let w' := exec (executeJob (T0 + 1) (T0 + 2) 1%nat) family_at_work in
  unblocked (set_parents [0%nat] (created_job T0 DeltaTask 0)) (heap family_at_work)
    = [0%nat] ∧
  job_status <$> heap w' !! 1%nat = Some StatusFailed ∧
  sendq (sequentialjobs (proc (exec (for_range StartJob [0%nat]) w'))) = [0%nat] ∧
  sendq (backgroundJobs (proc (exec (for_range StartJob [0%nat]) w'))) = [].
Proof. vm_compute. split_and!; reflexivity. Qed.

(** The child of [family_world] fails; its parent, which waited on nothing
    else, is started all the same and lands on the sequential lane. *)
Example failed_child_starts_parent :
  let w' := exec (executeJob (T0 + 1) (T0 + 2) 1%nat) family_world in
  job_status <$> heap w' !! 1%nat = Some StatusFailed ∧
  spawned (drop (length (trace family_world)) (trace w')) = [GoStartJob 0%nat] ∧
  sendq (sequentialjobs (proc (exec (StartJob 0%nat) w'))) = [0%nat].
Proof. vm_compute. split_and!; reflexivity. Qed.

(** C4 as stated fails: a second [Begin] on a started processor is not a
    no-op, it starts a second sequential pump and a second background
    pool. *)
Lemma Begin_twice_counterexample :
  ∃ w1 w2,
    Begin fresh_world = Ok tt w1 ∧ Begin w1 = Ok tt w2 ∧ w2 ≠ w1 ∧
    spawned (trace w1) = [GoSequentialQueue; GoBackgroundQueue] ∧
    spawned (trace w2) =
      [GoSequentialQueue; GoBackgroundQueue; GoSequentialQueue; GoBackgroundQueue] ∧
    wg (proc w2) = 4.
Proof.
  eexists _, _.
  split_and!; [vm_compute; reflexivity|vm_compute; reflexivity| |reflexivity|reflexivity|reflexivity].
  intros Heq. apply (f_equal (λ w, length (trace w))) in Heq. vm_compute in Heq.
  discriminate Heq.
Qed.

(** C3 as stated fails: the first job of [reuse_world] has completed and
    left the table when the second is created, within the same second, and
    the second gets the first one's ID. *)
Lemma job_id_reused_counterexample : ¬ ids_unique reuse_world.
Proof.
  intros Huniq.
  assert (∃ j j', heap reuse_world !! 0%nat = Some j ∧
                  heap reuse_world !! 1%nat = Some j' ∧
                  job_id j = job_id j') as (j & j' & H0 & H1 & Hid).
  { vm_compute. eexists _, _. split_and!; reflexivity. }
  by apply (Huniq 0%nat 1%nat j j' H0 H1).
Qed.

Example reuse_world_ids :
  job_id <$> heap reuse_world = ["ImportTask-1500000000-0"; "ImportTask-1500000000-0"].
Proof. vm_compute. reflexivity. Qed.

Lemma consecutive_submissions_get_distinct_ids_witness :
  closed (proc fresh_world) = false ∧
  Z.of_nat (size (jobTable (proc fresh_world))) + Z.of_nat (length thousand_imports)
    ≤ 2 ^ 63 ∧
  ∃ jobs w',
    submit_all thousand_imports fresh_world = Ok jobs w' ∧
    length jobs = length thousand_imports ∧
    (∀ i p, jobs !! i = Some p →
       ∃ j, heap w' !! p = Some j ∧ jobTable (proc fresh_world) !! job_id j = None) ∧
    (∀ i i' p p' j j',
       jobs !! i = Some p → jobs !! i' = Some p' → i ≠ i' →
       heap w' !! p = Some j → heap w' !! p' = Some j' →
       p ≠ p' ∧ job_id j ≠ job_id j').
Proof.
  assert (closed (proc fresh_world) = false) as Hopen by reflexivity.
  assert (Z.of_nat (size (jobTable (proc fresh_world)))
          + Z.of_nat (length thousand_imports) ≤ 2 ^ 63) as H
    by (vm_compute; discriminate).
  split; [exact Hopen|]. split; [exact H|].
  exact (consecutive_submissions_get_distinct_ids thousand_imports fresh_world Hopen H).
Defined.

Lemma live_jobs_are_pending_or_running_witness :
  reachable (init_system 4 tt 2) sample_system ∧
  (∀ k p, jobTable (proc (world sample_system)) !! k = Some p →
     ∃ j, heap (world sample_system) !! p = Some j ∧ job_id j = k ∧
          (job_status j = StatusPending ∨ job_status j = StatusRunning)) ∧
  (∀ i start job, threads sample_system !! i = Some (PcPushInsert start job) →
     ∃ j, heap (world sample_system) !! job = Some j ∧ job_status j = StatusPending) ∧
  (∀ i job err k, threads sample_system !! i = Some (PcExecReport job err) →
     jobTable (proc (world sample_system)) !! k ≠ Some job).
Proof.
  assert (reachable (init_system 4 tt 2) sample_system) as H.
  { apply (schedule_reachable sample_choices). vm_compute. reflexivity. }
  split; [exact H|].
  exact (live_jobs_are_pending_or_running 4 tt 2 sample_system H).
Defined.

(** In [sample_system] the import is about to become Success and is out of
    the table; the delta job is in the table, Pending. *)
Example sample_system_state :
  threads sample_system !! 1%nat = Some (PcExecReport 0%nat None) ∧
  map_to_list (jobTable (proc (world sample_system))) = [("DeltaTask-1500000000-0", 1%nat)] ∧
  job_status <$> heap (world sample_system) = [StatusRunning; StatusPending].
Proof. vm_compute. split_and!; reflexivity. Qed.

(** * Further properties of the operations *)

Section Operations.
Context {Manager : Type}.
Implicit Types (w : @World Manager) (j : @Job Manager) (t : @Runnable Manager).



(** X4: [executeJob] removes the row stored under the job's ID from the job
    table and no other row (it removes that row even when it points to
    another job, and removes nothing when there is no such row); it leaves
    both lanes, the closed flag, the WaitGroup and the quit tokens as they
    were, and the manager is the one [Perform] returned when given the
    manager of before. *)
Theorem executeJob_releases_id started completed job j w :
  heap w !! job = Some j →
  ∃ w', executeJob started completed job w = Ok tt w' ∧
    jobTable (proc w') = delete (job_id j) (jobTable (proc w)) ∧
    jobTable (proc w') !! job_id j = None ∧
    (∀ k, k ≠ job_id j → jobTable (proc w') !! k = jobTable (proc w) !! k) ∧
    manager (proc w') = (Perform (job_task j) (manager (proc w))).1 ∧
    sequentialjobs (proc w') = sequentialjobs (proc w) ∧
    backgroundJobs (proc w') = backgroundJobs (proc w) ∧
    closed (proc w') = closed (proc w) ∧
    wg (proc w') = wg (proc w) ∧ quit (proc w') = quit (proc w).
Proof.
  intros Hj.
  destruct (executeJob_Ok started completed job j w Hj) as (j3 & _ & _ & Hexec).
  cbv zeta in Hexec. eexists. split; [exact Hexec|]. wsimpl. cbn.
  split_and!; try done.
  - apply lookup_delete_eq.
  - intros k Hk. by apply lookup_delete_ne.
Qed.

(** X5: [executeJob] writes one log record if [Perform] returned an error,
    with the job's ID, the kind of its task and the error, and none if it
    returned nil. *)
Theorem executeJob_logs_failure started completed job j w :
  heap w !! job = Some j →
  ∃ w' evs,
    executeJob started completed job w = Ok tt w' ∧
    trace w' = trace w ++ evs ∧
    omap (λ e, match e with EvLog id ty msg => Some (id, ty, msg) | _ => None end) evs =
      match (Perform (job_task j) (manager (proc w))).2 with
      | Some e => [(job_id j, kind (job_task j), e)]
      | None => []
      end.
Proof.
  intros Hj.
  destruct (executeJob_Ok started completed job j w Hj) as (j3 & _ & _ & Hexec).
  cbv zeta in Hexec. eexists _, _. split; [exact Hexec|]. wsimpl.
  split; [done|].
  rewrite !omap_app.
  assert (∀ ps : list nat,
            omap (λ e : Event, match e with
                               | EvLog id ty msg => Some (id, ty, msg)
                               | _ => None
                               end) (EvGo ∘ GoStartJob <$> ps) = []) as ->.
  { induction ps as [|p ps IH]; [done|]. done. }
  by destruct (Perform (job_task j) (manager (proc w))).2.
Qed.


End Operations.

(** * The pump and the workers *)

Section Keeps.
Context {Manager : Type}.
Implicit Types (w : @World Manager) (j : @Job Manager) (t : @Runnable Manager).

(** ** Counting *)

Lemma count_app {A} (f : A → bool) (l1 l2 : list A) :
  count f (l1 ++ l2) = (count f l1 + count f l2)%nat.
Proof. induction l1 as [|x l1 IH]; cbn; [done|]. rewrite IH. lia. Qed.

Lemma count_insert {A} (f : A → bool) (l : list A) i x y :
  l !! i = Some x →
  (count f (<[i:=y]> l) + (if f x then 1 else 0)
   = count f l + (if f y then 1 else 0))%nat.
Proof.
  revert i. induction l as [|z l IH]; intros [|i] Hi; try done.
  - injection Hi as ->. change (<[0%nat:=y]> (x :: l)) with (y :: l). cbn [count].
    destruct (f x), (f y); lia.
  - specialize (IH i Hi). revert IH.
    change (<[S i:=y]> (z :: l)) with (z :: <[i:=y]> l). cbn [count].
    destruct (f x), (f y), (f z); lia.
Qed.

Lemma count_insert_same {A} (f : A → bool) (l : list A) i x y :
  l !! i = Some x → f y = f x → count f (<[i:=y]> l) = count f l.
Proof.
  intros Hi Hf. pose proof (count_insert f l i x y Hi) as H. revert H.
  rewrite Hf. destruct (f x); lia.
Qed.

Lemma count_replicate {A} (f : A → bool) n x :
  count f (replicate n x) = (if f x then n else 0%nat).
Proof. induction n as [|n IH]; cbn; rewrite ?IH; by destruct (f x). Qed.

Lemma count_le {A} (f g : A → bool) (l : list A) :
  (∀ x, f x = true → g x = true) → (count f l ≤ count g l)%nat.
Proof.
  intros Hfg. induction l as [|x l IH]; cbn [count]; [done|].
  destruct (f x) eqn:Hf; [rewrite (Hfg x Hf)|destruct (g x)]; lia.
Qed.

(** ** Operations that leave the lifecycle state alone *)

Lemma begun_emit e w :
  begun (emit e w) =
    (begun w + match e with EvGo GoSequentialQueue => 1 | _ => 0 end)%nat.
Proof.
  unfold begun. cbn. rewrite count_app. cbn.
  destruct e as [| | | | | | |[]]; lia.
Qed.

Lemma keeps_ret {A} (a : A) : keeps (mret a : @M Manager A).
Proof. by intros w a' w' [= <- <-]. Qed.

Lemma keeps_bind {A B} (m : @M Manager A) (k : A → M B) :
  keeps m → (∀ a, keeps (k a)) → keeps (m ≫= k).
Proof.
  intros Hm Hk w b w'. unfold mbind, M_bind.
  destruct (m w) as [a w1| |] eqn:Hmw; [|done..].
  intros Hkw. rewrite (Hk a _ _ _ Hkw). by eapply Hm.
Qed.

Lemma keeps_panic {A} msg : keeps (panic msg : @M Manager A).
Proof. by intros w a w'. Qed.

Lemma keeps_spin {A} : keeps (spin : @M Manager A).
Proof. by intros w a w'. Qed.

Lemma keeps_get : keeps (get : @M Manager _).
Proof. by intros w a w' [= <- <-]. Qed.

Lemma keeps_load p : keeps (load p : @M Manager _).
Proof. intros w a w'. unfold load. destruct (heap w !! p); [|done]. by intros [= <- <-]. Qed.

Lemma keeps_modify (f : @World Manager → World) :
  (∀ w, obs (f w) = obs w) → keeps (modify f).
Proof. intros Hf w a w' [= <- <-]. apply Hf. Qed.

Lemma keeps_set_heap (f : list (@Job Manager) → list Job) : keeps (modify (set_heap f)).
Proof. by apply keeps_modify. Qed.

Lemma keeps_emit e :
  match e with EvGo GoSequentialQueue => False | _ => True end →
  keeps (modify (emit e : @World Manager → World)).
Proof.
  intros He. apply keeps_modify. intros w. unfold obs. rewrite begun_emit.
  cbn. destruct e as [| | | | | | |[]]; try done; by rewrite Nat.add_0_r.
Qed.

Lemma keeps_store p (f : @Job Manager → Job) : keeps (store p f).
Proof. apply keeps_bind; [apply keeps_load|]. intros j. apply keeps_set_heap. Qed.

Lemma keeps_write_status p st : keeps (write_status p st : @M Manager _).
Proof.
  apply keeps_bind; [apply keeps_store|]. intros _. by apply keeps_emit.
Qed.

Lemma keeps_for_range {A} (f : A → @M Manager unit) xs :
  (∀ x, keeps (f x)) → keeps (for_range f xs).
Proof.
  intros Hf. induction xs as [|x xs IH]; cbn; [apply keeps_ret|].
  apply keeps_bind; auto.
Qed.

Lemma keeps_go g :
  g ≠ GoSequentialQueue → keeps (go g : @M Manager _).
Proof. intros Hg. apply keeps_emit. by destruct g. Qed.

Lemma keeps_NotifyDone job : keeps (NotifyDone job : @M Manager _).
Proof.
  apply keeps_bind; [apply keeps_load|]. intros j.
  apply keeps_bind; [apply keeps_get|]. intros w.
  destruct (notify_parents (job_parents j) (heap w)) as [r h'].
  apply keeps_bind; [apply keeps_set_heap|]. intros _. apply keeps_ret.
Qed.

Lemma keeps_popJob job : keeps (popJob job : @M Manager _).
Proof.
  apply keeps_bind; [apply keeps_load|]. intros j. by apply keeps_modify.
Qed.

Lemma keeps_reportError job e : keeps (reportError job e : @M Manager _).
Proof.
  apply keeps_bind; [apply keeps_write_status|]. intros _.
  apply keeps_bind; [apply keeps_load|]. intros j. by apply keeps_emit.
Qed.

Lemma keeps_StartJob job : keeps (StartJob job : @M Manager _).
Proof.
  apply keeps_bind; [apply keeps_get|]. intros w.
  destruct (closed (proc w)); [apply keeps_ret|].
  apply keeps_bind; [apply keeps_load|]. intros j.
  destruct (IsSequential (job_task j)); by apply keeps_modify.
Qed.

Lemma keeps_initMetadata now job : keeps (initMetadata now job : @M Manager _).
Proof.
  apply keeps_bind; [apply keeps_store|]. intros _.
  apply keeps_bind; [by apply keeps_emit|]. intros _.
  apply keeps_bind; [apply keeps_write_status|]. intros _.
  apply keeps_bind; [apply keeps_load|]. intros j.
  apply keeps_bind; [apply keeps_get|]. intros w.
  cbv zeta.
  match goal with |- keeps (match ?x with _ => _ end) => destruct x end;
    [apply keeps_store|apply keeps_spin].
Qed.

Lemma keeps_alloc j : keeps (alloc j : @M Manager _).
Proof.
  apply keeps_bind; [apply keeps_get|]. intros w.
  apply keeps_bind; [apply keeps_set_heap|]. intros _. apply keeps_ret.
Qed.

Lemma keeps_add_dependency child parent :
  keeps (add_dependency child parent : @M Manager _).
Proof. apply keeps_bind; [apply keeps_store|]. intros _. apply keeps_store. Qed.

(** No step of [pushJobInternal], [StartJob] or [executeJob] touches the
    lifecycle state. *)
Lemma keeps_step_pc now (pc : @Pc Manager) : keeps (step_pc now pc).
Proof.
  destruct pc as [start [t|]|start job|start job|job|job|job|job|job err|job err
                 |job err parents|job err|job err|]; cbn [step_pc].
  - apply keeps_bind; [apply keeps_alloc|]. intros job.
    apply keeps_bind; [apply keeps_initMetadata|]. intros _. apply keeps_ret.
  - apply keeps_panic.
  - apply keeps_bind; [by apply keeps_emit|]. intros _. apply keeps_ret.
  - apply keeps_bind; [apply keeps_get|]. intros w.
    apply keeps_bind; [|intros _; apply keeps_ret].
    destruct (closed (proc w)); [apply keeps_ret|].
    apply keeps_bind; [apply keeps_load|]. intros j. by apply keeps_modify.
  - apply keeps_bind; [apply keeps_StartJob|]. intros _. apply keeps_ret.
  - apply keeps_bind; [apply keeps_store|]. intros _.
    apply keeps_bind; [by apply keeps_emit|]. intros _. apply keeps_ret.
  - apply keeps_bind; [apply keeps_write_status|]. intros _. apply keeps_ret.
  - apply keeps_bind; [apply keeps_load|]. intros j.
    apply keeps_bind; [apply keeps_get|]. intros w.
    destruct (Perform (job_task j) (manager (proc w))) as [m err].
    apply keeps_bind; [by apply keeps_modify|]. intros _.
    apply keeps_bind; [by apply keeps_emit|]. intros _. apply keeps_ret.
  - apply keeps_bind; [apply keeps_store|]. intros _.
    apply keeps_bind; [by apply keeps_emit|]. intros _. apply keeps_ret.
  - apply keeps_bind; [apply keeps_NotifyDone|]. intros ps. apply keeps_ret.
  - apply keeps_bind; [|intros _; apply keeps_ret].
    apply keeps_for_range. intros p. by apply keeps_go.
  - apply keeps_bind; [apply keeps_popJob|]. intros _. apply keeps_ret.
  - apply keeps_bind; [|intros _; apply keeps_ret].
    destruct err; [apply keeps_reportError|apply keeps_write_status].
  - apply keeps_ret.
Qed.

End Keeps.

Section DaemonInvariant.
Context {Manager : Type}.
Variable NumCPU : Z.
Implicit Types (w : @World Manager) (d : @Daemon Manager) (wk : @Worker Manager).

Lemma total_app {A} (f : A → Z) (l1 l2 : list A) :
  total f (l1 ++ l2) = total f l1 + total f l2.
Proof. induction l1 as [|x l1 IH]; cbn [total app]; [done|]. rewrite IH. lia. Qed.

Lemma total_insert {A} (f : A → Z) (l : list A) i x y :
  l !! i = Some x → total f (<[i:=y]> l) + f x = total f l + f y.
Proof.
  revert i. induction l as [|z l IH]; intros [|i] Hi; try done.
  - injection Hi as ->. change (<[0%nat:=y]> (x :: l)) with (y :: l). cbn [total]. lia.
  - specialize (IH i Hi). revert IH.
    change (<[S i:=y]> (z :: l)) with (z :: <[i:=y]> l). cbn [total]. lia.
Qed.

Lemma total_nonneg {A} (f : A → Z) (l : list A) :
  Forall (λ x, 0 ≤ f x) l → 0 ≤ total f l.
Proof. induction 1; cbn [total]; lia. Qed.

Lemma owed_nonneg n (ws : list (@Worker Manager)) :
  Forall (loop_ok n) ws → 0 ≤ total (owed n) ws.
Proof.
  intros H. apply total_nonneg. eapply Forall_impl; [exact H|].
  intros [?|[i|]|?|]; cbn; lia.
Qed.

Lemma unstarted_nonneg n (ws : list (@Worker Manager)) :
  0 ≤ n → Forall (loop_ok n) ws → 0 ≤ total (unstarted n) ws.
Proof.
  intros Hn H. apply total_nonneg. eapply Forall_impl; [exact H|].
  intros [?|[i|]|?|]; cbn; lia.
Qed.

(** What a step of the worker at [i] does to the counts. *)
Lemma workers_step (ws ws' : list (@Worker Manager)) i wk wk' n :
  ws !! i = Some wk →
  let b (f : Worker → bool) x := Z.of_nat (if f x then 1 else 0) in
  let ws1 := <[i:=wk']> ws ++ ws' in
  Z.of_nat (count live ws1) =
    Z.of_nat (count live ws) - b live wk + b live wk' + Z.of_nat (count live ws') ∧
  Z.of_nat (count is_sequential_pump ws1) =
    Z.of_nat (count is_sequential_pump ws) - b is_sequential_pump wk
    + b is_sequential_pump wk' + Z.of_nat (count is_sequential_pump ws') ∧
  Z.of_nat (count is_background_worker ws1) =
    Z.of_nat (count is_background_worker ws) - b is_background_worker wk
    + b is_background_worker wk' + Z.of_nat (count is_background_worker ws') ∧
  total (owed n) ws1 = total (owed n) ws - owed n wk + owed n wk' + total (owed n) ws' ∧
  total (unstarted n) ws1 =
    total (unstarted n) ws - unstarted n wk + unstarted n wk' + total (unstarted n) ws' ∧
  (Forall (loop_ok n) ws → loop_ok n wk' → Forall (loop_ok n) ws' →
   Forall (loop_ok n) ws1).
Proof.
  intros Hi b ws1. subst b ws1. cbv beta.
  rewrite !count_app, !total_app.
  pose proof (count_insert live _ _ _ wk' Hi).
  pose proof (count_insert is_sequential_pump _ _ _ wk' Hi).
  pose proof (count_insert is_background_worker _ _ _ wk' Hi).
  pose proof (total_insert (owed n) _ _ _ wk' Hi).
  pose proof (total_insert (unstarted n) _ _ _ wk' Hi).
  split_and!; try lia.
  intros Ha Hb Hc. apply Forall_app. split; [|done]. by apply Forall_insert.
Qed.

(** The invariant only looks at the lifecycle state and at the pumps and
    workers. *)
Lemma DInv_transfer d d' :
  obs (dworld d') = obs (dworld d) → workers d' = workers d → DInv d → DInv d'.
Proof.
  unfold DInv, obs. intros [= Hwg Hquit Hcl Hn Hs Hb Hbegun] Hws.
  by rewrite Hwg, Hquit, Hcl, Hn, Hs, Hb, Hbegun, Hws.
Qed.

Lemma DInv_init (m : Manager) n :
  0 ≤ NumCPU ≤ int_max → n ≤ int_max → DInv (init_daemon NumCPU m n).
Proof.
  intros HN Hn. unfold DInv, init_daemon, NewProcessor, begun. cbn.
  split_and!; try done; try lia; by destruct (decide (n < 0)); lia.
Qed.

Ltac dinv_finish := split_and!; solve [done | tauto | lia | nia].

Lemma DInv_dstep d d' : DInv d → dstep d d' → DInv d'.
Proof.
  intros HI Hstep.
  destruct Hstep as [d i pc now pc' gs w' Hi Hpc|d i wk now wk' gs ws w' Hi Hwk
                    |d i wk n Hi Hidle Hquit|d start task|d job|d w' Hb|d w' Hc
                    |d child parent w' Hdep].
  - (* a caller *)
    eapply DInv_transfer; [..|exact HI]; [|done].
    by eapply (keeps_step_pc now pc).
  - (* a pump or worker *)
    destruct (workers_step (workers d) ws i wk wk' (njobs (proc (dworld d))) Hi)
      as (Clive & Cseq & Cbgw & Cow & Cun & CF).
    destruct HI as (Hn & Hwg & HF & Hcl & Hseq & Hbg).
    pose proof (Forall_lookup_1 _ _ _ _ HF Hi) as Hok.
    unfold DInv, begun in *. cbn [dworld workers].
    destruct wk as [[pc|]|[k|]|[pc|]|].
    + (* inside executeJob, sequential lane *)
      cbn [worker_step] in Hwk. unfold mbind at 1, M_bind in Hwk.
      destruct (step_pc now pc (dworld d)) as [[pc' gs'] w1| |] eqn:Hpc; [|done..].
      injection Hwk as <- <- <- <-.
      pose proof (keeps_step_pc now pc _ _ _ Hpc) as Hobs.
      unfold obs, begun in Hobs. injection Hobs as -> -> -> -> -> -> ->.
      specialize (CF HF I ltac:(constructor)). cbn in *. dinv_finish.
    + (* the select of the sequential pump *)
      cbn [worker_step] in Hwk. unfold mbind at 1, M_bind, get in Hwk.
      destruct (chan_closed (sequentialjobs (proc (dworld d)))) eqn:Hcc.
      * injection Hwk as <- <- <- <-.
        specialize (CF HF I ltac:(constructor)). cbn in *. rewrite ?Hcc. dinv_finish.
      * unfold chan_recv in Hwk. rewrite ?Hcc in Hwk.
        destruct (sendq (sequentialjobs (proc (dworld d)))) as [|p q].
        -- injection Hwk as <- <- <- <-.
           specialize (CF HF I ltac:(constructor)). cbn in *. rewrite ?Hcc. dinv_finish.
        -- injection Hwk as <- <- <- <-.
           specialize (CF HF I ltac:(constructor)). cbn in *. rewrite ?Hcc. dinv_finish.
    + (* the loop of processBackgroundQueue *)
      cbn [worker_step] in Hwk. unfold mbind at 1, M_bind, get in Hwk.
      cbn [loop_ok] in Hok.
      destruct (decide (k < njobs (proc (dworld d)))) as [Hlt|Hge].
      * injection Hwk as <- <- <- <-.
        rewrite int_wrap_id in * by (unfold int_min, int_max in *; lia).
        assert (loop_ok (njobs (proc (dworld d))) (@WBackgroundQueue Manager (Some (k + 1))))
          as Hok' by (cbn; lia).
        specialize (CF HF Hok' ltac:(by repeat constructor)).
        cbn in *. rewrite !count_app in *. cbn in *. dinv_finish.
      * injection Hwk as <- <- <- <-.
        specialize (CF HF I ltac:(constructor)). cbn in *. dinv_finish.
    + (* processBackgroundQueue announces its workers *)
      cbn [worker_step] in Hwk. injection Hwk as <- <- <- <-.
      assert (loop_ok (njobs (proc (dworld d))) (@WBackgroundQueue Manager (Some 0)))
        as Hok' by (cbn; lia).
      specialize (CF HF Hok' ltac:(constructor)). cbn in *. dinv_finish.
    + (* inside executeJob, background lane *)
      cbn [worker_step] in Hwk. unfold mbind at 1, M_bind in Hwk.
      destruct (step_pc now pc (dworld d)) as [[pc' gs'] w1| |] eqn:Hpc; [|done..].
      injection Hwk as <- <- <- <-.
      pose proof (keeps_step_pc now pc _ _ _ Hpc) as Hobs.
      unfold obs, begun in Hobs. injection Hobs as -> -> -> -> -> -> ->.
      specialize (CF HF I ltac:(constructor)). cbn in *. dinv_finish.
    + (* the select of a background worker *)
      cbn [worker_step] in Hwk. unfold mbind at 1, M_bind, get in Hwk.
      destruct (chan_closed (backgroundJobs (proc (dworld d)))) eqn:Hcc.
      * injection Hwk as <- <- <- <-.
        specialize (CF HF I ltac:(constructor)). cbn in *. rewrite ?Hcc. dinv_finish.
      * unfold chan_recv in Hwk. rewrite ?Hcc in Hwk.
        destruct (sendq (backgroundJobs (proc (dworld d)))) as [|p q].
        -- injection Hwk as <- <- <- <-.
           specialize (CF HF I ltac:(constructor)). cbn in *. rewrite ?Hcc. dinv_finish.
        -- injection Hwk as <- <- <- <-.
           specialize (CF HF I ltac:(constructor)). cbn in *. rewrite ?Hcc. dinv_finish.
    + (* returned *)
      injection Hwk as <- <- <- <-.
      specialize (CF HF I ltac:(constructor)). cbn in *. dinv_finish.
  - (* a quit token *)
    destruct (workers_step (workers d) [] i wk WExited (njobs (proc (dworld d))) Hi)
      as (Clive & Cseq & Cbgw & Cow & Cun & CF).
    destruct HI as (Hn & Hwg & HF & Hcl & Hseq & Hbg).
    specialize (CF HF I ltac:(constructor)).
    rewrite app_nil_r in *.
    unfold DInv, begun in *. cbn [dworld workers]. cbn in Hcl. rewrite Hquit in Hcl.
    destruct (closed (proc (dworld d))) eqn:Hclosed;
      [|by destruct Hcl as (_ & _ & ?)].
    destruct wk as [[pc|]|[k|]|[pc|]|]; try done; cbn in *; rewrite ?Hclosed;
      dinv_finish.
  - (* PushJob, PushJobLater *)
    by eapply DInv_transfer; [..|exact HI].
  - (* StartJob *)
    by eapply DInv_transfer; [..|exact HI].
  - (* Begin *)
    rewrite Begin_Ok in Hb. injection Hb as <-.
    destruct HI as (Hn & Hwg & HF & Hcl & Hseq & Hbg).
    unfold DInv, Begin_workers, begun in *. cbn in *.
    destruct (closed (proc (dworld d))) eqn:Hclosed; rewrite ?Hclosed.
    + rewrite app_nil_r. dinv_finish.
    + cbn. rewrite ?Hclosed, !count_app, !total_app. cbn.
      assert (Forall (loop_ok (njobs (proc (dworld d))))
                (workers d ++ [WSequentialQueue None; WBackgroundQueue None]))
        by (apply Forall_app; split; [done|by repeat constructor]).
      dinv_finish.
  - (* Close *)
    rewrite Close_Ok in Hc. injection Hc as <-.
    destruct HI as (Hn & Hwg & HF & Hcl & Hseq & Hbg).
    unfold DInv, begun in *. cbn in *.
    destruct (closed (proc (dworld d))) eqn:Hclosed; rewrite ?Hclosed.
    + dinv_finish.
    + cbn. destruct Hcl as (_ & _ & ->). dinv_finish.
  - (* one job is made to wait on another *)
    eapply DInv_transfer; [..|exact HI]; [|done].
    by eapply (keeps_add_dependency child parent).
Qed.

Lemma DInv_reachable (m : Manager) n d :
  0 ≤ NumCPU ≤ int_max → n ≤ int_max →
  dreachable (init_daemon NumCPU m n) d → DInv d.
Proof.
  intros HN Hn Hr.
  assert (DInv (init_daemon NumCPU m n)) as H0 by by apply DInv_init.
  revert H0. induction Hr as [|x y z Hxy Hyz IH]; [done|].
  intros Hx. apply IH. by eapply DInv_dstep.
Qed.

Lemma drun1_dstep (c : @DChoice Manager) d d' : drun1 c d = Some d' → dstep d d'.
Proof.
  destruct c as [i now|i now|i|start task|job| | |child parent]; cbn [drun1]; intros H.
  - destruct (callers d !! i) as [pc|] eqn:Hi; [|done].
    destruct (step_pc now pc (dworld d)) as [[pc' gs] w'| |] eqn:Hpc; [|done..].
    injection H as <-. by eapply dstep_caller.
  - destruct (workers d !! i) as [wk|] eqn:Hi; [|done].
    destruct (worker_step now wk (dworld d)) as [[[wk' gs] ws] w'| |] eqn:Hwk; [|done..].
    injection H as <-. by eapply dstep_worker.
  - destruct (workers d !! i) as [wk|] eqn:Hi; [|done].
    destruct (quit (proc (dworld d))) as [|n] eqn:Hq; [done|].
    destruct (idle wk) eqn:Hidle; [|done].
    injection H as <-. by eapply dstep_quit.
  - injection H as <-. apply dstep_push.
  - injection H as <-. apply dstep_start.
  - destruct (Begin (dworld d)) as [[] w'| |] eqn:Hb; [|done..].
    injection H as <-. by apply dstep_begin.
  - destruct (Close (dworld d)) as [[] w'| |] eqn:Hc; [|done..].
    injection H as <-. by apply dstep_close.
  - destruct (add_dependency child parent (dworld d)) as [[] w'| |] eqn:Hd; [|done..].
    injection H as <-. by apply (dstep_depend d child parent).
Qed.

Lemma drun_dreachable (cs : list (@DChoice Manager)) d d' :
  drun cs d = Some d' → dreachable d d'.
Proof.
  revert d. induction cs as [|c cs IH]; intros d; cbn [drun].
  - intros [= <-]. apply rtc_refl.
  - destruct (drun1 c d) as [d1|] eqn:H1; [|done]. intros Hs.
    eapply rtc_l; [exact (drun1_dstep c d d1 H1)|by apply IH].
Qed.

Lemma count_zero {A} (f : A → bool) (l : list A) :
  count f l = 0%nat → Forall (λ x, f x = false) l.
Proof.
  induction l as [|x l IH]; cbn [count]; [constructor|].
  destruct (f x) eqn:Hf; [lia|]. intros H. constructor; auto.
Qed.

Lemma dstep_closed d d' :
  dstep d d' →
  njobs (proc (dworld d')) = njobs (proc (dworld d)) ∧
  (closed (proc (dworld d)) = true → closed (proc (dworld d')) = true).
Proof.
  intros Hstep.
  destruct Hstep as [d i pc now pc' gs w' Hi Hpc|d i wk now wk' gs ws w' Hi Hwk
                    |d i wk n Hi Hidle Hquit|d start task|d job|d w' Hb|d w' Hc
                    |d child parent w' Hdep]; cbn [dworld]; try done.
  - pose proof (keeps_step_pc now pc _ _ _ Hpc) as Hobs.
    unfold obs in Hobs. injection Hobs as _ _ -> -> _ _ _. done.
  - destruct wk as [[pc|]|[k|]|[pc|]|]; cbn [worker_step] in Hwk.
    + unfold mbind at 1, M_bind in Hwk.
      destruct (step_pc now pc (dworld d)) as [[pc' gs'] w1| |] eqn:Hpc; [|done..].
      injection Hwk as <- <- <- <-.
      pose proof (keeps_step_pc now pc _ _ _ Hpc) as Hobs.
      unfold obs in Hobs. injection Hobs as _ _ -> -> _ _ _. done.
    + unfold mbind at 1, M_bind, get, chan_recv in Hwk.
      destruct (chan_closed (sequentialjobs (proc (dworld d))));
        [|destruct (sendq (sequentialjobs (proc (dworld d))))];
        by injection Hwk as <- <- <- <-.
    + unfold mbind at 1, M_bind, get in Hwk.
      destruct (decide (k < njobs (proc (dworld d)))); by injection Hwk as <- <- <- <-.
    + by injection Hwk as <- <- <- <-.
    + unfold mbind at 1, M_bind in Hwk.
      destruct (step_pc now pc (dworld d)) as [[pc' gs'] w1| |] eqn:Hpc; [|done..].
      injection Hwk as <- <- <- <-.
      pose proof (keeps_step_pc now pc _ _ _ Hpc) as Hobs.
      unfold obs in Hobs. injection Hobs as _ _ -> -> _ _ _. done.
    + unfold mbind at 1, M_bind, get, chan_recv in Hwk.
      destruct (chan_closed (backgroundJobs (proc (dworld d))));
        [|destruct (sendq (backgroundJobs (proc (dworld d))))];
        by injection Hwk as <- <- <- <-.
    + by injection Hwk as <- <- <- <-.
  - rewrite Begin_Ok in Hb. injection Hb as <-.
    destruct (closed (proc (dworld d))) eqn:E; split; cbn; congruence.
  - rewrite Close_Ok in Hc. injection Hc as <-.
    destruct (closed (proc (dworld d))) eqn:E; split; cbn; congruence.
  - pose proof (keeps_add_dependency child parent _ _ _ Hdep) as Hobs.
    unfold obs in Hobs. injection Hobs as _ _ -> -> _ _ _. done.
Qed.

(** X8: in every state the daemon reaches, the WaitGroup counter is the
    number of pump and worker goroutines that have not returned plus the
    workers a [processBackgroundQueue] has announced with [wg.Add] and not
    started yet. So the counter is zero, and the [wg.Wait()] of [Close] may
    return, only when every pump and worker has returned. *)
Theorem WaitGroup_counts_pumps_and_workers (m : Manager) n d :
  0 ≤ NumCPU ≤ int_max → n ≤ int_max →
  dreachable (init_daemon NumCPU m n) d →
  wg (proc (dworld d)) =
    Z.of_nat (count live (workers d))
    + total (owed (njobs (proc (dworld d)))) (workers d) ∧
  0 ≤ total (owed (njobs (proc (dworld d)))) (workers d) ∧
  (wg (proc (dworld d)) = 0 → Forall (λ wk, wk = WExited) (workers d)).
Proof.
  intros HN Hn Hr.
  destruct (DInv_reachable m n d HN Hn Hr) as (_ & Hwg & HF & _).
  pose proof (owed_nonneg _ _ HF) as Hge.
  split_and!; [done..|].
  intros H0. assert (count live (workers d) = 0%nat) as Hc by lia.
  eapply Forall_impl; [exact (count_zero _ _ Hc)|].
  by intros [?|?|?|].
Qed.

(** X9: the quit channel never holds more tokens than its buffer of
    [njobs+1] takes, so the sends of [Close] do not block; while the
    processor is open the lanes are open and no quit token is around, and
    once it is closed both lanes are closed. *)
Theorem quit_tokens_fit_the_buffer (m : Manager) n d :
  0 ≤ NumCPU ≤ int_max → n ≤ int_max →
  dreachable (init_daemon NumCPU m n) d →
  let P := proc (dworld d) in
  (quit P ≤ Z.to_nat (njobs P + 1))%nat ∧
  chan_closed (sequentialjobs P) = closed P ∧
  chan_closed (backgroundJobs P) = closed P ∧
  (closed P = false → quit P = 0%nat).
Proof.
  intros HN Hn Hr.
  destruct (DInv_reachable m n d HN Hn Hr) as (_ & _ & _ & Hcl & _).
  cbv zeta. destruct (closed (proc (dworld d))).
  - destruct Hcl as (-> & -> & ?). by split_and!.
  - destruct Hcl as (-> & -> & ->). split_and!; [lia|done..].
Qed.

(** X10: once the processor is closed no pump or worker begins another
    job: whatever the daemon does next, the number of goroutines inside
    [executeJob] does not grow on either lane. *)
Theorem no_job_begins_after_Close (m : Manager) n d d' :
  0 ≤ NumCPU ≤ int_max → n ≤ int_max →
  dreachable (init_daemon NumCPU m n) d →
  closed (proc (dworld d)) = true →
  dstep d d' →
  (count executing_sequential (workers d') ≤ count executing_sequential (workers d))%nat ∧
  (count executing_background (workers d') ≤ count executing_background (workers d))%nat.
Proof.
  intros HN Hn Hr Hclosed Hstep.
  destruct (DInv_reachable m n d HN Hn Hr) as (_ & _ & _ & Hcl & _).
  rewrite Hclosed in Hcl. destruct Hcl as (Hs & Hb & _).
  destruct Hstep as [d i pc now pc' gs w' Hi Hpc|d i wk now wk' gs ws w' Hi Hwk
                    |d i wk k Hi Hidle Hquit|d start task|d job|d w' Hbeg|d w' Hc
                    |d child parent w' Hdep]; cbn [workers]; try done.
  - pose proof (count_insert executing_sequential _ _ _ wk' Hi) as C1.
    pose proof (count_insert executing_background _ _ _ wk' Hi) as C2.
    rewrite !count_app. revert C1 C2.
    destruct wk as [[pc|]|[k|]|[pc|]|]; cbn [worker_step] in Hwk.
    + unfold mbind at 1, M_bind in Hwk.
      destruct (step_pc now pc (dworld d)) as [[pc' gs'] w1| |]; [|done..].
      injection Hwk as <- <- <- <-. destruct (after_exec pc'); cbn; lia.
    + unfold mbind at 1, M_bind, get in Hwk. rewrite Hs in Hwk.
      injection Hwk as <- <- <- <-. cbn. lia.
    + unfold mbind at 1, M_bind, get in Hwk.
      destruct (decide (k < njobs (proc (dworld d))));
        injection Hwk as <- <- <- <-; cbn; lia.
    + injection Hwk as <- <- <- <-. cbn. lia.
    + unfold mbind at 1, M_bind in Hwk.
      destruct (step_pc now pc (dworld d)) as [[pc' gs'] w1| |]; [|done..].
      injection Hwk as <- <- <- <-. destruct (after_exec pc'); cbn; lia.
    + unfold mbind at 1, M_bind, get in Hwk. rewrite Hb in Hwk.
      injection Hwk as <- <- <- <-. cbn. lia.
    + injection Hwk as <- <- <- <-. cbn. lia.
  - pose proof (count_insert executing_sequential _ _ _ WExited Hi) as C1.
    pose proof (count_insert executing_background _ _ _ WExited Hi) as C2.
    revert C1 C2. cbn. lia.
  - unfold Begin_workers. rewrite Hclosed, app_nil_r. done.
Qed.

(** X11: on each lane no more jobs are inside [executeJob] at a time than
    [Begin] has started goroutines for: as many sequential jobs as [Begin]
    was called on the open processor, and [njobs] times as many background
    jobs. With the one call of [Begin] the daemon makes, the sequential
    lane runs one job at a time. *)
Theorem lanes_run_bounded_jobs (m : Manager) n d :
  0 ≤ NumCPU ≤ int_max → n ≤ int_max →
  dreachable (init_daemon NumCPU m n) d →
  (count executing_sequential (workers d) ≤ begun (dworld d))%nat ∧
  Z.of_nat (count executing_background (workers d))
    ≤ njobs (proc (dworld d)) * Z.of_nat (begun (dworld d)).
Proof.
  intros HN Hn Hr.
  destruct (DInv_reachable m n d HN Hn Hr) as (Hnj & _ & HF & _ & Hseq & Hbg).
  pose proof (unstarted_nonneg _ _ (proj1 Hnj) HF) as Hge.
  pose proof (count_le executing_sequential is_sequential_pump (workers d)) as H1.
  pose proof (count_le executing_background is_background_worker (workers d)) as H2.
  split.
  - etrans; [apply H1|done]. by intros [[?|]|?|?|].
  - assert (count executing_background (workers d)
            ≤ count is_background_worker (workers d))%nat; [|lia].
    apply H2. by intros [?|?|[?|]|].
Qed.

(** X12: a closed processor stays closed, with both lanes closed, whatever
    the callers, pumps and workers do afterwards, and the number of
    background workers per [Begin] never changes. *)
Theorem closed_is_permanent (m : Manager) n d d' :
  0 ≤ NumCPU ≤ int_max → n ≤ int_max →
  dreachable (init_daemon NumCPU m n) d →
  dreachable d d' →
  njobs (proc (dworld d')) = njobs (proc (dworld d)) ∧
  (closed (proc (dworld d)) = true →
   closed (proc (dworld d')) = true ∧
   chan_closed (sequentialjobs (proc (dworld d'))) = true ∧
   chan_closed (backgroundJobs (proc (dworld d'))) = true).
Proof.
  intros HN Hn Hr Hr'.
  assert (dreachable (init_daemon NumCPU m n) d') as Hr2 by (unfold dreachable in *; by etrans).
  destruct (DInv_reachable m n d' HN Hn Hr2) as (_ & _ & _ & Hcl & _).
  assert (njobs (proc (dworld d')) = njobs (proc (dworld d)) ∧
          (closed (proc (dworld d)) = true → closed (proc (dworld d')) = true))
    as [Hnj Hc].
  { clear -Hr'. induction Hr' as [|x y z Hxy Hyz IH]; [done|].
    destruct (dstep_closed x y Hxy) as [H1 H2]. destruct IH as [H3 H4].
    split; [congruence|auto]. }
  split; [done|]. intros Hclosed. specialize (Hc Hclosed).
  rewrite Hc in Hcl. by destruct Hcl as (? & ? & _).
Qed.

End DaemonInvariant.

(** * Submissions that overlap *)

Section Overlap.
Context {Manager : Type}.
Implicit Types (w : @World Manager) (t : @Runnable Manager).

Lemma schedule_run i now (pc pc' : @Pc Manager) gs w' cs s :
  threads s !! i = Some pc →
  step_pc now pc (world s) = Ok (pc', gs) w' →
  schedule (RunThread i now :: cs) s =
    schedule cs {| world := w'; threads := <[i:=pc']> (threads s) ++ gs;
                   released := released s ∪ returned pc |}.
Proof. intros Hi Hs. cbn [schedule schedule1]. by rewrite Hi, Hs. Qed.

(** X13: [initMetadata] picks the ID under the read lock and
    [pushJobInternal] inserts the row later, under the write lock. When two
    submissions of the same kind in the same second both pick their ID
    before either inserts, both jobs get the same ID, the second insertion
    overwrites the row of the first, and the first job, although returned
    to its caller, is in the job table under no key. *)
Theorem overlapping_submissions_share_an_id now1 now2 t1 t2 w R :
  closed (proc w) = false →
  Z.of_nat (size (jobTable (proc w))) < 2 ^ 63 →
  kind t1 = kind t2 → Unix now1 = Unix now2 →
  (∀ k, jobTable (proc w) !! k ≠ Some (length (heap w))) →
  ∃ s' j1 j2,
    schedule [CallPush false (Some t1); CallPush false (Some t2);
              RunThread 0 now1; RunThread 1 now2;
              RunThread 0 now1; RunThread 1 now2;
              RunThread 0 now1; RunThread 1 now2]
             {| world := w; threads := []; released := R |} = Some s' ∧
    threads s' = [PcDone; PcDone] ∧
    heap (world s') = heap w ++ [j1; j2] ∧
    job_task j1 = t1 ∧ job_task j2 = t2 ∧
    job_id j1 = job_id j2 ∧
    jobTable (proc (world s')) = <[job_id j2:=S (length (heap w))]> (jobTable (proc w)) ∧
    (∀ k, jobTable (proc (world s')) !! k ≠ Some (length (heap w))).
Proof.
  intros Hopen Hsize Hkind Hunix Hfresh.
  destruct (initMetadata_loop_total (jobTable (proc w)) (kind t1) (Unix now1) Hsize)
    as (c & Hc & _).
  assert (∀ (x a b : @Pc Manager), <[0%nat:=x]> [a; b] ++ [] = [x; b]) as Hins0 by done.
  assert (∀ (y a b : @Pc Manager), <[1%nat:=y]> [a; b] ++ [] = [a; y]) as Hins1 by done.
  eexists _, (created_job now1 t1 c), (created_job now2 t2 c).
  split.
  - change (schedule (CallPush ?a ?b :: CallPush ?a' ?b' :: ?cs) ?s)
      with (schedule cs (spawn (PcPush a' b') (spawn (PcPush a b) s))).
    unfold spawn. cbn [threads world released app].
    (* both goroutines run [initMetadata] *)
    erewrite schedule_run; [|reflexivity|by apply step_PcPush].
    cbn [threads world released]. rewrite Hins0.
    erewrite schedule_run; [|reflexivity|apply step_PcPush with (c := c)].
    2:{ cbn [proc jobTable]. by rewrite <-Hkind, <-Hunix. }
    cbn [threads world released heap proc trace]. rewrite Hins1.
    rewrite length_app, Nat.add_1_r. cbn [length].
    (* both call the [Init] hook *)
    erewrite schedule_run; [|reflexivity|reflexivity].
    cbn [threads world released]. rewrite Hins0.
    erewrite schedule_run; [|reflexivity|reflexivity].
    cbn [threads world released]. rewrite Hins1.
    (* both insert their row *)
    erewrite schedule_run;
      [|reflexivity|apply step_PcPushInsert with (j := created_job now1 t1 c)].
    2:{ cbn. rewrite <-app_assoc. by apply list_lookup_middle. }
    cbn [threads world released]. rewrite Hins0.
    erewrite schedule_run;
      [|reflexivity|apply step_PcPushInsert with (j := created_job now2 t2 c)].
    2:{ cbn. rewrite Hopen. cbn.
        apply list_lookup_middle. rewrite length_app. cbn. lia. }
    cbn [threads world released]. rewrite Hins1.
    reflexivity.
  - cbn. rewrite Hopen. cbn. rewrite Hopen. cbn.
    rewrite <-Hkind, <-Hunix, insert_insert_eq, <-app_assoc.
    split_and!; try done.
    intros k. destruct (decide (k = Sprintf_id (kind t1) (Unix now1) c)) as [->|Hk].
    + rewrite lookup_insert_eq. intros [= H]. lia.
    + rewrite lookup_insert_ne by done. apply Hfresh.
Qed.

End Overlap.

(** * Adding packages *)

Section AddingPackages.
Import manager.
Context {Env Repository Package : Type}.
Variable C : @Collaborators Env Repository Package.
Implicit Types (s : @State Env Repository Package).

Lemma AddPackages_app repoName (l1 l2 : list string) s :
  AddPackages C repoName (l1 ++ l2) s =
    match (AddPackages C repoName l1 s).1 with
    | Some e => AddPackages C repoName l1 s
    | None => AddPackages C repoName l2 (AddPackages C repoName l1 s).2
    end.
Proof.
  revert s. induction l1 as [|p l1 IH]; intros s; [done|].
  cbn [app AddPackages]. unfold mbind, Op_bind.
  destruct (AddPackage C repoName p s).1; [done|]. apply IH.
Qed.

(** X14: [AddPackage] closes the package it has opened exactly once, as
    its last call, on every path: whether reading the metadata, taking the
    pool reference or making the repository directory fails or all three
    succeed. When the repository is not found nothing is opened, and when
    the package cannot be opened nothing is closed; the error returned is
    then the one of [GetRepo] or of [libeopkg.Open], and nothing but these
    calls has been made. *)
Theorem AddPackage_closes_what_it_opened reponame pkgPath s :
  let got := GetRepo C reponame (env s) in
  let opened := libeopkg_Open C pkgPath got.2 in
  let out := AddPackage C reponame pkgPath s in
  match got.1.2, opened.1.2 with
  | Some e, _ =>
      out.1 = Some e ∧ env out.2 = got.2 ∧ calls out.2 = calls s ++ [CGetRepo reponame]
  | None, Some e =>
      out.1 = Some e ∧ env out.2 = opened.2 ∧
      calls out.2 = calls s ++ [CGetRepo reponame; COpen pkgPath]
  | None, None =>
      ∃ mid,
        calls out.2 =
          calls s ++ [CGetRepo reponame; COpen pkgPath] ++ mid ++ [CClose opened.1.1] ∧
        Forall (λ c, is_CClose c = false) mid
  end.
Proof.
  cbv zeta. unfold AddPackage, addPackageToRepo, call, mbind, Op_bind, mret, Op_ret.
  cbn [fst snd env calls].
  destruct (GetRepo C reponame (env s)) as [[repo [e1|]] env1]; cbn [fst snd env calls];
    [done|].
  destruct (libeopkg_Open C pkgPath env1) as [[pkg [e2|]] env2]; cbn [fst snd env calls].
  { by rewrite <-app_assoc. }
  destruct (ReadMetadata C pkg env2) as [[e3|] env3]; cbn [fst snd env calls].
  { exists [CReadMetadata pkg]. rewrite <-!app_assoc. by repeat constructor. }
  destruct (RefPackage C pkg env3) as [[e4|] env4]; cbn [fst snd env calls].
  { exists [CReadMetadata pkg; CRefPackage pkg]. rewrite <-!app_assoc. by repeat constructor. }
  destruct (GetDirectory C repo env4) as [dir env5]; cbn [fst snd env calls].
  destruct (os_MkdirAll C (filepath_Join C (rootDir C) dir) 493 env5) as [[e6|] env6];
    cbn [fst snd env calls].
  - exists [CReadMetadata pkg; CRefPackage pkg; CGetDirectory repo;
            CMkdirAll (filepath_Join C (rootDir C) dir) 493].
    rewrite <-!app_assoc. by repeat constructor.
  - exists [CReadMetadata pkg; CRefPackage pkg; CGetDirectory repo;
            CMkdirAll (filepath_Join C (rootDir C) dir) 493].
    rewrite <-!app_assoc. by repeat constructor.
Qed.

(** X15: [AddPackages] adds the packages in order and stops at the first
    one that fails: it returns that error, the packages before it stay
    added and the ones after it are not touched. With no package to add it
    returns nil without a call, also for a repository that does not
    exist. *)
Theorem AddPackages_stops_at_first_error repoName (l1 l2 : list string) p e s :
  (AddPackages C repoName l1 s).1 = None →
  (AddPackage C repoName p (AddPackages C repoName l1 s).2).1 = Some e →
  AddPackages C repoName (l1 ++ p :: l2) s =
    (Some e, (AddPackage C repoName p (AddPackages C repoName l1 s).2).2) ∧
  AddPackages C repoName [] s = (None, s).
Proof.
  intros H1 Hp. split; [|done].
  rewrite AddPackages_app, H1. cbn [AddPackages]. unfold mbind at 1, Op_bind.
  rewrite Hp. unfold mret, Op_ret.
  by destruct (AddPackage C repoName p (AddPackages C repoName l1 s).2).
Qed.

End AddingPackages.

(** * Serving and closing *)

Section Serving.
Import server.
Context {Env Listener : Type}.
Variable C : @Platform Env Listener.
Implicit Types (s : @Server Env Listener).

Lemma Serve_running s :
  running (Serve C s).2 =
    match (net_Listen C "unix" UnixSocketPath (os s)).1.2 with
    | Some _ => running s
    | None =>
        let env1 := (net_Listen C "unix" UnixSocketPath (os s)).2 in
        match (os_Chmod C UnixSocketPath 384
                 (os_Chown C UnixSocketPath (os_Geteuid C env1) (os_Getegid C env1)
                    env1).2).1 with
        | Some _ => running s
        | None => false
        end
    end.
Proof.
  unfold Serve, syscall, note, self, set_running, mbind, SOp_bind, mret, SOp_ret.
  cbn [fst snd os syscalls running].
  destruct (net_Listen C "unix" UnixSocketPath (os s)) as [[l [e1|]] env1];
    cbn [fst snd os syscalls running]; [done|].
  destruct (os_Chown C UnixSocketPath (os_Geteuid C env1) (os_Getegid C env1) env1)
    as [[e2|] env2]; cbn [fst snd os syscalls running];
    destruct (os_Chmod C UnixSocketPath 384 env2) as [[e3|] env3];
    cbn [fst snd os syscalls running]; done.
Qed.

(** X16: whenever [Serve] returns on a server that [New] has made, the
    server is not running, whether binding the socket or restricting its
    mode failed or the HTTP server stopped. So the deferred [Close] of
    [mainLoop] finds nothing to do: [mainLoop] never shuts the HTTP server
    down and never removes the socket file. *)
Theorem mainLoop_never_tears_down (e : Env) :
  running (Serve C (New e)).2 = false ∧
  running (mainLoop C (New e)).2 = false ∧
  Forall (λ c, is_teardown c = false) (syscalls (mainLoop C (New e)).2).
Proof.
  assert (running (Serve C (New e)).2 = false) as Hr.
  { rewrite Serve_running. cbn.
    destruct (net_Listen C "unix" UnixSocketPath e) as [[l [e1|]] env1]; cbn; [done|].
    by destruct (os_Chmod _ _ _ _).1. }
  split; [done|].
  unfold mainLoop, mbind, SOp_bind. 
  set (s1 := (Serve C (New e)).2) in *.
  set (r := (Serve C (New e)).1).
  assert (Forall (λ c, is_teardown c = false) (syscalls s1)) as Hc.
  { subst s1. unfold Serve, syscall, note, self, set_running, mbind, SOp_bind, mret, SOp_ret, New.
    cbn [fst snd os syscalls running].
    destruct (net_Listen C "unix" UnixSocketPath e) as [[l [e1|]] env1];
      cbn [fst snd os syscalls running]; [cbn; by repeat constructor|].
    destruct (os_Chown C UnixSocketPath (os_Geteuid C env1) (os_Getegid C env1) env1)
      as [[e2|] env2]; cbn [fst snd os syscalls running];
      destruct (os_Chmod C UnixSocketPath 384 env2) as [[e3|] env3];
      cbn [fst snd os syscalls running]; try case_decide; cbn; by repeat constructor. }
  unfold Close, self, mbind, SOp_bind. cbn [fst snd].
  destruct r as [e'|]; unfold note, mret, SOp_ret; cbn [fst snd running os syscalls];
    rewrite Hr; cbn [negb fst snd running syscalls]; (split; [done|]); [|done].
  apply Forall_app. split; [done|by repeat constructor].
Qed.

End Serving.

(** * The pump at work *)

Section Pump.
Context {Manager : Type}.
Implicit Types (w : @World Manager) (d : @Daemon Manager) (pc : @Pc Manager).

Lemma step_pc_exec_left now pc w pc' gs w' k :
  step_pc now pc w = Ok (pc', gs) w' →
  exec_left pc = S k →
  exec_left pc' = k ∧ after_exec pc' = match k with O => None | S _ => Some pc' end.
Proof.
  intros Hstep Hk.
  destruct pc; try discriminate Hk; injection Hk as <-;
    cbn [step_pc] in Hstep; unfold mbind, M_bind in Hstep;
    repeat match type of Hstep with
           | context [match ?x with _ => _ end] => destruct x; try discriminate Hstep
           end;
    injection Hstep as <- <- <-; done.
Qed.

Lemma drun_pump_busy (m : nat) : ∀ nows pc d i pc' gs w',
  exec_left pc = S m →
  workers d !! i = Some (WSequentialQueue (Some pc)) →
  run_pc (S m) nows pc (dworld d) = Ok (pc', gs) w' →
  drun (worker_turns i (S m) nows) d =
    Some {| dworld := w'; callers := callers d ++ gs;
            workers := <[i:=WSequentialQueue None]> (workers d) |}.
Proof.
  induction m as [|m IH]; intros nows pc d i pc' gs w' Hleft Hi Hrun.
  - destruct (step_pc (nows 0%nat) pc (dworld d)) as [[pc1 gs1] w1| |] eqn:Hstep;
      [|cbn [run_pc] in Hrun; unfold mbind, M_bind in Hrun; by rewrite Hstep in Hrun..].
    rewrite (run_pc_S _ _ _ _ _ _ _ Hstep) in Hrun. cbn [run_pc] in Hrun.
    unfold mret, M_ret in Hrun.
    destruct (step_pc_exec_left _ _ _ _ _ _ _ Hstep Hleft) as [_ Hafter].
    injection Hrun as <- <- <-. rewrite app_nil_r.
    unfold worker_turns. cbn [seq fmap list_fmap drun drun1]. rewrite Hi.
    cbn [worker_step]. unfold mbind, M_bind. rewrite Hstep.
    unfold mret, M_ret. by rewrite Hafter, !app_nil_r.
  - destruct (step_pc (nows 0%nat) pc (dworld d)) as [[pc1 gs1] w1| |] eqn:Hstep;
      [|cbn [run_pc] in Hrun; unfold mbind at 1, M_bind at 1 in Hrun;
        by rewrite Hstep in Hrun..].
    rewrite (run_pc_S _ _ _ _ _ _ _ Hstep) in Hrun.
    destruct (step_pc_exec_left _ _ _ _ _ _ _ Hstep Hleft) as [Hleft1 Hafter].
    destruct (run_pc (S m) (λ i, nows (S i)) pc1 w1) as [[pc2 gs2] w2| |] eqn:Hrun1;
      [|done..].
    injection Hrun as <- <- <-.
    unfold worker_turns. change (seq 0 (S (S m))) with (0%nat :: seq 1 (S m)).
    rewrite <-fmap_S_seq. cbn [fmap list_fmap drun drun1]. rewrite Hi.
    cbn [worker_step]. unfold mbind, M_bind. rewrite Hstep.
    unfold mret, M_ret. rewrite Hafter, app_nil_r.
    rewrite <-list_fmap_compose.
    specialize (IH (λ i, nows (S i)) pc1
                  {| dworld := w1; callers := callers d ++ gs1;
                     workers := <[i:=WSequentialQueue (Some pc1)]> (workers d) |}
                  i pc2 gs2 w2 Hleft1).
    unfold worker_turns in IH. cbn [dworld callers workers] in IH.
    etrans; [apply IH|].
    + apply list_lookup_insert_eq. by eapply lookup_lt_Some.
    + done.
    + by rewrite list_insert_insert_eq, <-app_assoc.
Qed.

(** X18: the sequential pump executes the job it receives. When one send
    waits on the sequential lane and none on the background lane, the
    goroutine that sent has returned from [StartJob], and the other
    goroutines stand still meanwhile, the receive and the eight steps that
    follow leave the world [executeJob] leaves when run on the world after
    the receive, the pump is back in its select, and a goroutine that runs
    [StartJob] has been started for every parent the job unblocked. *)
Theorem pump_executes_received_job d i job j now0 nows :
  workers d !! i = Some (WSequentialQueue None) →
  chan_closed (sequentialjobs (proc (dworld d))) = false →
  sendq (sequentialjobs (proc (dworld d))) = [job] →
  sendq (backgroundJobs (proc (dworld d))) = [] →
  heap (dworld d) !! job = Some j →
  ∃ w',
    executeJob (nows 0%nat) (nows 3%nat) job
      (set_proc (set_sequentialjobs {| sendq := []; chan_closed := false |}) (dworld d))
      = Ok tt w' ∧
    drun (DWorker i now0 :: worker_turns i 8 nows) d =
      Some {| dworld := w';
              callers := callers d ++ (PcStart <$> unblocked j (heap (dworld d)));
              workers := workers d |}.
Proof.
  intros Hi Hopen Hq _ Hj.
  set (w1 := set_proc (set_sequentialjobs {| sendq := []; chan_closed := false |})
               (dworld d)).
  assert (heap w1 !! job = Some j) as Hj1 by done.
  destruct (run_pc_executeJob nows job j w1 Hj1) as (w' & Hexec & Hrun).
  exists w'. split; [exact Hexec|].
  cbn [drun drun1]. rewrite Hi. cbn [worker_step].
  unfold mbind at 1, M_bind at 1, get at 1. rewrite Hopen.
  unfold chan_recv. rewrite Hopen, Hq.
  unfold mbind, M_bind, modify, mret, M_ret. rewrite !app_nil_r.
  etrans; [eapply (drun_pump_busy 7 nows (PcExec job)); [done| |exact Hrun]|].
  - apply list_lookup_insert_eq. by eapply lookup_lt_Some.
  - cbn [dworld callers workers]. rewrite list_insert_insert_eq.
    by rewrite list_insert_id.
Qed.

End Pump.

(** * The properties of the operations, the daemon and the manager on the samples *)


(** The job that [PushJob] had queued waits on the background lane three
    times after two more calls of [StartJob]. *)
Example job_started_again_waits_again :
  sendq (backgroundJobs (proc (exec (StartJob 0%nat;; StartJob 0%nat) one_job_world))) =
    [0%nat; 0%nat; 0%nat].
Proof. vm_compute. reflexivity. Qed.


Lemma executeJob_releases_id_witness :
  heap one_job_world !! 0%nat = Some (created_job T0 DeltaTask 0) ∧
  ∃ w', executeJob (T0 + 1) (T0 + 2) 0%nat one_job_world = Ok tt w' ∧
    jobTable (proc w') =
      delete (job_id (created_job T0 DeltaTask 0)) (jobTable (proc one_job_world)) ∧
    jobTable (proc w') !! job_id (created_job T0 DeltaTask 0) = None ∧
    (∀ k, k ≠ job_id (created_job T0 DeltaTask 0) →
          jobTable (proc w') !! k = jobTable (proc one_job_world) !! k) ∧
    manager (proc w') =
      (Perform (job_task (created_job T0 DeltaTask 0)) (manager (proc one_job_world))).1 ∧
    sequentialjobs (proc w') = sequentialjobs (proc one_job_world) ∧
    backgroundJobs (proc w') = backgroundJobs (proc one_job_world) ∧
    closed (proc w') = closed (proc one_job_world) ∧
    wg (proc w') = wg (proc one_job_world) ∧ quit (proc w') = quit (proc one_job_world).
Proof.
  assert (heap one_job_world !! 0%nat = Some (created_job T0 DeltaTask 0)) as H
    by reflexivity.
  split; [exact H|].
  exact (executeJob_releases_id (T0 + 1) (T0 + 2) 0%nat _ one_job_world H).
Defined.

Lemma executeJob_logs_failure_witness :
  heap one_job_world !! 0%nat = Some (created_job T0 DeltaTask 0) ∧
  ∃ w' evs,
    executeJob (T0 + 1) (T0 + 2) 0%nat one_job_world = Ok tt w' ∧
    trace w' = trace one_job_world ++ evs ∧
    omap (λ e, match e with EvLog id ty msg => Some (id, ty, msg) | _ => None end) evs =
      match (Perform (job_task (created_job T0 DeltaTask 0))
               (manager (proc one_job_world))).2 with
      | Some e => [(job_id (created_job T0 DeltaTask 0),
                    kind (job_task (created_job T0 DeltaTask 0)), e)]
      | None => []
      end.
Proof.
  assert (heap one_job_world !! 0%nat = Some (created_job T0 DeltaTask 0)) as H
    by reflexivity.
  split; [exact H|].
  exact (executeJob_logs_failure (T0 + 1) (T0 + 2) 0%nat _ one_job_world H).
Defined.


(** After the sample run the pump and a worker are inside [executeJob],
    the starter has started its two workers and has not returned, the
    fourth goroutine is in its select, and three quit tokens wait. *)
Example sample_daemon_state :
  workers sample_daemon =
    [WSequentialQueue (Some (PcExecRunning 0)); WBackgroundQueue (Some 2);
     WBackgroundWorker (Some (PcExecRunning 1)); WBackgroundWorker None] ∧
  wg (proc (dworld sample_daemon)) = 4 ∧
  quit (proc (dworld sample_daemon)) = 3%nat ∧
  closed (proc (dworld sample_daemon)) = true.
Proof. vm_compute. split_and!; reflexivity. Qed.

Lemma WaitGroup_counts_pumps_and_workers_witness :
  0 ≤ 4 ≤ int_max ∧ 2 ≤ int_max ∧
  dreachable (init_daemon 4 tt 2) sample_daemon ∧
  wg (proc (dworld sample_daemon)) =
    Z.of_nat (count live (workers sample_daemon))
    + total (owed (njobs (proc (dworld sample_daemon)))) (workers sample_daemon) ∧
  0 ≤ total (owed (njobs (proc (dworld sample_daemon)))) (workers sample_daemon) ∧
  (wg (proc (dworld sample_daemon)) = 0 →
   Forall (λ wk, wk = WExited) (workers sample_daemon)).
Proof.
  assert (0 ≤ 4 ≤ int_max) as H1 by (unfold int_max; lia).
  assert (2 ≤ int_max) as H2 by (unfold int_max; lia).
  assert (dreachable (init_daemon 4 tt 2) sample_daemon) as H3.
  { apply (drun_dreachable daemon_choices). vm_compute. reflexivity. }
  split; [exact H1|]. split; [exact H2|]. split; [exact H3|].
  exact (WaitGroup_counts_pumps_and_workers 4 tt 2 sample_daemon H1 H2 H3).
Defined.

Lemma quit_tokens_fit_the_buffer_witness :
  0 ≤ 4 ≤ int_max ∧ 2 ≤ int_max ∧
  dreachable (init_daemon 4 tt 2) sample_daemon ∧
  let P := proc (dworld sample_daemon) in
  (quit P ≤ Z.to_nat (njobs P + 1))%nat ∧
  chan_closed (sequentialjobs P) = closed P ∧
  chan_closed (backgroundJobs P) = closed P ∧
  (closed P = false → quit P = 0%nat).
Proof.
  assert (0 ≤ 4 ≤ int_max) as H1 by (unfold int_max; lia).
  assert (2 ≤ int_max) as H2 by (unfold int_max; lia).
  assert (dreachable (init_daemon 4 tt 2) sample_daemon) as H3.
  { apply (drun_dreachable daemon_choices). vm_compute. reflexivity. }
  split; [exact H1|]. split; [exact H2|]. split; [exact H3|].
  exact (quit_tokens_fit_the_buffer 4 tt 2 sample_daemon H1 H2 H3).
Defined.

Lemma no_job_begins_after_Close_witness :
  0 ≤ 4 ≤ int_max ∧ 2 ≤ int_max ∧
  dreachable (init_daemon 4 tt 2) sample_daemon ∧
  closed (proc (dworld sample_daemon)) = true ∧
  dstep sample_daemon sample_daemon_quit ∧
  (count executing_sequential (workers sample_daemon_quit)
   ≤ count executing_sequential (workers sample_daemon))%nat ∧
  (count executing_background (workers sample_daemon_quit)
   ≤ count executing_background (workers sample_daemon))%nat.
Proof.
  assert (0 ≤ 4 ≤ int_max) as H1 by (unfold int_max; lia).
  assert (2 ≤ int_max) as H2 by (unfold int_max; lia).
  assert (dreachable (init_daemon 4 tt 2) sample_daemon) as H3.
  { apply (drun_dreachable daemon_choices). vm_compute. reflexivity. }
  assert (closed (proc (dworld sample_daemon)) = true) as H4 by (vm_compute; reflexivity).
  assert (dstep sample_daemon sample_daemon_quit) as H5.
  { apply (drun1_dstep (DQuit 3)). vm_compute. reflexivity. }
  split; [exact H1|]. split; [exact H2|]. split; [exact H3|].
  split; [exact H4|]. split; [exact H5|].
  exact (no_job_begins_after_Close 4 tt 2 sample_daemon sample_daemon_quit H1 H2 H3 H4 H5).
Defined.

Lemma lanes_run_bounded_jobs_witness :
  0 ≤ 4 ≤ int_max ∧ 2 ≤ int_max ∧
  dreachable (init_daemon 4 tt 2) sample_daemon ∧
  (count executing_sequential (workers sample_daemon) ≤ begun (dworld sample_daemon))%nat ∧
  Z.of_nat (count executing_background (workers sample_daemon))
    ≤ njobs (proc (dworld sample_daemon)) * Z.of_nat (begun (dworld sample_daemon)).
Proof.
  assert (0 ≤ 4 ≤ int_max) as H1 by (unfold int_max; lia).
  assert (2 ≤ int_max) as H2 by (unfold int_max; lia).
  assert (dreachable (init_daemon 4 tt 2) sample_daemon) as H3.
  { apply (drun_dreachable daemon_choices). vm_compute. reflexivity. }
  split; [exact H1|]. split; [exact H2|]. split; [exact H3|].
  exact (lanes_run_bounded_jobs 4 tt 2 sample_daemon H1 H2 H3).
Defined.

Lemma closed_is_permanent_witness :
  0 ≤ 4 ≤ int_max ∧ 2 ≤ int_max ∧
  dreachable (init_daemon 4 tt 2) sample_daemon ∧
  dreachable sample_daemon sample_daemon_later ∧
  njobs (proc (dworld sample_daemon_later)) = njobs (proc (dworld sample_daemon)) ∧
  (closed (proc (dworld sample_daemon)) = true →
   closed (proc (dworld sample_daemon_later)) = true ∧
   chan_closed (sequentialjobs (proc (dworld sample_daemon_later))) = true ∧
   chan_closed (backgroundJobs (proc (dworld sample_daemon_later))) = true).
Proof.
  assert (0 ≤ 4 ≤ int_max) as H1 by (unfold int_max; lia).
  assert (2 ≤ int_max) as H2 by (unfold int_max; lia).
  assert (dreachable (init_daemon 4 tt 2) sample_daemon) as H3.
  { apply (drun_dreachable daemon_choices). vm_compute. reflexivity. }
  assert (dreachable sample_daemon sample_daemon_later) as H4.
  { apply (drun_dreachable [DQuit 3; DWorker 1 T0; DWorker 0 T0]). vm_compute. reflexivity. }
  split; [exact H1|]. split; [exact H2|]. split; [exact H3|]. split; [exact H4|].
  exact (closed_is_permanent 4 tt 2 sample_daemon sample_daemon_later H1 H2 H3 H4).
Defined.

Lemma overlapping_submissions_share_an_id_witness :
  closed (proc fresh_world) = false ∧
  Z.of_nat (size (jobTable (proc fresh_world))) < 2 ^ 63 ∧
  kind ImportTask = kind ImportTask ∧ Unix T0 = Unix (T0 + 5) ∧
  (∀ k, jobTable (proc fresh_world) !! k ≠ Some (length (heap fresh_world))) ∧
  ∃ s' j1 j2,
    schedule [CallPush false (Some ImportTask); CallPush false (Some ImportTask);
              RunThread 0 T0; RunThread 1 (T0 + 5);
              RunThread 0 T0; RunThread 1 (T0 + 5);
              RunThread 0 T0; RunThread 1 (T0 + 5)]
             {| world := fresh_world; threads := []; released := ∅ |} = Some s' ∧
    threads s' = [PcDone; PcDone] ∧
    heap (world s') = heap fresh_world ++ [j1; j2] ∧
    job_task j1 = ImportTask ∧ job_task j2 = ImportTask ∧
    job_id j1 = job_id j2 ∧
    jobTable (proc (world s')) =
      <[job_id j2:=S (length (heap fresh_world))]> (jobTable (proc fresh_world)) ∧
    (∀ k, jobTable (proc (world s')) !! k ≠ Some (length (heap fresh_world))).
Proof.
  assert (closed (proc fresh_world) = false) as H1 by reflexivity.
  assert (Z.of_nat (size (jobTable (proc fresh_world))) < 2 ^ 63) as H2
    by (vm_compute; reflexivity).
  assert (kind ImportTask = kind ImportTask) as H3 by reflexivity.
  assert (Unix T0 = Unix (T0 + 5)) as H4 by (vm_compute; reflexivity).
  assert (∀ k, jobTable (proc fresh_world) !! k ≠ Some (length (heap fresh_world))) as H5.
  { intros k. change (jobTable (proc fresh_world)) with (∅ : gmap string nat).
    rewrite lookup_empty. discriminate. }
  split; [exact H1|]. split; [exact H2|]. split; [exact H3|]. split; [exact H4|].
  split; [exact H5|].
  exact (overlapping_submissions_share_an_id T0 (T0 + 5) ImportTask ImportTask
           fresh_world ∅ H1 H2 H3 H4 H5).
Defined.

(** Two imports that overlap: one row for two jobs. *)
Example overlapping_imports_leave_one_row :
  let s := default (init_system 4 tt 2)
             (schedule [CallPush false (Some ImportTask); CallPush false (Some ImportTask);
                        RunThread 0 T0; RunThread 1 (T0 + 5);
                        RunThread 0 T0; RunThread 1 (T0 + 5);
                        RunThread 0 T0; RunThread 1 (T0 + 5)]
                       (init_system 4 tt 2)) in
  job_id <$> heap (world s) = ["ImportTask-1500000000-0"; "ImportTask-1500000000-0"] ∧
  size (jobTable (proc (world s))) = 1%nat ∧
  jobTable (proc (world s)) !! "ImportTask-1500000000-0" = Some 1%nat.
Proof. vm_compute. split_and!; reflexivity. Qed.

Lemma AddPackages_stops_at_first_error_witness :
  (manager.AddPackages sample_collaborators "unstable" ["a.eopkg"]
     sample_manager_state).1 = None ∧
  (manager.AddPackage sample_collaborators "unstable" "b.missing"
     (manager.AddPackages sample_collaborators "unstable" ["a.eopkg"]
        sample_manager_state).2).1 = Some "no such file" ∧
  manager.AddPackages sample_collaborators "unstable"
    (["a.eopkg"] ++ "b.missing" :: ["c.eopkg"]) sample_manager_state =
    (Some "no such file",
     (manager.AddPackage sample_collaborators "unstable" "b.missing"
        (manager.AddPackages sample_collaborators "unstable" ["a.eopkg"]
           sample_manager_state).2).2) ∧
  manager.AddPackages sample_collaborators "unstable" [] sample_manager_state =
    (None, sample_manager_state).
Proof.
  assert ((manager.AddPackages sample_collaborators "unstable" ["a.eopkg"]
             sample_manager_state).1 = None) as H1 by (vm_compute; reflexivity).
  assert ((manager.AddPackage sample_collaborators "unstable" "b.missing"
             (manager.AddPackages sample_collaborators "unstable" ["a.eopkg"]
                sample_manager_state).2).1 = Some "no such file") as H2
    by (vm_compute; reflexivity).
  split; [exact H1|]. split; [exact H2|].
  exact (AddPackages_stops_at_first_error sample_collaborators "unstable"
           ["a.eopkg"] ["c.eopkg"] "b.missing" "no such file" sample_manager_state H1 H2).
Defined.

(** The first package is in the pool and was closed, the second could not
    be opened, the third was never looked at. *)
Example AddPackages_sample_run :
  manager.AddPackages sample_collaborators "unstable" ["a.eopkg"; "b.missing"; "c.eopkg"]
    sample_manager_state =
    (Some "no such file",
     {| manager.env := ["a.eopkg"];
        manager.calls :=
          [manager.CGetRepo "unstable"; manager.COpen "a.eopkg";
           manager.CReadMetadata "a.eopkg"; manager.CRefPackage "a.eopkg";
           manager.CGetDirectory "unstable"; manager.CMkdirAll "/srv/ferryd/unstable" 493;
           manager.CClose "a.eopkg";
           manager.CGetRepo "unstable"; manager.COpen "b.missing"] |}).
Proof. vm_compute. reflexivity. Qed.

Lemma pump_executes_received_job_witness :
  workers sample_daemon_queued !! 0%nat = Some (WSequentialQueue None) ∧
  chan_closed (sequentialjobs (proc (dworld sample_daemon_queued))) = false ∧
  sendq (sequentialjobs (proc (dworld sample_daemon_queued))) = [0%nat] ∧
  sendq (backgroundJobs (proc (dworld sample_daemon_queued))) = [] ∧
  heap (dworld sample_daemon_queued) !! 0%nat = Some (created_job T0 ImportTask 0) ∧
  ∃ w',
    executeJob (T0 + 1) (T0 + 4) 0%nat
      (set_proc (set_sequentialjobs {| sendq := []; chan_closed := false |})
         (dworld sample_daemon_queued)) = Ok tt w' ∧
    drun (DWorker 0 T0 :: worker_turns 0 8 (λ k, T0 + 1 + Z.of_nat k)) sample_daemon_queued =
      Some {| dworld := w';
              callers := callers sample_daemon_queued ++
                         (PcStart <$> unblocked (created_job T0 ImportTask 0)
                                        (heap (dworld sample_daemon_queued)));
              workers := workers sample_daemon_queued |}.
Proof.
  assert (workers sample_daemon_queued !! 0%nat = Some (WSequentialQueue None)) as H1
    by (vm_compute; reflexivity).
  assert (chan_closed (sequentialjobs (proc (dworld sample_daemon_queued))) = false) as H2
    by (vm_compute; reflexivity).
  assert (sendq (sequentialjobs (proc (dworld sample_daemon_queued))) = [0%nat]) as H3
    by (vm_compute; reflexivity).
  assert (sendq (backgroundJobs (proc (dworld sample_daemon_queued))) = []) as H3'
    by (vm_compute; reflexivity).
  assert (heap (dworld sample_daemon_queued) !! 0%nat = Some (created_job T0 ImportTask 0))
    as H4 by (vm_compute; reflexivity).
  split; [exact H1|]. split; [exact H2|]. split; [exact H3|]. split; [exact H3'|].
  split; [exact H4|].
  exact (pump_executes_received_job sample_daemon_queued 0%nat 0%nat _ T0
           (λ k, T0 + 1 + Z.of_nat k) H1 H2 H3 H3' H4).
Defined.

(** The import has run and succeeded, and its row is gone. *)
Example pump_runs_the_import :
  let d := default sample_daemon_queued
             (drun (DWorker 0 T0 :: worker_turns 0 8 (λ k, T0 + 1 + Z.of_nat k))
                sample_daemon_queued) in
  job_status <$> heap (dworld d) !! 0%nat = Some StatusSuccess ∧
  jobTable (proc (dworld d)) = ∅ ∧
  workers d !! 0%nat = Some (WSequentialQueue None).
Proof. vm_compute. split_and!; reflexivity. Qed.
